(** * The console host's input buffer: til::ring_buffer and InputBuffer

    A shallow embedding of [src/inc/til/ring_buffer.h] and of
    [src/host/inputBuffer.cpp], and the properties of the design
    description checked against it.

    Conventions of the embedding.
    - [size_t] counts are [nat]: every count in the code is the size of an
      object that is in memory, so no sum of two of them reaches 2^64.
    - A pointer into an allocation is its offset from the allocation's first
      element; [nullptr] is [None] where the code tests for it.
    - [::operator new] may fail: the state carries the outcomes of the
      upcoming calls ([heap]), so that every theorem holds for every pattern
      of allocation failures.
    - [memcpy] outside an allocation is undefined behaviour: [Undefined]. *)

From Stdlib Require Import ZArith Lia.
From stdpp Require Import base tactics option list.

Local Open Scope nat_scope.

(** ** Outcomes of a call *)

(** C++ exceptions the modelled code can raise. *)
Inductive exn : Type :=
| bad_alloc          (* ::operator new *)
| narrowing_error    (* gsl::narrow *)
| length_error       (* til::bytes_advance *)
| hresult_error.     (* THROW_HR_IF / THROW_LAST_ERROR_IF *)

(** A call on a state [S] returns normally with a value ([Ok]), leaves by an
    exception ([Throw], the state as the exception found it), runs into
    undefined behaviour ([Undefined]) or stops at a failed [assert]. *)
Inductive outcome (S A : Type) : Type :=
| Ok (a : A) (s : S)
| Throw (e : exn) (s : S)
| Undefined
| AssertFailed.
Arguments Ok {S A} a s.
Arguments Throw {S A} e s.
Arguments Undefined {S A}.
Arguments AssertFailed {S A}.

Definition M (S A : Type) : Type := S → outcome S A.

#[export] Instance M_ret {S} : MRet (M S) := λ A a s, Ok a s.
#[export] Instance M_bind {S} : MBind (M S) := λ A B f m s,
  match m s with
  | Ok a s' => f a s'
  | Throw e s' => Throw e s'
  | Undefined => Undefined
  | AssertFailed => AssertFailed
  end.

Definition throw {S A} (e : exn) : M S A := λ s, Throw e s.
Definition undefined {S A} : M S A := λ _, Undefined.
Definition assert {S} (c : bool) : M S unit :=
  λ s, if c then Ok tt s else AssertFailed.
Definition get {S} : M S S := λ s, Ok s s.
Definition modify {S} (f : S → S) : M S unit := λ s, Ok tt (f s).

(** A value computed by code that has undefined behaviour on some inputs. *)
Definition defined {S A} (o : option A) : M S A :=
  match o with Some a => mret a | None => undefined end.

(** The call stops at no failed [assert]. *)
Definition no_assert {S A} (m : M S A) : Prop := ∀ s, m s ≠ AssertFailed.

(** ** The heap *)

(** The outcomes of the upcoming calls of [::operator new], first call first:
    [true] returns memory, [false] raises [std::bad_alloc]. Past the end of the
    list every call succeeds. *)
Definition heap : Type := list bool.

Definition operator_new : M heap unit := λ h,
  match h with
  | [] => Ok tt []
  | true :: h' => Ok tt h'
  | false :: h' => Throw bad_alloc h'
  end.

(** [std::is_trivial_v<T>]: a value of [T] needs no construction; fresh
    memory holds some value [indeterminate] that no theorem depends on. *)
Class Trivial (T : Type) : Type := indeterminate : T.

(** ** til::ring_buffer<T> *)

Module ring_buffer.
Section ring_buffer.
Context {T : Type} `{!Trivial T}.

(** The members. [mem] is the allocation at [_beg]; [_end], [_writer] and
    [_reader] are offsets from [_beg]. *)
Record t : Type := mk {
  mem : list T;
  _end : nat;
  _writer : nat;
  _reader : nat;
  _size : nat;
  _capacity : nat;
}.

Definition _beg (r : t) : nat := 0.

(** [ring_buffer() = default]: every pointer null, both counts 0. *)
Definition init : t :=
  {| mem := []; _end := 0; _writer := 0; _reader := 0; _size := 0; _capacity := 0 |}.

Definition empty (r : t) : bool := _size r =? 0.

Definition size (r : t) : nat := _size r.

Definition clear (r : t) : t :=
  {| mem := mem r; _end := _end r; _writer := _beg r; _reader := _beg r;
     _size := 0; _capacity := _capacity r |}.

(** [_allocate(size)]: [::operator new(size * sizeof(T))]. *)
Definition _allocate (size : nat) : M heap (list T) :=
  _ ← operator_new; mret (replicate size indeterminate).

(** [_copy(dst, src, len)]: [memcpy] of [len] elements from offset [src] of
    [src_mem] to offset [dst] of [dst_mem]; the result is the memory written
    and [dst + len]. [None] when either range leaves its allocation. *)
Definition _copy (dst_mem : list T) (dst : nat) (src_mem : list T) (src len : nat)
  : option (list T * nat) :=
  if (src + len <=? length src_mem) && (dst + len <=? length dst_mem) then
    Some (take dst dst_mem ++ take len (drop src src_mem) ++ drop (dst + len) dst_mem,
          dst + len)
  else None.

(** What [_copy(data, src, len)] stores into a caller's buffer [data]: the
    [len] elements at offset [src]. *)
Definition _load (src_mem : list T) (src len : nat) : list T :=
  take len (drop src src_mem).

Definition _grow (new_size : nat) (r : t) : M heap t :=
  let new_cap := max 16 (max new_size (_capacity r + _capacity r / 2)) in
  data ← _allocate new_cap;
  let new_writer := 0 in
  '(data, new_writer) ← defined (_copy data new_writer (mem r) (_reader r) (_end r - _reader r));
  '(data, new_writer) ← defined (_copy data new_writer (mem r) (_beg r) (_writer r - _beg r));
  (* _deallocate(_beg) *)
  mret {| mem := data; _end := new_cap; _reader := 0; _writer := new_writer;
          _size := _size r; _capacity := new_cap |}.

(** [write(const T& data)] *)
Definition write (data : T) (r : t) : M heap t :=
  let new_size := _size r + 1 in
  r ← (if _capacity r <? new_size then _grow new_size r else mret r);
  let beg := _beg r in
  let end_ := _end r in
  let writer := _writer r in
  '(m, writer) ← defined (_copy (mem r) writer [data] 0 1);
  let writer := if writer =? end_ then beg else writer in
  mret {| mem := m; _end := _end r; _writer := writer; _reader := _reader r;
          _size := new_size; _capacity := _capacity r |}.

(** [write(const T* data, size_t count)]; [data] is the caller's array, of
    [count] elements. *)
Definition write_n (data : list T) (r : t) : M heap t :=
  let count := length data in
  let new_size := _size r + count in
  r ← (if _capacity r <? new_size then _grow new_size r else mret r);
  let beg := _beg r in
  let end_ := _end r in
  let writer := _writer r in
  let available := end_ - writer in
  '(m, writer) ←
    (if count <? available then
       defined (_copy (mem r) writer data 0 count)
     else
       '(m, _) ← defined (_copy (mem r) writer data 0 available);
       defined (_copy m beg data available (count - available)));
  mret {| mem := m; _end := _end r; _writer := writer; _reader := _reader r;
          _size := new_size; _capacity := _capacity r |}.

(** [last_written()]: where the element written last is, or [nullptr]. *)
Definition last_written (r : t) : option nat :=
  if _size r =? 0 then None
  else
    let writer := _writer r in
    let p := if writer =? _beg r then _end r else writer in
    Some (p - 1).

(** [peek()] *)
Definition peek (r : t) : option nat :=
  if _size r =? 0 then None else Some (_reader r).

(** [*p] for a pointer [p] into the allocation. *)
Definition deref (r : t) (p : nat) : T := default indeterminate (mem r !! p).

(** [*p = v] *)
Definition store (p : nat) (v : T) (r : t) : t :=
  {| mem := <[p := v]> (mem r); _end := _end r; _writer := _writer r;
     _reader := _reader r; _size := _size r; _capacity := _capacity r |}.

(** [read(T& data)]: the element read, if any, and the buffer after. *)
Definition read (r : t) : option T * t :=
  let beg := _beg r in
  let end_ := _end r in
  let reader := _reader r in
  let size := _size r in
  if size =? 0 then (None, r)
  else
    let new_reader := reader + 1 in
    let new_reader := if new_reader =? end_ then beg else new_reader in
    (Some (deref r reader),
     {| mem := mem r; _end := _end r; _writer := _writer r; _reader := new_reader;
        _size := size - 1; _capacity := _capacity r |}).

(** [read(T* data, size_t count)]: the elements stored into [data], in
    order (their number is the count returned), and the buffer after. *)
Definition read_n (count : nat) (r : t) : list T * t :=
  let beg := _beg r in
  let end_ := _end r in
  let reader := _reader r in
  let size := _size r in
  let count := min size count in
  let available := end_ - reader in
  let '(data, reader) :=
    if count <? available then
      (_load (mem r) reader count, reader + count)
    else
      let remaining := count - available in
      (_load (mem r) reader available ++ _load (mem r) beg remaining, beg + remaining) in
  (data,
   {| mem := mem r; _end := _end r; _writer := _writer r; _reader := reader;
      _size := _size r - count; _capacity := _capacity r |}).

(** [advance(size_t count)] *)
Definition advance (count : nat) (r : t) : t :=
  let beg := _beg r in
  let end_ := _end r in
  let reader := _reader r in
  let size := _size r in
  let count := min size count in
  let available := end_ - reader in
  let reader :=
    if count <? available then reader + count
    else beg + (count - available) in
  {| mem := mem r; _end := _end r; _writer := _writer r; _reader := reader;
     _size := _size r - count; _capacity := _capacity r |}.

(** *** What the buffer holds *)

(** The live elements, oldest first: [_size] elements from the read cursor
    on, the allocation taken as a circle. *)
Definition contents (r : t) : list T :=
  take (_size r) (drop (_reader r) (mem r) ++ take (_reader r) (mem r)).

(** [n] brought back into the allocation, for [n] under twice its size. *)
Definition wrap (cap n : nat) : nat := if n <? cap then n else n - cap.

(** The class invariant: the members describe one allocation of
    [_capacity] elements, the read cursor is inside it, and the write cursor
    is [_size] elements ahead of the read cursor, around the end. *)
Definition wf (r : t) : Prop :=
  length (mem r) = _capacity r ∧ _end r = _capacity r ∧ _size r ≤ _capacity r ∧
  (_reader r < _capacity r ∨ (_capacity r = 0 ∧ _reader r = 0)) ∧
  _writer r = wrap (_capacity r) (_reader r + _size r).

(** *** Sequences of calls *)

Inductive op : Type :=
| Write1 (data : T)
| WriteN (data : list T)
| Read1
| ReadN (count : nat)
| Advance (count : nat).

(** The calls [ops] made in order on [r]: the elements the reads gave,
    first read first, and the buffer after. *)
Fixpoint run (ops : list op) (r : t) : M heap (list T * t) :=
  match ops with
  | [] => mret ([], r)
  | Write1 data :: ops => r ← write data r; run ops r
  | WriteN data :: ops => r ← write_n data r; run ops r
  | Read1 :: ops =>
    let '(data, r) := read r in
    '(out, r) ← run ops r; mret (option_list data ++ out, r)
  | ReadN count :: ops =>
    let '(data, r) := read_n count r in
    '(out, r) ← run ops r; mret (data ++ out, r)
  | Advance count :: ops => run ops (advance count r)
  end.

(** The same calls on a queue that is a list, oldest element first: what a
    first-in first-out buffer gives to its reads. *)
Fixpoint fifo (ops : list op) (q : list T) : list T :=
  match ops with
  | [] => []
  | Write1 data :: ops => fifo ops (q ++ [data])
  | WriteN data :: ops => fifo ops (q ++ data)
  | Read1 :: ops => take 1 q ++ fifo ops (drop 1 q)
  | ReadN count :: ops => take count q ++ fifo ops (drop count q)
  | Advance count :: ops => fifo ops (drop count q)
  end.

(** No call of [ops] is a write of several elements at once. *)
Definition single_writes (ops : list op) : Prop :=
  Forall (λ o, match o with WriteN _ => False | _ => True end) ops.

End ring_buffer.
Arguments t T : clear implicits.
Arguments op T : clear implicits.
End ring_buffer.

Abbreviation ring_buffer := ring_buffer.t.

(** ** The types of the input buffer *)

(** A UTF-16 code unit and a byte of narrow text, by their values. *)
Definition wchar_t : Type := Z.
Definition char : Type := Z.

(** [KEY_EVENT_RECORD] and [INPUT_RECORD] of the console API. The union
    [Event] is read as a key event only, as the code does. *)
Record KEY_EVENT_RECORD : Type := {
  bKeyDown : bool;
  wRepeatCount : Z;
  wVirtualKeyCode : Z;
  wVirtualScanCode : Z;
  UnicodeChar : wchar_t;
  dwControlKeyState : Z;
}.

Record INPUT_RECORD : Type := {
  EventType : Z;
  KeyEvent : KEY_EVENT_RECORD;
}.

Definition KEY_EVENT : Z := 1.

(** Modelled from the spec: [SynthesizeKeyEvent] is declared outside src/; the
    design description calls its result a synthesized key event record
    carrying the text character. The arguments fill the fields they name. *)
Definition SynthesizeKeyEvent (bKeyDown : bool)
    (wRepeatCount wVirtualKeyCode wVirtualScanCode : Z) (UnicodeChar : wchar_t)
    (dwControlKeyState : Z) : INPUT_RECORD :=
  {| EventType := KEY_EVENT;
     KeyEvent := {| bKeyDown := bKeyDown; wRepeatCount := wRepeatCount;
                    wVirtualKeyCode := wVirtualKeyCode;
                    wVirtualScanCode := wVirtualScanCode;
                    UnicodeChar := UnicodeChar;
                    dwControlKeyState := dwControlKeyState |} |}.

Inductive SpanType : Type := Record_ | Text.

#[export] Instance SpanType_eq_dec : EqDecision SpanType.
Proof. solve_decision. Defined.

(** [struct Span { SpanType type; size_t length; }] *)
Module Span.
Record t : Type := mk { type : SpanType; length : nat }.
End Span.
Abbreviation Span := Span.t.

Inductive ReadingMode : Type := StringA | StringW | InputEventsA | InputEventsW.

#[export] Instance ReadingMode_eq_dec : EqDecision ReadingMode.
Proof. solve_decision. Defined.

(** A [std::string_view] or [std::wstring_view] into an owned string: where it
    starts in the string, and its size. *)
Module view.
Record t : Type := mk { data : nat; size : nat }.
Definition empty (v : t) : bool := size v =? 0.
(** The elements the view shows of the string [owner]. *)
Definition elements {A} (owner : list A) (v : t) : list A :=
  take (size v) (drop (data v) owner).
(** The view of a whole string. *)
Definition of_string {A} (owner : list A) : t := mk 0 (length owner).
(** [v.substr(n)], for [n] within the view. *)
Definition substr (n : nat) (v : t) : t := mk (data v + n) (size v - n).
(** [{}] *)
Definition null : t := mk 0 0.
End view.

(** A [std::span<char>] over a caller's buffer that the code fills from the
    front: [stored] are the bytes the code has put ahead of the span's start,
    [size] is the room left. *)
Module span.
Record t : Type := mk { stored : list char; size : nat }.
Definition empty (s : t) : bool := size s =? 0.
(** A caller's span over a fresh buffer of [n] bytes. *)
Definition of_size (n : nat) : t := mk [] n.
End span.

(** The members of [InputBuffer] the modelled functions use. *)
Record InputBuffer : Type := {
  _readingMode : ReadingMode;
  _cachedTextA : list char;
  _cachedTextReaderA : view.t;
  _cachedTextW : list wchar_t;
  _cachedTextReaderW : view.t;
  _cachedInputEvents : list INPUT_RECORD;
  _spans : ring_buffer Span;
  _records : ring_buffer INPUT_RECORD;
  _text : ring_buffer wchar_t;
}.

(** Calls the buffer makes to its collaborators: the console's input event,
    the wait queue, and the log of [CATCH_LOG]. *)
Inductive call : Type :=
| SetEvent
| ResetEvent
| NotifyWaiters (fNotifyAll : bool)
| LOG_CAUGHT_EXCEPTION (e : exn).

(** The buffer with what surrounds it: the heap and the calls made so far,
    oldest first. *)
Record world : Type := {
  this : InputBuffer;
  new_outcomes : heap;
  calls : list call;
}.

(** ** Text in bytes: til/bytes.h, til/unicode.h and the code page *)

(** The bytes of a code unit in memory (little endian). *)
Definition wchar_bytes (w : wchar_t) : list char :=
  [Z.land w 255; Z.shiftr w 8]%Z.

(** Modelled from the spec: [til::bytes_transfer] (til/bytes.h) is not under
    src/. The design description has it copy from a view of elements into a
    buffer of bytes and advance both by what was copied; a view advances by
    whole elements, so only whole elements are copied:
    [min(source.size(), target.size() / sizeof(element))] of them.
    [bytes] gives an element's bytes, [elementSize] of them. *)
Definition bytes_transfer {A} (elementSize : nat) (bytes : A → list char)
    (target : span.t) (source : list A) : span.t * list A :=
  let sourceCount := min (length source) (span.size target / elementSize) in
  let targetCount := sourceCount * elementSize in
  (span.mk (span.stored target ++ concat (bytes <$> take sourceCount source))
           (span.size target - targetCount),
   drop sourceCount source).

(** Modelled from the spec: [til::bytes_advance] (til/bytes.h) is not under
    src/. It moves the start of [target] past [count] bytes that the caller
    has stored there ([written]), and raises [std::length_error] when the span
    is shorter than that. *)
Definition bytes_advance {S} (target : span.t) (written : list char) : M S span.t :=
  let count := length written in
  if span.size target <? count then throw length_error
  else mret (span.mk (span.stored target ++ written) (span.size target - count)).

Definition UNICODE_REPLACEMENT : wchar_t := 0xFFFD%Z.
Definition is_surrogate (wch : wchar_t) : bool := (Z.land wch 0xF800 =? 0xD800)%Z.
Definition is_leading_surrogate (wch : wchar_t) : bool := (Z.land wch 0xFC00 =? 0xD800)%Z.
Definition is_trailing_surrogate (wch : wchar_t) : bool := (Z.land wch 0xFC00 =? 0xDC00)%Z.

(** Modelled from the spec: [til::utf16_iterator] (til/unicode.h) is not under
    src/. The design description has the slow path convert one (possibly
    multi-code-unit) character at a time: the iterator yields the text one
    code point at a time, a surrogate pair as a view of two code units, any
    other code unit as a view of one, U+FFFD in place of a surrogate that has
    no partner. *)
Fixpoint utf16_iterator (source : list wchar_t) : list (list wchar_t) :=
  match source with
  | [] => []
  | wch :: rest =>
    if is_surrogate wch then
      match rest with
      | wch2 :: rest' =>
        if is_leading_surrogate wch && is_trailing_surrogate wch2
        then [wch; wch2] :: utf16_iterator rest'
        else [UNICODE_REPLACEMENT] :: utf16_iterator rest
      | [] => [[UNICODE_REPLACEMENT]]
      end
    else [wch] :: utf16_iterator rest
  end.

(** [gsl::narrow<ULONG>] of a [size_t]. *)
Definition gsl_narrow_ULONG {S} (n : nat) : M S nat :=
  if (Z.of_nat n <? 2 ^ 32)%Z then mret n else throw narrowing_error.

Definition ERROR_INSUFFICIENT_BUFFER : Z := 122.
Definition ERROR_INVALID_PARAMETER : Z := 87.

(** The [int] that an unsigned size becomes, at [gsl::narrow_cast<int>] and
    as the argument for a parameter of type [int]: the value modulo 2^32
    that lies between -2^31 and 2^31 - 1. The sizes from 2^31 to 2^32 - 1
    are negative there. *)
Definition to_int (n : nat) : Z := ((Z.of_nat n + 2 ^ 31) mod 2 ^ 32 - 2 ^ 31)%Z.

(** What a call of [WideCharToMultiByte] gives: the bytes written (their
    number is the value returned, above 0), or 0 and a last-error code; or
    the call reads memory behind the end of its source. *)
Inductive converted : Type :=
| Bytes (bytes : list char)
| LastError (error : Z)
| ReadsPastTheEnd.

(** The code units of [src] up to its first null, the null included: the
    text of a string that is read up to its terminator. *)
Fixpoint up_to_null (src : list wchar_t) : option (list wchar_t) :=
  match src with
  | [] => None
  | c :: src => if (c =? 0)%Z then Some [c] else cons c <$> up_to_null src
  end.

(** The text that [WideCharToMultiByte] reads at [src] for the size
    [cchWideChar]: that many code units, or the string up to its terminator
    for the size -1. *)
Definition text_read (src : list wchar_t) (cchWideChar : Z) : option (list wchar_t) :=
  if (cchWideChar =? -1)%Z then up_to_null src
  else if (cchWideChar <=? Z.of_nat (length src))%Z
       then Some (take (Z.to_nat cchWideChar) src)
       else None.

Section code_page.
(** The console's code page [CP], as [WideCharToMultiByte(CP, 0, ...)] sees
    it: the bytes of a wide string, or the error with which the conversion
    fails. *)
Variable encode : list wchar_t → list char + Z.

(** [WideCharToMultiByte(cp, 0, src, cchWideChar, dst, cbMultiByte, nullptr, nullptr)]
    for a buffer [dst] of [cbMultiByte] bytes, [cbMultiByte] other than 0.
    Both sizes are of type [int]: a size of 0 code units, a size below -1
    and a buffer of fewer than 0 bytes fail with [ERROR_INVALID_PARAMETER]. *)
Definition WideCharToMultiByte (src : list wchar_t) (cchWideChar cbMultiByte : Z)
  : converted :=
  if (cchWideChar =? 0)%Z || (cchWideChar <? -1)%Z || (cbMultiByte <? 0)%Z
  then LastError ERROR_INVALID_PARAMETER
  else
    match text_read src cchWideChar with
    | None => ReadsPastTheEnd
    | Some text =>
      match encode text with
      | inl bytes =>
        if length bytes =? 0 then LastError ERROR_INVALID_PARAMETER
        else if (Z.of_nat (length bytes) <=? cbMultiByte)%Z then Bytes bytes
        else LastError ERROR_INSUFFICIENT_BUFFER
      | inr error => LastError error
      end
    end.
End code_page.

(** ** InputBuffer *)

Section InputBuffer.
Context `{!Trivial Span, !Trivial INPUT_RECORD, !Trivial wchar_t}.

(** The console's code page (see [WideCharToMultiByte]). *)
Variable CP : list wchar_t → list char + Z.

(** *** Assignments to members *)

Definition set_spans (r : ring_buffer Span) (b : InputBuffer) : InputBuffer :=
  {| _readingMode := _readingMode b; _cachedTextA := _cachedTextA b;
     _cachedTextReaderA := _cachedTextReaderA b; _cachedTextW := _cachedTextW b;
     _cachedTextReaderW := _cachedTextReaderW b;
     _cachedInputEvents := _cachedInputEvents b;
     _spans := r; _records := _records b; _text := _text b |}.

Definition set_records (r : ring_buffer INPUT_RECORD) (b : InputBuffer) : InputBuffer :=
  {| _readingMode := _readingMode b; _cachedTextA := _cachedTextA b;
     _cachedTextReaderA := _cachedTextReaderA b; _cachedTextW := _cachedTextW b;
     _cachedTextReaderW := _cachedTextReaderW b;
     _cachedInputEvents := _cachedInputEvents b;
     _spans := _spans b; _records := r; _text := _text b |}.

Definition set_text (r : ring_buffer wchar_t) (b : InputBuffer) : InputBuffer :=
  {| _readingMode := _readingMode b; _cachedTextA := _cachedTextA b;
     _cachedTextReaderA := _cachedTextReaderA b; _cachedTextW := _cachedTextW b;
     _cachedTextReaderW := _cachedTextReaderW b;
     _cachedInputEvents := _cachedInputEvents b;
     _spans := _spans b; _records := _records b; _text := r |}.

Definition set_cachedA (text : list char) (reader : view.t) (b : InputBuffer) : InputBuffer :=
  {| _readingMode := _readingMode b; _cachedTextA := text;
     _cachedTextReaderA := reader; _cachedTextW := _cachedTextW b;
     _cachedTextReaderW := _cachedTextReaderW b;
     _cachedInputEvents := _cachedInputEvents b;
     _spans := _spans b; _records := _records b; _text := _text b |}.

Definition set_cachedW (text : list wchar_t) (reader : view.t) (b : InputBuffer) : InputBuffer :=
  {| _readingMode := _readingMode b; _cachedTextA := _cachedTextA b;
     _cachedTextReaderA := _cachedTextReaderA b; _cachedTextW := text;
     _cachedTextReaderW := reader;
     _cachedInputEvents := _cachedInputEvents b;
     _spans := _spans b; _records := _records b; _text := _text b |}.

Definition set_readingMode (mode : ReadingMode) (b : InputBuffer) : InputBuffer :=
  {| _readingMode := mode; _cachedTextA := _cachedTextA b;
     _cachedTextReaderA := _cachedTextReaderA b; _cachedTextW := _cachedTextW b;
     _cachedTextReaderW := _cachedTextReaderW b;
     _cachedInputEvents := _cachedInputEvents b;
     _spans := _spans b; _records := _records b; _text := _text b |}.

(** A member function that changes members only. *)
Definition on_this (f : InputBuffer → InputBuffer) : M world unit :=
  modify (λ w, {| this := f (this w); new_outcomes := new_outcomes w; calls := calls w |}).

(** A call to a collaborator. *)
Definition emit (c : call) : M world unit :=
  modify (λ w, {| this := this w; new_outcomes := new_outcomes w; calls := calls w ++ [c] |}).

(** A call of a member function of one of the rings that may allocate. An
    exception leaves the ring as it was. *)
Definition on_ring {T} (member : InputBuffer → ring_buffer T)
    (assign : ring_buffer T → InputBuffer → InputBuffer)
    (f : ring_buffer T → M heap (ring_buffer T)) : M world unit := λ w,
  match f (member (this w)) (new_outcomes w) with
  | Ok r h => Ok tt {| this := assign r (this w); new_outcomes := h; calls := calls w |}
  | Throw e h => Throw e {| this := this w; new_outcomes := h; calls := calls w |}
  | Undefined => Undefined
  | AssertFailed => AssertFailed
  end.

(** The buffer as constructed, in a world that has made no call yet. The
    header initializes [_readingMode] to its first value. *)
Definition InputBuffer_new : InputBuffer :=
  {| _readingMode := StringA; _cachedTextA := []; _cachedTextReaderA := view.null;
     _cachedTextW := []; _cachedTextReaderW := view.null; _cachedInputEvents := [];
     _spans := ring_buffer.init; _records := ring_buffer.init;
     _text := ring_buffer.init |}.

Definition world_new (h : heap) : world :=
  {| this := InputBuffer_new; new_outcomes := h; calls := [] |}.

(** *** Reading modes and the conversion caches *)

Definition _switchReadingModeSlowPath (mode : ReadingMode) : M world unit :=
  _ ← on_this (set_cachedA [] view.null);
  _ ← on_this (set_cachedW [] view.null);
  on_this (set_readingMode mode).

Definition _switchReadingMode (mode : ReadingMode) : M world unit :=
  w ← get;
  if decide (_readingMode (this w) ≠ mode) then _switchReadingModeSlowPath mode
  else mret tt.

(** [ConsumeCached(bool isUnicode, std::span<char>& target)]; the result is
    [target] after the call. *)
Definition ConsumeCached (isUnicode : bool) (target : span.t) : M world span.t :=
  _ ← _switchReadingMode (if isUnicode then StringW else StringA);
  w ← get;
  let b := this w in
  if isUnicode then
    if negb (view.empty (_cachedTextReaderW b)) then
      let source := view.elements (_cachedTextW b) (_cachedTextReaderW b) in
      let '(target, rest) := bytes_transfer 2 wchar_bytes target source in
      let reader := view.substr (length source - length rest) (_cachedTextReaderW b) in
      _ ← on_this (set_cachedW (_cachedTextW b) reader);
      _ ← (if view.empty reader then on_this (set_cachedW [] reader) else mret tt);
      mret target
    else mret target
  else
    if negb (view.empty (_cachedTextReaderA b)) then
      let source := view.elements (_cachedTextA b) (_cachedTextReaderA b) in
      let '(target, rest) := bytes_transfer 1 (λ c, [c]) target source in
      let reader := view.substr (length source - length rest) (_cachedTextReaderA b) in
      _ ← on_this (set_cachedA (_cachedTextA b) reader);
      _ ← (if view.empty reader then on_this (set_cachedA [] reader) else mret tt);
      mret target
    else mret target.

(** The slow path's loop over [til::utf16_iterator{ source }]; [chars] are
    the characters the iterator has yet to yield. The result is [read] and
    [target] when the loop is left. [_cachedTextA = slice] stores 8 bytes at
    most, which the string holds in place, with no memory of the heap. *)
Fixpoint Consume_slow_path (chars : list (list wchar_t)) (read : nat) (target : span.t)
  : M world (nat * span.t) :=
  match chars with
  | [] => mret (read, target)
  | s :: chars =>
    match WideCharToMultiByte CP s (to_int (length s)) 8 with
    | ReadsPastTheEnd => undefined
    | LastError _ => throw hresult_error
    | Bytes buffer =>
      let slice := buffer in
      let '(target, slice) := bytes_transfer 1 (λ c, [c]) target slice in
      let read := read + 1 in
      if span.empty target then
        _ ← (if negb (length slice =? 0)
             then on_this (set_cachedA slice (view.of_string slice))
             else mret tt);
        mret (read, target)
      else Consume_slow_path chars read target
    end
  end.

(** [Consume(bool isUnicode, std::wstring_view& source, std::span<char>& target)];
    the result is [source] and [target] after the call. *)
Definition Consume (isUnicode : bool) (source : list wchar_t) (target : span.t)
  : M world (list wchar_t * span.t) :=
  target ← ConsumeCached isUnicode target;
  if (length source =? 0) || span.empty target then mret (source, target)
  else if isUnicode then
    w ← get;
    _ ← assert (view.empty (_cachedTextReaderW (this w)));
    let '(target, source) := bytes_transfer 2 wchar_bytes target source in
    mret (source, target)
  else
    w ← get;
    _ ← assert (view.empty (_cachedTextReaderA (this w)));
    wideLength ← gsl_narrow_ULONG (length source);
    narrowLength ← gsl_narrow_ULONG (span.size target);
    match WideCharToMultiByte CP source (to_int wideLength) (to_int narrowLength) with
    | ReadsPastTheEnd => undefined
    | Bytes bytes =>
      target ← bytes_advance target bytes;
      mret ([], target)
    | LastError error =>
      if decide (error ≠ ERROR_INSUFFICIENT_BUFFER) then throw hresult_error
      else
        '(read, target) ← Consume_slow_path (utf16_iterator source) 0 target;
        mret (drop read source, target)
    end.

(** Successive narrow [Consume] calls on one source, each with a fresh
    target of the size given: the bytes delivered, call after call, and the
    source left. *)
Fixpoint Consume_calls (sizes : list nat) (source : list wchar_t)
  : M world (list char * list wchar_t) :=
  match sizes with
  | [] => mret ([], source)
  | size :: sizes =>
    '(source, target) ← Consume false source (span.of_size size);
    '(out, source) ← Consume_calls sizes source;
    mret (span.stored target ++ out, source)
  end.

(** [std::wstring::append]: the string with [source] at its end. An append
    that outgrows the string's capacity asks [::operator new] for memory and
    raises [std::bad_alloc] when there is none, with the string as it was.
    The capacity is no member of the model: every append of at least one
    code unit takes the next outcome of the heap, where [true] stands for
    memory returned or none needed. *)
Definition append (text source : list wchar_t) : M heap (list wchar_t) :=
  if length source =? 0 then mret text
  else _ ← operator_new; mret (text ++ source).

(** [Cache(std::wstring_view source)] *)
Definition Cache (source : list wchar_t) : M world unit := λ w,
  let b := this w in
  let off := if length (_cachedTextW b) =? 0 then 0
             else view.data (_cachedTextReaderW b) in
  match append (_cachedTextW b) source (new_outcomes w) with
  | Ok text h =>
    Ok tt {| this := set_cachedW text (view.substr off (view.of_string text)) b;
             new_outcomes := h; calls := calls w |}
  | Throw e h => Throw e {| this := b; new_outcomes := h; calls := calls w |}
  | Undefined => Undefined
  | AssertFailed => AssertFailed
  end.

(** [ConsumeCached(bool isUnicode, size_t count, InputEventQueue& target)] *)
Definition ConsumeCached_events (isUnicode : bool) (count : nat)
    (target : list INPUT_RECORD) : M world (nat * list INPUT_RECORD) :=
  mret (0, target).

(** The loop of [PeekCached] over [_cachedInputEvents]. *)
Fixpoint PeekCached_loop (events : list INPUT_RECORD) (count i : nat)
    (target : list INPUT_RECORD) : nat * list INPUT_RECORD :=
  match events with
  | [] => (i, target)
  | e :: events =>
    if count <=? i then (i, target)
    else PeekCached_loop events count (i + 1) (target ++ [e])
  end.

(** [PeekCached(bool isUnicode, size_t count, InputEventQueue& target)] *)
Definition PeekCached (isUnicode : bool) (count : nat) (target : list INPUT_RECORD)
  : M world (nat * list INPUT_RECORD) :=
  _ ← _switchReadingMode (if isUnicode then InputEventsW else InputEventsA);
  w ← get;
  mret (PeekCached_loop (_cachedInputEvents (this w)) count 0 target).

(** [Cache(bool isUnicode, InputEventQueue& source, size_t expectedSourceSize)];
    the result is [source] after the call. *)
Definition Cache_events (isUnicode : bool) (source : list INPUT_RECORD)
    (expectedSourceSize : nat) : M world (list INPUT_RECORD) :=
  _ ← _switchReadingMode (if isUnicode then InputEventsW else InputEventsA);
  if expectedSourceSize <? length source then mret (take expectedSourceSize source)
  else mret source.

(** *** Write *)

Definition WakeUpReadersWaitingForData : M world unit :=
  emit (NotifyWaiters false).

(** [lastSpan->length += length] for the span at [p]. *)
Definition add_length (p : nat) (length : nat) (spans : ring_buffer Span)
  : ring_buffer Span :=
  let lastSpan := ring_buffer.deref spans p in
  ring_buffer.store p (Span.mk (Span.type lastSpan) (Span.length lastSpan + length)) spans.

Definition _writeSpan (type : SpanType) (length : nat) : M world unit :=
  w ← get;
  let lastSpan := ring_buffer.last_written (_spans (this w)) in
  let initiallyEmpty := negb (bool_decide (is_Some lastSpan)) in
  lastSpan ←
    (if match lastSpan with
        | None => true
        | Some p => negb (bool_decide (Span.type (ring_buffer.deref (_spans (this w)) p) = type))
        end
     then
       _ ← on_ring _spans set_spans (ring_buffer.write (Span.mk type 0));
       w ← get;
       mret (ring_buffer.last_written (_spans (this w)))
     else mret lastSpan);
  lastSpan ← defined lastSpan;
  _ ← on_this (λ b, set_spans (add_length lastSpan length (_spans b)) b);
  _ ← (if initiallyEmpty then emit SetEvent else mret tt);
  WakeUpReadersWaitingForData.

(** [Write(const std::span<const INPUT_RECORD>& records)] *)
Definition Write (records : list INPUT_RECORD) : M world unit :=
  if negb (length records =? 0) then
    _ ← on_ring _records set_records (ring_buffer.write_n records);
    _writeSpan Record_ (length records)
  else mret tt.

(** [Write(const INPUT_RECORD& record)] *)
Definition Write_record (record : INPUT_RECORD) : M world unit :=
  Write [record].

(** [CATCH_LOG()] after a function's [try] block: an exception is logged
    and the function returns. *)
Definition CATCH_LOG (body : M world unit) : M world unit := λ w,
  match body w with
  | Throw e w' => emit (LOG_CAUGHT_EXCEPTION e) w'
  | o => o
  end.

(** The [try] block of [Write(const std::wstring_view& text)]. *)
Definition Write_text_try (text : list wchar_t) : M world unit :=
  if negb (length text =? 0) then
    _ ← on_ring _text set_text (ring_buffer.write_n text);
    _writeSpan Text (length text)
  else mret tt.

(** [Write(const std::wstring_view& text) try { ... } CATCH_LOG()] *)
Definition Write_text (text : list wchar_t) : M world unit :=
  CATCH_LOG (Write_text_try text).

(** *** Flush and introspection *)

Definition GetNumberOfReadyEvents (b : InputBuffer) : nat := 0.

Definition Flush : M world unit :=
  _ ← on_this (λ b, set_spans (ring_buffer.clear (_spans b)) b);
  _ ← on_this (λ b, set_records (ring_buffer.clear (_records b)) b);
  _ ← on_this (λ b, set_text (ring_buffer.clear (_text b)) b);
  emit ResetEvent.

(** *** Read *)

(** [span->length -= n] for the span at [span]. *)
Definition sub_length (span : nat) (n : nat) (spans : ring_buffer Span)
  : ring_buffer Span :=
  let s := ring_buffer.deref spans span in
  ring_buffer.store span (Span.mk (Span.type s) (Span.length s - n)) spans.

Definition span_length (b : InputBuffer) (span : nat) : nat :=
  Span.length (ring_buffer.deref (_spans b) span).

(** [if (!span->length) _spans.advance(1)] *)
Definition advance_if_done (span : nat) (b : InputBuffer) : InputBuffer :=
  if span_length b span =? 0
  then set_spans (ring_buffer.advance 1 (_spans b)) b
  else b.

(** The character view's loop over a Record span. Every turn takes 1 from
    [span->length], so [turns], the span's length when the loop is entered,
    bounds them. [out] are the code units stored so far. *)
Fixpoint Read_text_Record (turns : nat) (span : nat) (remaining : nat)
    (out : list wchar_t) (b : InputBuffer) : nat * list wchar_t * InputBuffer :=
  match turns with
  | 0 => (remaining, out, b)
  | S turns =>
    if (0 <? remaining) && (0 <? span_length b span) then
      match ring_buffer.peek (_records b) with
      | None => (remaining, out, b)
      | Some p =>
        let r := ring_buffer.deref (_records b) p in
        let '(out, remaining) :=
          if (EventType r =? KEY_EVENT)%Z && bKeyDown (KeyEvent r)
             && negb (UnicodeChar (KeyEvent r) =? 0)%Z
          then (out ++ [UnicodeChar (KeyEvent r)], remaining - 1)
          else (out, remaining) in
        let b := set_records (ring_buffer.advance 1 (_records b)) b in
        let b := set_spans (sub_length span 1 (_spans b)) b in
        Read_text_Record turns span remaining out b
      end
    else (remaining, out, b)
  end.

(** The loop [while (remaining > 0)] of the character view. [fuel] bounds
    its turns: [None] when they do not suffice. *)
Fixpoint Read_text_loop (fuel : nat) (remaining : nat) (out : list wchar_t)
    (b : InputBuffer) : option (nat * list wchar_t * InputBuffer) :=
  match fuel with
  | 0 => None
  | S fuel =>
    if remaining =? 0 then Some (remaining, out, b)
    else
      match ring_buffer.peek (_spans b) with
      | None => Some (remaining, out, b)
      | Some span =>
        match Span.type (ring_buffer.deref (_spans b) span) with
        | Record_ =>
          let '(remaining, out, b) :=
            Read_text_Record (span_length b span) span remaining out b in
          Read_text_loop fuel remaining out (advance_if_done span b)
        | Text =>
          let can := min remaining (span_length b span) in
          let '(data, text) := ring_buffer.read_n can (_text b) in
          let out := out ++ data in
          let b := set_text text b in
          let remaining := remaining - can in
          let b := set_spans (sub_length span can (_spans b)) b in
          Read_text_loop fuel remaining out (advance_if_done span b)
        end
      end
  end.

(** [Read(bool wide, bool peek, void* data, const size_t capacity)]: the
    count returned, the code units stored into [data] from its start on, and
    the buffer after. *)
Definition Read_text (fuel : nat) (wide peek : bool) (capacity : nat) (b : InputBuffer)
  : option (nat * list wchar_t * InputBuffer) :=
  if negb wide then Some (0, [], b)
  else
    '(remaining, out, b) ← Read_text_loop fuel capacity [] b;
    Some (capacity - remaining, out, b).

(** The record view's loop over a Text span. *)
Fixpoint Read_records_Text (turns : nat) (span : nat) (remaining : nat)
    (data : list INPUT_RECORD) (b : InputBuffer) : nat * list INPUT_RECORD * InputBuffer :=
  match turns with
  | 0 => (remaining, data, b)
  | S turns =>
    if (0 <? remaining) && (0 <? span_length b span) then
      match ring_buffer.peek (_text b) with
      | None => (remaining, data, b)
      | Some ch =>
        let data := data ++ [SynthesizeKeyEvent true 1 0 0 (ring_buffer.deref (_text b) ch) 0] in
        let remaining := remaining - 1 in
        let b := set_records (ring_buffer.advance 1 (_records b)) b in
        let b := set_spans (sub_length span 1 (_spans b)) b in
        Read_records_Text turns span remaining data b
      end
    else (remaining, data, b)
  end.

(** The loop [while (remaining > 0)] of the record view. *)
Fixpoint Read_records_loop (fuel : nat) (remaining : nat) (data : list INPUT_RECORD)
    (b : InputBuffer) : option (nat * list INPUT_RECORD * InputBuffer) :=
  match fuel with
  | 0 => None
  | S fuel =>
    if remaining =? 0 then Some (remaining, data, b)
    else
      match ring_buffer.peek (_spans b) with
      | None => Some (remaining, data, b)
      | Some span =>
        match Span.type (ring_buffer.deref (_spans b) span) with
        | Record_ =>
          let can := min remaining (span_length b span) in
          let '(read, records) := ring_buffer.read_n can (_records b) in
          let data := data ++ read in
          let b := set_records records b in
          let remaining := remaining - can in
          let b := set_spans (sub_length span can (_spans b)) b in
          Read_records_loop fuel remaining data (advance_if_done span b)
        | Text =>
          let '(remaining, data, b) :=
            Read_records_Text (span_length b span) span remaining data b in
          Read_records_loop fuel remaining data (advance_if_done span b)
        end
      end
  end.

(** [Read(bool wide, bool peek, INPUT_RECORD* data, const size_t capacity)]:
    the count returned, the records stored into [data] from its start on, and
    the buffer after. *)
Definition Read_records (fuel : nat) (wide peek : bool) (capacity : nat) (b : InputBuffer)
  : option (nat * list INPUT_RECORD * InputBuffer) :=
  if negb wide then Some (0, [], b)
  else
    '(remaining, data, b) ← Read_records_loop fuel capacity [] b;
    Some (capacity - remaining, data, b).

End InputBuffer.

(** ** Code page 65001 *)

(** The UTF-8 bytes of a code point. *)
Definition utf8_code_point (c : Z) : list char :=
  (if c <? 0x80 then [c]
   else if c <? 0x800 then
     [Z.lor 0xC0 (Z.shiftr c 6); Z.lor 0x80 (Z.land c 0x3F)]
   else if c <? 0x10000 then
     [Z.lor 0xE0 (Z.shiftr c 12); Z.lor 0x80 (Z.land (Z.shiftr c 6) 0x3F);
      Z.lor 0x80 (Z.land c 0x3F)]
   else
     [Z.lor 0xF0 (Z.shiftr c 18); Z.lor 0x80 (Z.land (Z.shiftr c 12) 0x3F);
      Z.lor 0x80 (Z.land (Z.shiftr c 6) 0x3F); Z.lor 0x80 (Z.land c 0x3F)])%Z.

(** UTF-16 text in UTF-8, U+FFFD for a surrogate that has no partner. *)
Fixpoint utf8 (source : list wchar_t) : list char :=
  match source with
  | [] => []
  | wch :: rest =>
    if is_surrogate wch then
      match rest with
      | wch2 :: rest' =>
        if is_leading_surrogate wch && is_trailing_surrogate wch2
        then utf8_code_point (0x10000 + (wch - 0xD800) * 0x400 + (wch2 - 0xDC00))%Z
             ++ utf8 rest'
        else utf8_code_point UNICODE_REPLACEMENT ++ utf8 rest
      | [] => utf8_code_point UNICODE_REPLACEMENT
      end
    else utf8_code_point wch ++ utf8 rest
  end.

(** [WideCharToMultiByte] for [CP_UTF8]: it converts every string. *)
Definition CP_UTF8 : list wchar_t → list char + Z := λ source, inl (utf8 source).

(** ** What the design description says of the buffer's states *)

Section properties.
Context `{!Trivial Span, !Trivial INPUT_RECORD, !Trivial wchar_t}.

(** The spans not yet read, oldest first. *)
Definition spans_of (b : InputBuffer) : list Span :=
  ring_buffer.contents (_spans b).

(** The sum of the lengths of the spans of one kind. *)
Definition span_total (type : SpanType) (spans : list Span) : nat :=
  sum_list (Span.length <$> filter (λ s, Span.type s = type) spans).

(** The span ring is a lossless index into the two content rings. *)
Definition lossless_index (b : InputBuffer) : Prop :=
  span_total Record_ (spans_of b) = ring_buffer.size (_records b) ∧
  span_total Text (spans_of b) = ring_buffer.size (_text b).

(** The span ring satisfies its class invariant and is a lossless index. *)
Definition indexed (b : InputBuffer) : Prop :=
  ring_buffer.wf (_spans b) ∧ lossless_index b.

(** No two neighbours in a list of kinds are the same kind. *)
Fixpoint adjacent_distinct (kinds : list SpanType) : Prop :=
  match kinds with
  | a :: (b :: _) as rest => a ≠ b ∧ adjacent_distinct rest
  | _ => True
  end.

(** The kinds of the spans not yet read. *)
Definition kinds_of (b : InputBuffer) : list SpanType := Span.type <$> spans_of b.

(** What a write makes of the spans: a run of the kind of the span written
    last is added to that span, a run of the other kind is a new span. *)
Definition merge_span (type : SpanType) (n : nat) (spans : list Span) : list Span :=
  match last spans with
  | Some s =>
    if decide (Span.type s = type)
    then removelast spans ++ [Span.mk type (Span.length s + n)]
    else spans ++ [Span.mk type n]
  | None => [Span.mk type n]
  end.

(** The invariant of the span ring. *)
Definition spans_inv (b : InputBuffer) : Prop :=
  ring_buffer.wf (_spans b) ∧ adjacent_distinct (kinds_of b).

(** What a write that succeeds tells the collaborators, given the world
    before it: the readiness event when no span was waiting, and the wake-up
    of the readers. *)
Definition notifications (w : world) : list call :=
  (if ring_buffer.empty (_spans (this w)) then [SetEvent] else [])
  ++ [NotifyWaiters false].

(** Both conversion caches are empty. *)
Definition caches_empty (b : InputBuffer) : Prop :=
  _cachedTextA b = [] ∧ view.empty (_cachedTextReaderA b) = true ∧
  _cachedTextW b = [] ∧ view.empty (_cachedTextReaderW b) = true.

(** The world with the content of both conversion caches thrown away. *)
Definition discard_caches (w : world) : world :=
  {| this := set_cachedW [] view.null (set_cachedA [] view.null (this w));
     new_outcomes := new_outcomes w; calls := calls w |}.

(** The world after a switch to [mode] from another reading mode. *)
Definition switched (mode : ReadingMode) (w : world) : world :=
  {| this := set_readingMode mode
               (set_cachedW [] view.null (set_cachedA [] view.null (this w)));
     new_outcomes := new_outcomes w; calls := calls w |}.

Definition with_this (b : InputBuffer) (w : world) : world :=
  {| this := b; new_outcomes := new_outcomes w; calls := calls w |}.

(** The view [v] lies inside the string [owner]. *)
Definition view_inside {A} (owner : list A) (v : view.t) : Prop :=
  view.size v ≤ length owner - view.data v.

(** The bytes of narrow text that the cache still owes its reader. *)
Definition pendingA (w : world) : list char :=
  view.elements (_cachedTextA (this w)) (_cachedTextReaderA (this w)).

(** The reader views of the caches lie inside the cached strings. *)
Definition cacheA_inside (w : world) : Prop :=
  view_inside (_cachedTextA (this w)) (_cachedTextReaderA (this w)).

Definition cacheW_inside (w : world) : Prop :=
  view_inside (_cachedTextW (this w)) (_cachedTextReaderW (this w)).

(** The conversion of text that holds no surrogate, by a code page that
    gives the code unit [c] the bytes [enc c]. *)
Definition conv (enc : wchar_t → list char) (source : list wchar_t) : list char :=
  concat (enc <$> source).

Definition no_surrogates (source : list wchar_t) : Prop :=
  Forall (λ c, is_surrogate c = false) source.

(** The world that the calls [m] lead to from a new buffer when every
    allocation succeeds. *)
Definition world_after (m : M world unit) : world :=
  match m (world_new []) with
  | Ok _ w | Throw _ w => w
  | _ => world_new []
  end.

(** The worlds that calls of [Write], [Read] and [Flush] lead to from a new
    buffer, whatever the allocations to come do. A call that leaves by an
    exception leaves a world too. *)
Inductive reachable : world → Prop :=
| reachable_new h : reachable (world_new h)
| reachable_Write records w w' :
    reachable w → Write records w = Ok tt w' → reachable w'
| reachable_Write_throw records e w w' :
    reachable w → Write records w = Throw e w' → reachable w'
| reachable_Write_text text w w' :
    reachable w → Write_text text w = Ok tt w' → reachable w'
| reachable_Read_text fuel wide peek capacity w n out b :
    reachable w → Read_text fuel wide peek capacity (this w) = Some (n, out, b) →
    reachable (with_this b w)
| reachable_Read_records fuel wide peek capacity w n data b :
    reachable w → Read_records fuel wide peek capacity (this w) = Some (n, data, b) →
    reachable (with_this b w)
| reachable_Flush w w' :
    reachable w → Flush w = Ok tt w' → reachable w'.

End properties.

(** ** More of what the buffer holds and of what its calls keep *)

(** *** til::ring_buffer *)

(** A write of [count] elements at once finds room, or finds the elements
    held reaching the end of the allocation: the two cases in which the
    growth of the buffer copies the elements held and nothing else. *)
Definition bulk_write_safe {T} (count : nat) (r : ring_buffer T) : Prop :=
  ring_buffer._size r + count ≤ ring_buffer._capacity r ∨
  ring_buffer._capacity r ≤ ring_buffer._reader r + ring_buffer._size r.

(** *** The partial byte sequence of a write *)

(** The members [_writePartialByteSequenceAvailable] and
    [_writePartialByteSequence], which the three functions below use and no
    other function of the file does. *)
Record WritePartial : Type := {
  _writePartialByteSequenceAvailable : bool;
  _writePartialByteSequence : INPUT_RECORD;
}.

Definition IsWritePartialByteSequenceAvailable (p : WritePartial) : bool :=
  _writePartialByteSequenceAvailable p.

(** [FetchWritePartialByteSequence()]: the record returned, and the members
    after. *)
Definition FetchWritePartialByteSequence (p : WritePartial) : INPUT_RECORD * WritePartial :=
  (_writePartialByteSequence p,
   {| _writePartialByteSequenceAvailable := false;
      _writePartialByteSequence := _writePartialByteSequence p |}).

Definition StoreWritePartialByteSequence (event : INPUT_RECORD) (p : WritePartial)
  : WritePartial :=
  {| _writePartialByteSequenceAvailable := true;
     _writePartialByteSequence := event |}.

(** *** What the buffer owes its readers *)

(** An element of input: a record of the record ring or a code unit of the
    text ring. *)
Inductive item : Type :=
| Record_item (r : INPUT_RECORD)
| Text_item (c : wchar_t).

(** The input that [spans] index in [records] and [text], oldest first:
    span after span, each takes its length in elements from the front of the
    ring of its kind. *)
Fixpoint items (spans : list Span) (records : list INPUT_RECORD) (text : list wchar_t)
  : list item :=
  match spans with
  | [] => []
  | s :: spans =>
    match Span.type s with
    | Record_ =>
      (Record_item <$> take (Span.length s) records)
      ++ items spans (drop (Span.length s) records) text
    | Text =>
      (Text_item <$> take (Span.length s) text)
      ++ items spans records (drop (Span.length s) text)
    end
  end.

(** The code units that the character view makes of an item: the character
    of a record that is a key going down with a character, nothing of any
    other record, the code unit of text. *)
Definition item_chars (i : item) : list wchar_t :=
  match i with
  | Record_item r =>
    if (EventType r =? KEY_EVENT)%Z && bKeyDown (KeyEvent r)
       && negb (UnicodeChar (KeyEvent r) =? 0)%Z
    then [UnicodeChar (KeyEvent r)] else []
  | Text_item c => [c]
  end.

Definition chars_of (l : list item) : list wchar_t := concat (item_chars <$> l).

(** The items that a reader of [capacity] code units takes from the front of
    [l]: item after item while there is room for a code unit. *)
Fixpoint take_chars (capacity : nat) (l : list item) : list item :=
  match l with
  | [] => []
  | i :: l =>
    if capacity =? 0 then []
    else i :: take_chars (capacity - length (item_chars i)) l
  end.

(** The view [v] shows the string [owner] from some element on to its end. *)
Definition view_suffix {A} (owner : list A) (v : view.t) : Prop :=
  (owner = [] ∧ view.size v = 0) ∨ view.data v + view.size v = length owner.

Section more_properties.
Context `{!Trivial Span, !Trivial INPUT_RECORD, !Trivial wchar_t}.

(** The input in the buffer, oldest first. *)
Definition pending (b : InputBuffer) : list item :=
  items (spans_of b) (ring_buffer.contents (_records b)) (ring_buffer.contents (_text b)).

(** The three rings satisfy their class invariant and the span ring is a
    lossless index. *)
Definition consistent (b : InputBuffer) : Prop :=
  ring_buffer.wf (_spans b) ∧ ring_buffer.wf (_records b) ∧ ring_buffer.wf (_text b) ∧
  lossless_index b.

(** [Write(const INPUT_RECORD& record)] for the records of [records], first
    record first. *)
Fixpoint Write_each (records : list INPUT_RECORD) : M world unit :=
  match records with
  | [] => mret tt
  | record :: records => _ ← Write_record record; Write_each records
  end.

(** The code units of wide text that the cache still owes its reader. *)
Definition pendingW (w : world) : list wchar_t :=
  view.elements (_cachedTextW (this w)) (_cachedTextReaderW (this w)).

(** The reader views of both caches end where the cached strings end. *)
Definition caches_suffix (b : InputBuffer) : Prop :=
  view_suffix (_cachedTextA b) (_cachedTextReaderA b) ∧
  view_suffix (_cachedTextW b) (_cachedTextReaderW b).

(** The reading mode and the caches of [b'] are those of [b]. *)
Definition same_caches (b b' : InputBuffer) : Prop :=
  _readingMode b' = _readingMode b ∧
  _cachedTextA b' = _cachedTextA b ∧ _cachedTextReaderA b' = _cachedTextReaderA b ∧
  _cachedTextW b' = _cachedTextW b ∧ _cachedTextReaderW b' = _cachedTextReaderW b ∧
  _cachedInputEvents b' = _cachedInputEvents b.

(** The rings of [b'] are those of [b]. *)
Definition same_rings (b b' : InputBuffer) : Prop :=
  _spans b' = _spans b ∧ _records b' = _records b ∧ _text b' = _text b.

(** The member functions that work on the rings. *)
Inductive ring_entry : ∀ A : Type, M world A → Prop :=
| entry_Write_record record : ring_entry unit (Write_record record)
| entry_Write records : ring_entry unit (Write records)
| entry_Write_text text : ring_entry unit (Write_text text)
| entry_Flush : ring_entry unit Flush
| entry_WakeUpReadersWaitingForData : ring_entry unit WakeUpReadersWaitingForData.

(** The member functions that work on the reading mode and the caches and
    ask the heap for nothing, for the console's code page [CP]. [Cache] of
    text, which appends to a string, is not among them. *)
Inductive cache_entry (CP : list wchar_t → list char + Z) : ∀ A : Type, M world A → Prop :=
| entry_Consume isUnicode source target :
    cache_entry CP (list wchar_t * span.t) (Consume CP isUnicode source target)
| entry_ConsumeCached isUnicode target :
    cache_entry CP span.t (ConsumeCached isUnicode target)
| entry_ConsumeCached_events isUnicode count target :
    cache_entry CP (nat * list INPUT_RECORD) (ConsumeCached_events isUnicode count target)
| entry_PeekCached isUnicode count target :
    cache_entry CP (nat * list INPUT_RECORD) (PeekCached isUnicode count target)
| entry_Cache_events isUnicode source expectedSourceSize :
    cache_entry CP (list INPUT_RECORD) (Cache_events isUnicode source expectedSourceSize).

(** The worlds that calls of the member functions lead to from a new
    buffer, in any order, whatever the allocations to come do and whatever
    the code page is at each call. A call that leaves by an exception leaves
    a world too. *)
Inductive reachable_by_calls : world → Prop :=
| by_calls_new h : reachable_by_calls (world_new h)
| by_calls_ring A (m : M world A) a w w' :
    reachable_by_calls w → ring_entry A m → m w = Ok a w' → reachable_by_calls w'
| by_calls_ring_throw A (m : M world A) e w w' :
    reachable_by_calls w → ring_entry A m → m w = Throw e w' → reachable_by_calls w'
| by_calls_cache CP A (m : M world A) a w w' :
    reachable_by_calls w → cache_entry CP A m → m w = Ok a w' → reachable_by_calls w'
| by_calls_cache_throw CP A (m : M world A) e w w' :
    reachable_by_calls w → cache_entry CP A m → m w = Throw e w' → reachable_by_calls w'
| by_calls_Cache source w w' :
    reachable_by_calls w → Cache source w = Ok tt w' → reachable_by_calls w'
| by_calls_Cache_throw source e w w' :
    reachable_by_calls w → Cache source w = Throw e w' → reachable_by_calls w'
| by_calls_Read_text fuel wide peek capacity w n out b :
    reachable_by_calls w → Read_text fuel wide peek capacity (this w) = Some (n, out, b) →
    reachable_by_calls (with_this b w)
| by_calls_Read_records fuel wide peek capacity w n data b :
    reachable_by_calls w → Read_records fuel wide peek capacity (this w) = Some (n, data, b) →
    reachable_by_calls (with_this b w).

(** *** What a call keeps *)

(** Every normal or exceptional return of [m] leads from a world to one that
    [R] relates to it. *)
Definition preserves {A} (R : world → world → Prop) (m : M world A) : Prop :=
  ∀ w, match m w with
       | Ok _ w' | Throw _ w' => R w w'
       | Undefined | AssertFailed => True
       end.

(** What the functions of the reading mode and the caches leave alone: the
    rings, the cached events, the collaborators and the heap; and they keep
    the reader views at the ends of their strings. *)
Definition cache_frame (w w' : world) : Prop :=
  same_rings (this w) (this w') ∧
  _cachedInputEvents (this w') = _cachedInputEvents (this w) ∧
  calls w' = calls w ∧ new_outcomes w' = new_outcomes w ∧
  (caches_suffix (this w) → caches_suffix (this w')).

(** What [Cache] of text leaves alone: as [cache_frame], but for the heap,
    of which it takes one outcome at most. *)
Definition append_frame (w w' : world) : Prop :=
  same_rings (this w) (this w') ∧
  _cachedInputEvents (this w') = _cachedInputEvents (this w) ∧
  calls w' = calls w ∧
  (new_outcomes w' = new_outcomes w ∨ new_outcomes w' = tail (new_outcomes w)) ∧
  (caches_suffix (this w) → caches_suffix (this w')).

(** What the functions of the rings leave alone: the reading mode and the
    caches. *)
Definition ring_frame (w w' : world) : Prop :=
  same_caches (this w) (this w').

End more_properties.

(** * Properties *)

(** ** til::ring_buffer: the operations on a buffer that satisfies [wf] *)

Module ring_buffer_facts.
Import ring_buffer.

(** Case analysis on every comparison in sight, for [lia]. *)
Ltac cases :=
unfold wrap in *;
repeat match goal with
| |- context [?a <? ?b] => destruct (Nat.ltb_spec a b)
| |- context [?a =? ?b] => destruct (Nat.eqb_spec a b)
| |- context [?a <=? ?b] => destruct (Nat.leb_spec a b)
| H : context [?a <? ?b] |- _ => destruct (Nat.ltb_spec a b)
| H : context [?a =? ?b] |- _ => destruct (Nat.eqb_spec a b)
| H : context [?a <=? ?b] |- _ => destruct (Nat.leb_spec a b)
end.

Section facts.
Context {T : Type} `{!Trivial T}.
Implicit Types (r : ring_buffer T) (m dm sm : list T).

Lemma _copy_Some dm d sm s n m' e :
  _copy dm d sm s n = Some (m', e) →
  e = d + n ∧ s + n ≤ length sm ∧ d + n ≤ length dm ∧ length m' = length dm ∧
  ∀ i, m' !! i = if decide (d ≤ i < d + n) then sm !! (s + (i - d)) else dm !! i.
Proof.
  unfold _copy. intros H.
  destruct (_ <=? _) eqn:E1; [|done]. destruct (d + n <=? _) eqn:E2; [|done].
  apply Nat.leb_le in E1, E2. simpl in H. injection H as <- <-.
  split_and!; try done.
  - rewrite !length_app, length_take, length_take, !length_drop. lia.
  - intros i. case_decide as Hi.
    + rewrite lookup_app_r by (rewrite length_take; lia).
      rewrite length_take, Nat.min_l by lia.
      rewrite lookup_app_l by (rewrite length_take, length_drop; lia).
      rewrite lookup_take_lt by lia. by rewrite lookup_drop.
    + destruct (decide (i < d)).
      * rewrite lookup_app_l by (rewrite length_take; lia).
        by rewrite lookup_take_lt.
      * rewrite lookup_app_r by (rewrite length_take; lia).
        rewrite length_take, Nat.min_l by lia.
        rewrite lookup_app_r by (rewrite length_take, length_drop; lia).
        rewrite length_take, length_drop, Nat.min_l by lia.
        rewrite lookup_drop. f_equal. lia.
Qed.

Lemma _copy_is_Some dm d sm s n :
  s + n ≤ length sm → d + n ≤ length dm → is_Some (_copy dm d sm s n).
Proof.
  intros H1 H2. unfold _copy.
  apply Nat.leb_le in H1, H2. rewrite H1, H2. simpl. eauto.
Qed.

(** [_copy] of ranges that lie inside their allocations. *)
Ltac copy_Some C :=
  match goal with
  | |- context [_copy ?dm ?d ?sm ?s ?n] =>
    let m := fresh "m" in let e := fresh "e" in
    destruct (_copy dm d sm s n) as [[m e]|] eqn:C;
    [apply _copy_Some in C as (-> & _ & _ & ? & ?); simpl
    |exfalso; eapply is_Some_None; rewrite <-C; apply _copy_is_Some; simpl; cases; lia]
  end.

Lemma lookup_app_lt (l1 l2 : list T) i :
  (l1 ++ l2) !! i = if decide (i < length l1) then l1 !! i else l2 !! (i - length l1).
Proof.
  case_decide; [by apply lookup_app_l|apply lookup_app_r; lia].
Qed.

Lemma length_contents r : wf r → length (contents r) = _size r.
Proof.
  intros (Hm & _ & Hs & Hr & _). unfold contents.
  rewrite length_take, length_app, length_drop, length_take. lia.
Qed.

Lemma lookup_contents r i :
  wf r →
  contents r !! i =
    if decide (i < _size r) then mem r !! wrap (_capacity r) (_reader r + i) else None.
Proof.
  intros (Hm & _ & Hs & Hr & _). unfold contents, wrap.
  case_decide as Hi; [|by rewrite lookup_take_ge by lia].
  rewrite lookup_take_lt by done.
  destruct (_ <? _) eqn:E; [apply Nat.ltb_lt in E|apply Nat.ltb_ge in E].
  - rewrite lookup_app_l by (rewrite length_drop; lia). by rewrite lookup_drop.
  - rewrite lookup_app_r by (rewrite length_drop; lia).
    rewrite length_drop, lookup_take_lt by lia. f_equal. lia.
Qed.

Lemma new_cap_gt (cap n : nat) : cap < max 16 (max n (cap + cap / 2)).
Proof.
  pose proof (Nat.div_mod_eq cap 2). pose proof (Nat.mod_upper_bound cap 2). lia.
Qed.

Lemma _grow_spec n r h :
  wf r → _capacity r ≤ _reader r + _size r →
  match _grow n r h with
  | Ok r' h' =>
    wf r' ∧ contents r' = contents r ∧ _size r' = _size r ∧
    _capacity r' = max 16 (max n (_capacity r + _capacity r / 2)) ∧ h' = tail h
  | Throw e h' => e = bad_alloc ∧ h = false :: h'
  | _ => False
  end.
Proof.
  intros Hwf Hfull. pose proof Hwf as (Hm & He & Hs & Hr & Hw).
  unfold _grow. set (new_cap := max 16 _).
  assert (_capacity r < new_cap) as Hcap by apply new_cap_gt.
  unfold _allocate, operator_new, mbind, M_bind, mret, M_ret.
  destruct h as [|[] h]; simpl; try done.
  all: destruct (_copy _ 0 _ _ _) as [[m1 e1]|] eqn:C1;
    [|exfalso; eapply is_Some_None; rewrite <-C1; apply _copy_is_Some;
      rewrite ?length_replicate; lia].
  all: apply _copy_Some in C1 as (-> & _ & _ & Hl1 & Hm1); simpl.
  all: rewrite length_replicate in Hl1.
  all: assert (_writer r = _reader r + _size r - _capacity r) as Hw' by (cases; lia).
  all: unfold _beg; rewrite Nat.sub_0_r.
  all: destruct (_copy m1 _ _ _ _) as [[m2 e2]|] eqn:C2;
    [|exfalso; eapply is_Some_None; rewrite <-C2; apply _copy_is_Some; lia].
  all: apply _copy_Some in C2 as (-> & _ & _ & Hl2 & Hm2); simpl.
  all: assert (wf {| mem := m2; _end := new_cap; _writer := 0 + (_end r - _reader r) + _writer r;
                    _reader := 0; _size := _size r; _capacity := new_cap |}) as Hwf'
    by (unfold wf; simpl; split_and!; try lia; cases; lia).
  all: split_and!; try done.
  all: apply list_eq; intros i; rewrite !lookup_contents by done; simpl.
  all: case_decide; [|done].
  all: rewrite Hm2, Hm1.
  all: repeat case_decide; cases; try lia; f_equal; lia.
Qed.

Lemma lookup_contents_app r data i :
  wf r →
  (contents r ++ data) !! i =
    if decide (i < _size r) then mem r !! wrap (_capacity r) (_reader r + i)
    else data !! (i - _size r).
Proof.
  intros Hwf. case_decide.
  - rewrite lookup_app_l by (rewrite length_contents; done).
    rewrite lookup_contents by done. by case_decide.
  - rewrite lookup_app_r by (rewrite length_contents; [lia|done]).
    by rewrite length_contents.
Qed.

Lemma write_spec x r h :
  wf r →
  match write x r h with
  | Ok r' h' =>
    wf r' ∧ contents r' = contents r ++ [x] ∧
    h' = (if _capacity r <? _size r + 1 then tail h else h)
  | Throw e h' => e = bad_alloc ∧ h = false :: h' ∧ _capacity r < _size r + 1
  | _ => False
  end.
Proof.
  intros Hwf. unfold write, mbind, M_bind.
  assert (∃ r1 h1, wf r1 ∧ contents r1 = contents r ∧ _size r1 = _size r ∧
            _size r1 < _capacity r1 ∧
            h1 = (if _capacity r <? _size r + 1 then tail h else h) ∧
            (if _capacity r <? _size r + 1 then _grow (_size r + 1) r else mret r) h
            = Ok r1 h1
          ∨ _capacity r < _size r + 1 ∧ h = false :: h1 ∧
            (if _capacity r <? _size r + 1 then _grow (_size r + 1) r else mret r) h
            = Throw bad_alloc h1) as Hgrow.
  { destruct (_capacity r <? _size r + 1) eqn:E.
    - apply Nat.ltb_lt in E. pose proof Hwf as (_ & _ & Hs & _).
      pose proof (_grow_spec (_size r + 1) r h Hwf ltac:(lia)) as G.
      destruct (_grow _ r h) as [r1 h1|e h1| |]; try done.
      + destruct G as (Hwf1 & Hc & Hs1 & Hcap & Hh).
        exists r1, h1. left. split_and!; try done. lia.
      + destruct G as [-> ->]. exists r, h1. by right.
    - apply Nat.ltb_ge in E. exists r, h. left. split_and!; try done. lia. }
  destruct Hgrow as (r1 & h1 & [(Hwf1 & Hc & Hs & Hlt & Hh & ->)|(? & ? & ->)]); [|done].
  pose proof Hwf1 as (Hm & He & _ & Hr & Hw).
  unfold defined. copy_Some C. unfold mret, M_ret, _beg.
  match goal with |- wf ?r' ∧ _ => assert (wf r') as Hwf' end.
  { unfold wf; simpl; split_and!; try lia. cases; lia. }
  split_and!; [done| |done].
  apply list_eq; intros i. rewrite lookup_contents by done. simpl.
  rewrite <-Hc, lookup_contents_app by done.
  rewrite H0. simpl. rewrite Hs.
  repeat case_decide; cases; try lia; try done.
  all: try (symmetry; apply lookup_ge_None_2; simpl; lia).
  all: f_equal; lia.
Qed.

Lemma wf_init : wf (@init T).
Proof. unfold wf, init, wrap; simpl. split_and!; auto with lia. Qed.

Lemma contents_init : contents (@init T) = [].
Proof. done. Qed.

Lemma wf_clear r : wf r → wf (clear r) ∧ contents (clear r) = [].
Proof.
  intros (Hm & He & Hs & Hr & Hw). split; [|done].
  unfold wf, clear, _beg; simpl. split_and!; try lia. cases; lia.
Qed.

Lemma store_spec r i v :
  wf r → i < _size r →
  let p := wrap (_capacity r) (_reader r + i) in
  contents r !! i = Some (deref r p) ∧
  wf (store p v r) ∧ contents (store p v r) = <[i := v]> (contents r).
Proof.
  intros Hwf Hi p. pose proof Hwf as (Hm & He & Hs & Hr & Hw).
  assert (p < length (mem r)) as Hp by (subst p; cases; lia).
  assert (wf (store p v r)) as Hwf'.
  { unfold wf, store; simpl. rewrite length_insert. done. }
  split_and!; [|done|].
  - rewrite lookup_contents by done. case_decide; [|lia].
    unfold deref. fold p. destruct (lookup_lt_is_Some_2 _ _ Hp) as [y ->]. done.
  - apply list_eq; intros j. rewrite lookup_contents by done. simpl.
    destruct (decide (i = j)) as [<-|Hne].
    + rewrite (list_lookup_insert_eq (contents r)) by (rewrite length_contents; done).
      case_decide; [|lia]. fold p. by rewrite list_lookup_insert_eq.
    + rewrite (list_lookup_insert_ne (contents r)) by done.
      rewrite lookup_contents by done. case_decide; [|done].
      rewrite list_lookup_insert_ne; [done|]. subst p. cases; lia.
Qed.

Lemma peek_None r : peek r = None ↔ _size r = 0.
Proof. unfold peek. destruct (Nat.eqb_spec (_size r) 0); split; done. Qed.

Lemma peek_Some r p :
  wf r → peek r = Some p →
  0 < _size r ∧ p = wrap (_capacity r) (_reader r + 0).
Proof.
  intros (Hm & He & Hs & Hr & Hw). unfold peek.
  destruct (Nat.eqb_spec (_size r) 0); [done|]. intros [= <-].
  split; [lia|]. cases; lia.
Qed.

Lemma last_written_None r : last_written r = None ↔ _size r = 0.
Proof. unfold last_written. destruct (Nat.eqb_spec (_size r) 0); split; done. Qed.

Lemma last_written_Some r p :
  wf r → last_written r = Some p →
  0 < _size r ∧ p = wrap (_capacity r) (_reader r + (_size r - 1)).
Proof.
  intros (Hm & He & Hs & Hr & Hw). unfold last_written, _beg.
  destruct (Nat.eqb_spec (_size r) 0); [done|]. intros [= <-].
  split; [lia|]. cases; lia.
Qed.

Lemma advance_spec n r :
  wf r → wf (advance n r) ∧ contents (advance n r) = drop n (contents r).
Proof.
  intros Hwf. pose proof Hwf as (Hm & He & Hs & Hr & Hw).
  assert (wf (advance n r)) as Hwf'.
  { unfold wf, advance, _beg; simpl. split_and!; try lia; cases; lia. }
  split; [done|].
  apply list_eq; intros i. rewrite lookup_drop, !lookup_contents by done.
  unfold advance, _beg; simpl.
  repeat case_decide; cases; try lia; try done; f_equal; lia.
Qed.

Lemma read_n_spec n r :
  wf r →
  (read_n n r).1 = take n (contents r) ∧
  wf (read_n n r).2 ∧ contents (read_n n r).2 = drop n (contents r).
Proof.
  intros Hwf. pose proof Hwf as (Hm & He & Hs & Hr & Hw).
  assert ((read_n n r).2 = advance n r) as ->.
  { unfold read_n, advance. by destruct (_ <? _). }
  split; [|by apply advance_spec].
  apply list_eq; intros i. rewrite lookup_take, lookup_contents by done.
  unfold read_n, _load, _beg.
  destruct (Nat.ltb_spec (min (_size r) n) (_end r - _reader r)); simpl.
  - rewrite lookup_take, lookup_drop.
    repeat case_decide; cases; try lia; try done; f_equal; lia.
  - rewrite lookup_app_lt, length_take, length_drop, !lookup_take, !lookup_drop.
    repeat case_decide; cases; try lia; try done; f_equal; lia.
Qed.

Lemma read_spec r :
  wf r →
  (read r).1 = head (contents r) ∧
  wf (read r).2 ∧ contents (read r).2 = tail (contents r).
Proof.
  intros Hwf. pose proof Hwf as (Hm & He & Hs & Hr & Hw).
  unfold read, _beg. destruct (Nat.eqb_spec (_size r) 0) as [E|E]; simpl.
  - assert (contents r = []) as ->; [|done].
    apply length_zero_iff_nil. by rewrite length_contents.
  - destruct (store_spec r 0 (deref r (_reader r)) Hwf ltac:(lia)) as (Hh & _ & _).
    assert (wrap (_capacity r) (_reader r + 0) = _reader r) as Hp by (cases; lia).
    rewrite Hp in Hh.
    match goal with |- _ ∧ wf ?r' ∧ _ => assert (r' = advance 1 r) as -> end.
    { unfold advance, _beg. f_equal; cases; lia. }
    split_and!.
    + rewrite <-Hh. by destruct (contents r).
    + by apply advance_spec.
    + rewrite (proj2 (advance_spec 1 r Hwf)). by destruct (contents r).
Qed.

Lemma write_n_spec data r h :
  wf r →
  _size r + length data ≤ _capacity r ∨ _capacity r ≤ _reader r + _size r →
  match write_n data r h with
  | Ok r' h' =>
    wf r' ∧ contents r' = contents r ++ data ∧
    h' = (if _capacity r <? _size r + length data then tail h else h)
  | Throw e h' => e = bad_alloc ∧ h = false :: h' ∧ _capacity r < _size r + length data
  | _ => False
  end.
Proof.
  intros Hwf Hsafe. unfold write_n, mbind, M_bind.
  set (new_size := _size r + length data).
  assert (∃ r1 h1, wf r1 ∧ contents r1 = contents r ∧ _size r1 = _size r ∧
            new_size ≤ _capacity r1 ∧
            h1 = (if _capacity r <? new_size then tail h else h) ∧
            (if _capacity r <? new_size then _grow new_size r else mret r) h
            = Ok r1 h1
          ∨ _capacity r < new_size ∧ h = false :: h1 ∧
            (if _capacity r <? new_size then _grow new_size r else mret r) h
            = Throw bad_alloc h1) as Hgrow.
  { destruct (_capacity r <? new_size) eqn:E.
    - apply Nat.ltb_lt in E.
      pose proof (_grow_spec new_size r h Hwf ltac:(lia)) as G.
      destruct (_grow _ r h) as [r1 h1|e h1| |]; try done.
      + destruct G as (Hwf1 & Hc & Hs1 & Hcap & Hh).
        exists r1, h1. left. split_and!; try done. lia.
      + destruct G as [-> ->]. exists r, h1. by right.
    - apply Nat.ltb_ge in E. exists r, h. left. split_and!; try done. }
  destruct Hgrow as (r1 & h1 & [(Hwf1 & Hc & Hs & Hle & Hh & ->)|(? & ? & ->)]); [|done].
  pose proof Hwf1 as (Hm & He & _ & Hr & Hw). subst new_size.
  unfold defined, _beg.
  destruct (Nat.ltb_spec (length data) (_end r1 - _writer r1)) as [Ha|Ha].
  - copy_Some C. unfold mret, M_ret.
    match goal with |- wf ?r' ∧ _ => assert (wf r') as Hwf' end.
    { unfold wf; simpl; split_and!; try lia. cases; lia. }
    split_and!; [done| |done].
    apply list_eq; intros i. rewrite lookup_contents by done. simpl.
    rewrite <-Hc, lookup_contents_app by done.
    rewrite H0. simpl. rewrite Hs.
    repeat case_decide; cases; try lia; try done.
    all: try (symmetry; apply lookup_ge_None_2; simpl; lia).
    all: f_equal; lia.
  - copy_Some C1. unfold mret, M_ret, mbind, M_bind. simpl.
    copy_Some C2. unfold mret, M_ret.
    match goal with |- wf ?r' ∧ _ => assert (wf r') as Hwf' end.
    { unfold wf; simpl; split_and!; try lia. cases; lia. }
    split_and!; [done| |done].
    apply list_eq; intros i. rewrite lookup_contents by done. simpl.
    rewrite <-Hc, lookup_contents_app by done.
    rewrite H2, H0. simpl. rewrite Hs.
    repeat case_decide; cases; try lia; try done.
    all: try (symmetry; apply lookup_ge_None_2; simpl; lia).
    all: f_equal; lia.
Qed.
End facts.
End ring_buffer_facts.

(** ** til::ring_buffer: first in, first out *)

Module ring_buffer_fifo.
Import ring_buffer ring_buffer_facts.

Section fifo.
Context {T : Type} `{!Trivial T}.
Implicit Types (r : ring_buffer T) (ops : list (op T)).

Lemma option_list_head (q : list T) : option_list (head q) = take 1 q.
Proof. by destruct q. Qed.

(** Calls that write one element at a time refine the list queue: from a
    buffer that satisfies [wf], the reads give what the queue gives, and
    nothing but a failed allocation stops the calls. *)
Lemma run_single_writes ops r h :
  wf r → single_writes ops →
  match run ops r h with
  | Ok (out, r') _ => out = fifo ops (contents r) ∧ wf r'
  | Throw e _ => e = bad_alloc ∧ false ∈ h
  | _ => False
  end.
Proof.
  revert r h. induction ops as [|o ops IH]; intros r h Hwf Hops; [done|].
  apply Forall_cons in Hops as [Ho Hops].
  destruct o as [x|xs| |n|n]; simpl; try done.
  - unfold mbind, M_bind. pose proof (write_spec x r h Hwf) as W.
    destruct (write x r h) as [r1 h1|e h1| |]; try done.
    + destruct W as (Hwf1 & <- & Hh). specialize (IH r1 h1 Hwf1 Hops).
      destruct (run ops r1 h1) as [[out r2] h2|e h2| |]; try done.
      destruct IH as [-> Hin]. split; [done|].
      destruct (_ <? _); subst h1; [|done].
      destruct h; [done|]. by apply list_elem_of_further.
    + destruct W as (-> & -> & _). split; [done|]. apply list_elem_of_here.
  - destruct (read_spec r Hwf) as (Hd & Hwf1 & Hc).
    destruct (read r) as [d r1]; simpl in *. subst d.
    unfold mbind, M_bind. specialize (IH r1 h Hwf1 Hops).
    destruct (run ops r1 h) as [[out r2] h2|e h2| |]; try done.
    destruct IH as [-> ?]. simpl. rewrite Hc, option_list_head.
    by destruct (contents r).
  - destruct (read_n_spec n r Hwf) as (Hd & Hwf1 & Hc).
    destruct (read_n n r) as [d r1]; simpl in *. subst d.
    unfold mbind, M_bind. specialize (IH r1 h Hwf1 Hops).
    destruct (run ops r1 h) as [[out r2] h2|e h2| |]; try done.
    destruct IH as [-> ?]. simpl. by rewrite Hc.
  - destruct (advance_spec n r Hwf) as [Hwf1 Hc].
    specialize (IH (advance n r) h Hwf1 Hops). by rewrite Hc in IH.
Qed.

(** X1. Ring FIFO law, single writes: from the empty buffer, calls that write
    one element at a time, read (one element or many) and advance, in any
    order and number and through any number of growths, run to their end when
    no allocation fails, and the reads give the elements written, in the order
    written, less those advanced over. *)
Theorem fifo_single_writes ops h :
  single_writes ops → false ∉ h →
  ∃ r' h', run ops init h = Ok (fifo ops [], r') h'.
Proof.
  intros Hops Hh. pose proof (run_single_writes ops init h wf_init Hops) as R.
  destruct (run ops init h) as [[out r'] h'|e h'| |]; try done.
  - destruct R as [-> _]. by exists r', h'.
  - by destruct R.
Qed.

(** X2. A write of several elements at once extends the queue by them, in
    order, when it needs no growth, or when the elements held reach the end of
    the allocation (the buffer is full or its content wraps around). *)
Theorem write_n_sound data r h :
  wf r → false ∉ h →
  _size r + length data ≤ _capacity r ∨ _capacity r ≤ _reader r + _size r →
  ∃ r' h', write_n data r h = Ok r' h' ∧ wf r' ∧ contents r' = contents r ++ data.
Proof.
  intros Hwf Hh Hsafe. pose proof (write_n_spec data r h Hwf Hsafe) as W.
  destruct (write_n data r h) as [r' h'|e h'| |]; try done.
  - destruct W as (? & ? & _). by exists r', h'.
  - destruct W as (_ & -> & _). exfalso. apply Hh, list_elem_of_here.
Qed.

End fifo.

Section fifo_examples.
Context `{!Trivial nat}.

(** C1. The ring FIFO law fails for writes of several elements at once.
    Sixteen elements are written and read, which leaves the buffer empty with
    both cursors at the start of a full-sized allocation; a write of seventeen
    elements then grows it, and the read that follows gives elements 25 to 33,
    then 10 to 16 of the first write again, then 17, where a first-in
    first-out buffer gives 17 to 33. Nothing here is undefined or read before
    it is written. The growth copied the sixteen elements already read and set
    the write cursor behind them. On a buffer holding ten elements that were
    never read, a write of seven more copies 26 elements into the new
    allocation of 24: undefined behaviour. *)
Theorem fifo_fails_after_growth_in_write_n :
  let ops := [WriteN (seq 1 16); ReadN 16; WriteN (seq 17 17); ReadN 17] in
  (∃ r', run ops init [] = Ok (seq 1 16 ++ (seq 25 9 ++ seq 10 7 ++ [17]), r') []) ∧
  fifo ops [] = seq 1 16 ++ seq 17 17 ∧
  run [WriteN (seq 1 10); WriteN (seq 11 7)] init [] = Undefined.
Proof.
  split_and!.
  - eexists. vm_compute. reflexivity.
  - reflexivity.
  - reflexivity.
Qed.

End fifo_examples.
End ring_buffer_fifo.

(** ** til::ring_buffer: the laws of its operations *)

Module ring_buffer_laws.
Import ring_buffer ring_buffer_facts.

Section laws.
Context {T : Type} `{!Trivial T}.
Implicit Types (r : ring_buffer T) (data : list T).

Lemma _grow_capacity n r h r' h' :
  _grow n r h = Ok r' h' →
  _capacity r' = max 16 (max n (_capacity r + _capacity r / 2)) ∧ h' = tail h.
Proof.
  unfold _grow, _allocate, operator_new, mbind, M_bind, mret, M_ret, defined, undefined.
  destruct h as [|[] h]; simpl; try done.
  all: destruct (_copy _ 0 _ _ _) as [[m1 e1]|]; simpl; [|done].
  all: destruct (_copy m1 _ _ _ _) as [[m2 e2]|]; simpl; [|done].
  all: by intros [= <- <-].
Qed.

Lemma write_capacity x r h r' h' :
  write x r h = Ok r' h' →
  _capacity r' = (if _capacity r <? _size r + 1
                  then max 16 (max (_size r + 1) (_capacity r + _capacity r / 2))
                  else _capacity r).
Proof.
  unfold write, mbind, M_bind. destruct (_capacity r <? _size r + 1).
  - destruct (_grow _ r h) as [r1 h1|e h1| |] eqn:G; try done.
    apply _grow_capacity in G as [<- _].
    unfold defined, undefined, mret, M_ret.
    destruct (_copy _ _ _ _ _) as [[m e]|]; [|done]. by intros [= <- _].
  - unfold defined, undefined, mret, M_ret. simpl.
    destruct (_copy _ _ _ _ _) as [[m e]|]; [|done]. by intros [= <- _].
Qed.

Lemma contents_nil r : wf r → contents r = [] ↔ _size r = 0.
Proof.
  intros Hwf. rewrite <-(length_contents r Hwf). split.
  - by intros ->.
  - apply length_zero_iff_nil.
Qed.

Lemma advance_0_size r n : wf r → _size r = 0 → advance n r = r.
Proof.
  intros (Hm & He & Hs & Hr & Hw) E. unfold advance, _beg. destruct r as [m e w rd s c].
  simpl in *. subst s. simpl. f_equal. cases; lia.
Qed.

Lemma read_n_advance n r : (read_n n r).2 = advance n r.
Proof. unfold read_n, advance. by destruct (_ <? _). Qed.

Lemma peek_head r p :
  wf r → peek r = Some p → head (contents r) = Some (deref r p).
Proof.
  intros Hwf Hp. destruct (peek_Some r p Hwf Hp) as [Hsz ->].
  destruct (store_spec r 0 (deref r (_reader r)) Hwf Hsz) as (Hh & _ & _).
  rewrite <-Hh. by destruct (contents r).
Qed.

Lemma peek_is_Some_size r : 0 < _size r → is_Some (peek r).
Proof. unfold peek. intros H. destruct (Nat.eqb_spec (_size r) 0); [lia|eauto]. Qed.

(** X9. The class invariant is kept by every operation that returns, a write of
    several elements at once included when it needs no growth or finds the
    elements held reaching the end of the allocation; and a write of one
    element never leaves the allocation. *)
Theorem class_invariant_kept r :
  wf r →
  wf (clear r) ∧ wf (read r).2 ∧
  (∀ n, wf (read_n n r).2 ∧ wf (advance n r)) ∧
  (∀ x h, write x r h ≠ Undefined ∧ write x r h ≠ AssertFailed ∧
     ∀ r' h', write x r h = Ok r' h' → wf r') ∧
  (∀ data h, bulk_write_safe (length data) r →
     write_n data r h ≠ Undefined ∧ write_n data r h ≠ AssertFailed ∧
     ∀ r' h', write_n data r h = Ok r' h' → wf r').
Proof.
  intros Hwf. split_and!.
  - by apply wf_clear.
  - by apply read_spec.
  - intros n. split; [by apply read_n_spec|by apply advance_spec].
  - intros x h. pose proof (write_spec x r h Hwf) as W.
    destruct (write x r h) as [r1 h1|e h1| |]; try done.
    split_and!; try done. intros r' h' [= <- <-]. by destruct W.
  - intros data h Hsafe. pose proof (write_n_spec data r h Hwf Hsafe) as W.
    destruct (write_n data r h) as [r1 h1|e h1| |]; try done.
    split_and!; try done. intros r' h' [= <- <-]. by destruct W.
Qed.

(** X10. A write of one element allocates only when the buffer is full. With
    room it returns, whatever the heap does, and leaves heap and capacity as
    they were. Full, it makes one allocation: when that fails the call
    leaves by [std::bad_alloc]; otherwise the capacity becomes the greater of
    16 and one and a half times the old one, and the element is stored. *)
Theorem write_allocates_only_when_full x r h :
  wf r →
  (_size r < _capacity r →
     ∃ r', write x r h = Ok r' h ∧ _capacity r' = _capacity r ∧
           contents r' = contents r ++ [x]) ∧
  (_size r = _capacity r →
     match h with
     | false :: h' => write x r h = Throw bad_alloc h'
     | _ =>
       ∃ r', write x r h = Ok r' (tail h) ∧
             _capacity r' = max 16 (_capacity r + _capacity r / 2) ∧
             _capacity r < _capacity r' ∧ contents r' = contents r ++ [x]
     end).
Proof.
  intros Hwf. pose proof (write_spec x r h Hwf) as W.
  pose proof (write_capacity x r h) as C. split; intros Hsz.
  - destruct (write x r h) as [r1 h1|e h1| |]; try done.
    + destruct W as (_ & Hc & Hh). specialize (C r1 h1 eq_refl).
      destruct (Nat.ltb_spec (_capacity r) (_size r + 1)); [lia|]. subst h1.
      by exists r1.
    + destruct W as (_ & _ & ?). lia.
  - destruct (write x r h) as [r1 h1|e h1| |] eqn:E; try done.
    + destruct W as (_ & Hc & Hh). specialize (C r1 h1 eq_refl).
      destruct (Nat.ltb_spec (_capacity r) (_size r + 1)) as [Hlt|]; [|lia].
      pose proof (new_cap_gt (_capacity r) (_size r + 1)) as Hgt.
      assert (_capacity r1 = max 16 (_capacity r + _capacity r / 2)) as Hcap.
      { rewrite C. pose proof (Nat.div_mod_eq (_capacity r) 2).
        pose proof (Nat.mod_upper_bound (_capacity r) 2). lia. }
      destruct h as [|[] h]; simpl in *; subst h1.
      * exists r1. split_and!; try done. lia.
      * exists r1. split_and!; try done. lia.
      * exfalso. revert E. unfold write, _grow, _allocate, operator_new, mbind, M_bind.
        apply Nat.ltb_lt in Hlt. by rewrite Hlt.
    + destruct W as (-> & -> & _). done.
Qed.

(** X11. Reads take from the front. A read of up to [n] elements gives the
    [min n size] oldest elements in the order written and removes them; a
    read of one element gives the oldest and removes it; [advance] removes
    without giving. On an empty buffer they give nothing and change
    nothing. *)
Theorem reads_take_from_the_front r n :
  wf r →
  (read_n n r).1 = take n (contents r) ∧
  length (read_n n r).1 = min n (_size r) ∧
  contents (read_n n r).2 = drop n (contents r) ∧
  (read r).1 = head (contents r) ∧
  contents (read r).2 = tail (contents r) ∧
  contents (advance n r) = drop n (contents r) ∧
  (_size r = 0 → read r = (None, r) ∧ read_n n r = ([], r) ∧ advance n r = r).
Proof.
  intros Hwf. destruct (read_n_spec n r Hwf) as (Hd & _ & Hc).
  destruct (read_spec r Hwf) as (Hd1 & _ & Hc1).
  split_and!; try done.
  - rewrite Hd, length_take, length_contents by done. lia.
  - by apply advance_spec.
  - intros E. split_and!.
    + unfold read. by rewrite E.
    + rewrite (surjective_pairing (read_n n r)), Hd, read_n_advance.
      rewrite advance_0_size by done.
      by rewrite (proj2 (contents_nil r Hwf) E), take_nil.
    + by apply advance_0_size.
Qed.

(** X12. A read of one element is [peek], a load through the pointer it gives,
    and [advance(1)]; a read of up to [n] elements moves the buffer as
    [advance(n)] does; and two advances are one advance by their sum. *)
Theorem read_is_peek_then_advance r :
  wf r →
  read r = (deref r <$> peek r, advance 1 r) ∧
  (∀ n, (read_n n r).2 = advance n r) ∧
  read_n 1 r = (option_list (read r).1, (read r).2) ∧
  (∀ n m, advance m (advance n r) = advance (n + m) r).
Proof.
  intros Hwf. pose proof Hwf as (Hm & He & Hs & Hr & Hw).
  assert (read r = (deref r <$> peek r, advance 1 r)) as Hread.
  { unfold read, peek, _beg. destruct (Nat.eqb_spec (_size r) 0) as [E|E]; simpl.
    - by rewrite advance_0_size.
    - f_equal. unfold advance, _beg. f_equal; cases; lia. }
  split_and!; [done|intros n; apply read_n_advance| |].
  - rewrite (surjective_pairing (read_n 1 r)), read_n_advance, Hread. simpl.
    f_equal. rewrite (proj1 (read_n_spec 1 r Hwf)).
    pose proof (proj1 (read_spec r Hwf)) as Hh. rewrite Hread in Hh. simpl in Hh.
    rewrite Hh. by destruct (contents r).
  - intros n m. unfold advance, _beg. simpl. f_equal; cases; lia.
Qed.

(** X13. The cursors. [size] is the number of elements held and [empty] says
    whether there is none; [peek] gives a pointer to the oldest element and
    [last_written] one to the newest, and both give [nullptr] on an empty
    buffer and on no other; a store through the pointer of [peek] changes
    the oldest element and no other. *)
Theorem cursors_point_at_both_ends r :
  wf r →
  size r = length (contents r) ∧ (empty r = true ↔ contents r = []) ∧
  (peek r = None ↔ contents r = []) ∧
  (last_written r = None ↔ contents r = []) ∧
  (∀ p, peek r = Some p → head (contents r) = Some (deref r p) ∧
     ∀ v, wf (store p v r) ∧ contents (store p v r) = v :: tail (contents r)) ∧
  (∀ p, last_written r = Some p → last (contents r) = Some (deref r p)).
Proof.
  intros Hwf. split_and!.
  - symmetry. by apply length_contents.
  - unfold empty. rewrite Nat.eqb_eq. symmetry. by apply contents_nil.
  - rewrite peek_None. symmetry. by apply contents_nil.
  - rewrite last_written_None. symmetry. by apply contents_nil.
  - intros p Hp. split; [by apply peek_head|].
    destruct (peek_Some r p Hwf Hp) as [Hsz ->].
    intros v. destruct (store_spec r 0 v Hwf Hsz) as (Hh & Hwf' & Hc).
    split; [done|]. rewrite Hc. destruct (contents r); [done|]. done.
  - intros p Hp. destruct (last_written_Some r p Hwf Hp) as [Hsz ->].
    destruct (store_spec r (_size r - 1) (deref r (_reader r)) Hwf ltac:(lia)) as (Hh & _ & _).
    rewrite <-Hh, last_lookup, length_contents by done. f_equal. lia.
Qed.

(** X14. Round trip of a write of several elements at once: when it needs no
    growth or finds the elements held reaching the end of the allocation,
    and the allocation does not fail, a read of everything gives the
    elements held before it, then the elements written, and leaves the
    buffer empty. *)
Theorem bulk_round_trip data r h :
  wf r → bulk_write_safe (length data) r → false ∉ h →
  ∃ r' h', write_n data r h = Ok r' h' ∧
    read_n (_size r') r' = (contents r ++ data, advance (_size r') r') ∧
    contents (advance (_size r') r') = [] ∧
    _size r' = _size r + length data.
Proof.
  intros Hwf Hsafe Hh. pose proof (write_n_spec data r h Hwf Hsafe) as W.
  destruct (write_n data r h) as [r' h'|e h'| |] eqn:E; try done.
  - destruct W as (Hwf' & Hc & _). exists r', h'. split; [done|].
    destruct (read_n_spec (_size r') r' Hwf') as (Hd & _ & Hc').
    assert (length (contents r') = _size r') as Hl by by apply length_contents.
    split_and!.
    + rewrite (surjective_pairing (read_n _ r')), Hd, read_n_advance.
      by rewrite <-Hl, firstn_all, Hc.
    + rewrite (proj2 (advance_spec _ r' Hwf')). by rewrite <-Hl, drop_all.
    + rewrite <-Hl, Hc, length_app, length_contents by done. done.
  - destruct W as (_ & -> & _). exfalso. apply Hh, list_elem_of_here.
Qed.

End laws.
End ring_buffer_laws.

(** ** InputBuffer *)

(** Unfolds the sequencing of calls. *)
Ltac run :=
  unfold mbind, M_bind, mret, M_ret, get, modify, on_this, emit, defined, undefined;
  simpl.

(** Proves an equation by evaluating its left side. *)
Ltac evaluate :=
  match goal with
  | |- ?l = _ => let v := eval vm_compute in l in change l with v; reflexivity
  end.

Section InputBuffer_facts.
Context `{!Trivial Span, !Trivial INPUT_RECORD, !Trivial wchar_t}.


Lemma no_assert_bind {S A B} (m : M S A) (f : A → M S B) :
  no_assert m → (∀ a, no_assert (f a)) → no_assert (m ≫= f).
Proof.
  intros Hm Hf s. unfold mbind, M_bind. specialize (Hm s).
  destruct (m s); try done. apply Hf.
Qed.

Lemma no_assert_ret {S A} (a : A) : no_assert (mret a : M S A).
Proof. done. Qed.

Lemma no_assert_defined {S A} (o : option A) : no_assert (defined o : M S A).
Proof. by destruct o. Qed.

Lemma no_assert_operator_new : no_assert operator_new.
Proof. by intros [|[] ?]. Qed.

Ltac no_assert :=
  repeat first
    [ apply no_assert_ret | apply no_assert_defined | apply no_assert_operator_new
    | apply no_assert_bind; [|intros] | progress intros
    | match goal with
      | |- no_assert (if ?c then _ else _) => destruct c
      | |- no_assert (let '(_, _) := ?p in _) => destruct p
      end ].

Lemma _grow_no_assert {T} `{!Trivial T} n (r : ring_buffer T) :
  no_assert (ring_buffer._grow n r).
Proof. unfold ring_buffer._grow, ring_buffer._allocate. no_assert. Qed.

Lemma write_no_assert {T} `{!Trivial T} x (r : ring_buffer T) :
  no_assert (ring_buffer.write x r).
Proof. unfold ring_buffer.write. no_assert. Qed.

Lemma write_n_no_assert {T} `{!Trivial T} data (r : ring_buffer T) :
  no_assert (ring_buffer.write_n data r).
Proof. unfold ring_buffer.write_n. no_assert. Qed.

Lemma no_assert_get {S} : no_assert (get : M S S).
Proof. done. Qed.

Lemma no_assert_modify {S} (f : S → S) : no_assert (modify f).
Proof. done. Qed.

Lemma no_assert_on_ring {T} (member : InputBuffer → ring_buffer T) assign f :
  (∀ r, no_assert (f r)) → no_assert (on_ring member assign f).
Proof.
  intros Hf w. unfold on_ring. specialize (Hf (member (this w)) (new_outcomes w)).
  by destruct (f _ _).
Qed.

Ltac no_assert_world :=
  repeat first
    [ apply no_assert_get | apply no_assert_modify
    | apply no_assert_on_ring; intros;
      first [apply write_no_assert | apply write_n_no_assert]
    | apply no_assert_ret | apply no_assert_defined
    | apply no_assert_bind; [|intros]
    | match goal with
      | |- no_assert (if ?c then _ else _) => destruct c
      end ].

Lemma _writeSpan_no_assert type n : no_assert (_writeSpan type n).
Proof.
  unfold _writeSpan, WakeUpReadersWaitingForData, emit, on_this. no_assert_world.
Qed.

Lemma Write_text_try_no_assert text : no_assert (Write_text_try text).
Proof.
  unfold Write_text_try. no_assert_world.
Qed.

Lemma _writeSpan_calls type n w :
  match _writeSpan type n w with
  | Ok _ w' => calls w' = calls w ++ notifications w
  | Throw e w' => calls w' = calls w
  | Undefined => True
  | AssertFailed => False
  end.
Proof.
  unfold _writeSpan, notifications, WakeUpReadersWaitingForData, on_ring. run.
  assert (ring_buffer.empty (_spans (this w))
          = negb (bool_decide (is_Some (ring_buffer.last_written (_spans (this w))))))
    as ->.
  { unfold ring_buffer.empty, ring_buffer.last_written. by destruct (_ =? _). }
  destruct (ring_buffer.last_written (_spans (this w))) as [p|] eqn:L; simpl.
  - match goal with |- context [bool_decide (?a = ?b)] => destruct (bool_decide (a = b)) end;
      simpl; [done|].
    pose proof (write_no_assert (Span.mk type 0) (_spans (this w)) (new_outcomes w)) as NA.
    destruct (ring_buffer.write _ _ _) as [r h| | |]; simpl; try done.
    destruct (ring_buffer.last_written r); simpl; done.
  - pose proof (write_no_assert (Span.mk type 0) (_spans (this w)) (new_outcomes w)) as NA.
    destruct (ring_buffer.write _ _ _) as [r h| | |]; simpl; try done.
    destruct (ring_buffer.last_written r); simpl; [|done]. by rewrite <-app_assoc.
Qed.

Lemma Write_calls records w :
  records ≠ [] →
  match Write records w with
  | Ok _ w' => calls w' = calls w ++ notifications w
  | Throw e w' => calls w' = calls w
  | Undefined => True
  | AssertFailed => False
  end.
Proof.
  intros Hne. unfold Write. destruct records as [|r records]; [done|]. simpl.
  unfold on_ring. run.
  pose proof (write_n_no_assert (r :: records) (_records (this w)) (new_outcomes w)).
  destruct (ring_buffer.write_n _ _ _) as [r1 h1| | |]; simpl; try done.
  match goal with |- context [_writeSpan ?t ?n ?w1] =>
    pose proof (_writeSpan_calls t n w1) as S; destruct (_writeSpan t n w1) end; done.
Qed.

Lemma Write_text_try_calls text w :
  text ≠ [] →
  match Write_text_try text w with
  | Ok _ w' => calls w' = calls w ++ notifications w
  | Throw e w' => calls w' = calls w
  | Undefined => True
  | AssertFailed => False
  end.
Proof.
  intros Hne. unfold Write_text_try. destruct text as [|c text]; [done|]. simpl.
  unfold on_ring. run.
  pose proof (write_n_no_assert (c :: text) (_text (this w)) (new_outcomes w)).
  destruct (ring_buffer.write_n _ _ _) as [r1 h1|e h1| |]; simpl; try done.
  match goal with |- context [_writeSpan ?t ?n ?w1] =>
    pose proof (_writeSpan_calls t n w1) as S; destruct (_writeSpan t n w1) end; done.
Qed.

(** C8. Notification discipline. A write that is not empty and succeeds
    makes exactly the calls [notifications w]: [SetEvent] on the console's
    input event if and only if the span ring was empty just before the
    write, then [WaitQueue.NotifyWaiters(false)], the body of
    [WakeUpReadersWaitingForData], in every case. That holds for a write of
    records that returns normally and for a write of text whose [try] block
    runs to its end; such a write of text returns normally with these calls
    made. A write of text whose [try] block leaves by an exception has not
    succeeded: it returns normally too, and its one call is the log entry of
    [CATCH_LOG], neither the signal nor the wake-up. A write of text that
    returns is one or the other. *)
Theorem write_notifications (w w' : world) :
  (∀ records, records ≠ [] → Write records w = Ok tt w' →
     calls w' = calls w ++ notifications w) ∧
  (∀ text, text ≠ [] → Write_text_try text w = Ok tt w' →
     Write_text text w = Ok tt w' ∧ calls w' = calls w ++ notifications w) ∧
  (∀ text e w1, text ≠ [] → Write_text_try text w = Throw e w1 →
     Write_text text w
     = Ok tt {| this := this w1; new_outcomes := new_outcomes w1;
                calls := calls w ++ [LOG_CAUGHT_EXCEPTION e] |}) ∧
  (∀ text, text ≠ [] → Write_text text w = Ok tt w' →
     Write_text_try text w = Ok tt w' ∨
     ∃ e w1, Write_text_try text w = Throw e w1 ∧
             calls w' = calls w ++ [LOG_CAUGHT_EXCEPTION e]) ∧
  (SetEvent ∈ notifications w ↔ ring_buffer.empty (_spans (this w)) = true) ∧
  NotifyWaiters false ∈ notifications w.
Proof.
  split_and!.
  - intros records Hne H. pose proof (Write_calls records w Hne) as C.
    by rewrite H in C.
  - intros text Hne H. pose proof (Write_text_try_calls text w Hne) as C.
    rewrite H in C. split; [|done]. unfold Write_text, CATCH_LOG. by rewrite H.
  - intros text e w1 Hne H. pose proof (Write_text_try_calls text w Hne) as C.
    rewrite H in C. unfold Write_text, CATCH_LOG. rewrite H.
    unfold emit, modify. by rewrite C.
  - intros text Hne. pose proof (Write_text_try_calls text w Hne) as C.
    unfold Write_text, CATCH_LOG.
    destruct (Write_text_try text w) as [[] w1|e w1| |]; try done.
    + intros [= <-]. by left.
    + unfold emit, modify. intros [= <-]. right. exists e, w1. simpl.
      by rewrite C.
  - unfold notifications. destruct (ring_buffer.empty _); simpl.
    + split; [done|]. intros _. apply list_elem_of_here.
    + split; [|done]. intros [H|H]%elem_of_cons; [done|by apply elem_of_nil in H].
  - unfold notifications. apply elem_of_app. right. apply list_elem_of_here.
Qed.

Variable CP : list wchar_t → list char + Z.

Lemma _switchReadingMode_other mode w :
  _readingMode (this w) ≠ mode → _switchReadingMode mode w = Ok tt (switched mode w).
Proof.
  intros Hne. unfold _switchReadingMode, _switchReadingModeSlowPath. run.
  by destruct (decide _).
Qed.

Lemma _switchReadingMode_same mode w :
  _readingMode (this w) = mode → _switchReadingMode mode w = Ok tt w.
Proof.
  intros He. unfold _switchReadingMode. run. by destruct (decide _).
Qed.

Lemma switched_discard mode w : switched mode (discard_caches w) = switched mode w.
Proof. done. Qed.

Lemma caches_empty_switched mode w : caches_empty (this (switched mode w)).
Proof. done. Qed.

Lemma ConsumeCached_after_switch (isUnicode : bool) target w :
  _readingMode (this w) ≠ (if isUnicode then StringW else StringA) →
  ConsumeCached isUnicode target w
  = Ok target (switched (if isUnicode then StringW else StringA) w).
Proof.
  intros Hne. unfold ConsumeCached. unfold mbind at 1, M_bind at 1.
  rewrite _switchReadingMode_other by done. by destruct isUnicode.
Qed.

(** C5. A change of the reading mode discards the caches. When [mode] is
    not the reading mode of [w]: [_switchReadingMode mode] sets the mode and
    leaves both conversion caches empty, whatever the mode was before;
    [ConsumeCached] of that mode delivers nothing to [target] and leaves both
    caches empty; [Consume] of that mode does what it does from the world with
    both caches discarded; [PeekCached] and [Cache] (of events) of that mode
    leave both caches empty, and a [ConsumeCached] for narrow text that
    follows delivers nothing, so a remainder cached by a narrow [Consume]
    before does not survive the way to a record mode and back. *)
Theorem mode_switch_discards_caches (w : world) (mode : ReadingMode) :
  _readingMode (this w) ≠ mode →
  (∃ w', _switchReadingMode mode w = Ok tt w' ∧
         _readingMode (this w') = mode ∧ caches_empty (this w')) ∧
  (∀ (isUnicode : bool) target, mode = (if isUnicode then StringW else StringA) →
     ∃ w', ConsumeCached isUnicode target w = Ok target w' ∧ caches_empty (this w')) ∧
  (∀ (isUnicode : bool) source target, mode = (if isUnicode then StringW else StringA) →
     Consume CP isUnicode source target w
     = Consume CP isUnicode source target (discard_caches w)) ∧
  (∀ (isUnicode : bool) count events, mode = (if isUnicode then InputEventsW else InputEventsA) →
     ∃ r w', PeekCached isUnicode count events w = Ok r w' ∧ caches_empty (this w') ∧
       ∀ target, ∃ w'', ConsumeCached false target w' = Ok target w'') ∧
  (∀ (isUnicode : bool) source expectedSourceSize,
     mode = (if isUnicode then InputEventsW else InputEventsA) →
     ∃ r w', Cache_events isUnicode source expectedSourceSize w = Ok r w' ∧
       caches_empty (this w') ∧
       ∀ target, ∃ w'', ConsumeCached false target w' = Ok target w'').
Proof.
  intros Hne. split_and!.
  - exists (switched mode w). by rewrite _switchReadingMode_other.
  - intros u target ->. eexists. by rewrite ConsumeCached_after_switch.
  - intros u source target ->. unfold Consume.
    assert (ConsumeCached u target (discard_caches w) = ConsumeCached u target w) as H.
    { rewrite !ConsumeCached_after_switch by done. done. }
    unfold mbind, M_bind. by rewrite H.
  - intros u count events ->. unfold PeekCached. unfold mbind at 1, M_bind at 1.
    rewrite _switchReadingMode_other by done. run.
    do 2 eexists. split; [done|]. split; [done|].
    intros target. eexists. apply (ConsumeCached_after_switch false). by destruct u.
  - intros u source n ->. unfold Cache_events. unfold mbind at 1, M_bind at 1.
    rewrite _switchReadingMode_other by done. run.
    destruct (_ <? _); do 2 eexists; (split; [done|]); (split; [done|]).
    all: intros target; eexists; apply (ConsumeCached_after_switch false); by destruct u.
Qed.


(** C6. [GetNumberOfReadyEvents] returns 0 for a buffer that is not empty: a
    record written to a new buffer is in the record ring, under one span of
    length 1, and the count reported is 0. *)
Theorem GetNumberOfReadyEvents_is_zero (record : INPUT_RECORD) :
  ∃ w, Write [record] (world_new []) = Ok tt w ∧
       ring_buffer.contents (_records (this w)) = [record] ∧
       spans_of (this w) = [Span.mk Record_ 1] ∧
       GetNumberOfReadyEvents (this w) = 0.
Proof. eexists. split_and!; [evaluate|done..]. Qed.

(** C2. The record view breaks the span index. The text "x" written to a new
    buffer gives a state in which the span ring indexes the two content
    rings. A wide record-view [Read] of capacity 1 returns the key event made
    from 'x' and takes the Text span from the span ring, and the code unit is
    still in the text ring: the Text spans sum to 0, the text ring holds 1. *)
Theorem record_view_leaves_text_in_ring :
  ∃ w b,
    Write_text [0x78%Z] (world_new []) = Ok tt w ∧ lossless_index (this w) ∧
    Read_records 2 true false 1 (this w)
    = Some (1, [SynthesizeKeyEvent true 1 0 0 0x78%Z 0], b) ∧
    spans_of b = [] ∧ ring_buffer.contents (_text b) = [0x78%Z] ∧
    ¬ lossless_index b.
Proof.
  do 2 eexists. split_and!; [evaluate|done|evaluate|done|done|].
  by intros [_ [=]].
Qed.

(** C3. Record view over [Record:1, Text:1, Record:1]. After R1, the text "x"
    and R2 have been written to a new buffer, a wide record-view [Read] of
    capacity 3 returns 3 and stores two records, R1 and the key event made
    from 'x'. The third slot of the caller's buffer is not written. The loop
    over the Text span advances the record ring, so R2 is skipped there, and
    'x' stays in the text ring. *)
Theorem record_view_drops_record_after_text (R1 R2 : INPUT_RECORD) :
  ∃ w b,
    (_ ← Write [R1]; _ ← Write_text [0x78%Z]; Write [R2]) (world_new []) = Ok tt w ∧
    spans_of (this w) = [Span.mk Record_ 1; Span.mk Text 1; Span.mk Record_ 1] ∧
    ring_buffer.contents (_records (this w)) = [R1; R2] ∧
    ring_buffer.contents (_text (this w)) = [0x78%Z] ∧
    Read_records 4 true false 3 (this w)
    = Some (3, [R1; SynthesizeKeyEvent true 1 0 0 0x78%Z 0], b) ∧
    spans_of b = [] ∧
    ring_buffer.contents (_records b) = [] ∧
    ring_buffer.contents (_text b) = [0x78%Z].
Proof.
  do 2 eexists. split_and!; [evaluate|done|done|done|evaluate|done..].
Qed.

(** C10. The assertion of the wide copy path fails for a target of odd
    size. A wide [ConsumeCached] puts the buffer in mode [StringW]; [Cache]
    stores one code unit in the wide cache. A wide [ConsumeCached] with a
    target of 1 byte then transfers nothing: the target keeps its byte and
    the cache its code unit. [Consume] with a source that is not empty and the
    same target stops at [assert(_cachedTextReaderW.empty())]. *)
Theorem wide_assert_fails_on_odd_target :
  ∃ w,
    (_ ← ConsumeCached true (span.of_size 0); Cache [0x61%Z]) (world_new []) = Ok tt w ∧
    (∃ w', ConsumeCached true (span.of_size 1) w = Ok (span.of_size 1) w' ∧
           view.elements (_cachedTextW (this w')) (_cachedTextReaderW (this w')) = [0x61%Z]) ∧
    Consume CP true [0x62%Z] (span.of_size 1) w = AssertFailed.
Proof.
  eexists. split_and!; [evaluate| |done].
  eexists. split; [evaluate|done].
Qed.

End InputBuffer_facts.

Section utf8_examples.
Context `{!Trivial Span, !Trivial INPUT_RECORD, !Trivial wchar_t}.
(** C4. The slow path of [Consume] counts characters and trims code units.
    With the UTF-8 code page, the source is one character of two code units
    (U+1F600) and the target has 2 bytes: the call delivers F0 9F, caches
    98 80 and leaves the second code unit in the source. The next call
    delivers the cached 98 80 and then EF BF BD for the code unit left
    behind. The two calls deliver 7 bytes where the conversion of the source
    has 4 (F0 9F 98 80, which a call with a target of 8 bytes delivers). *)
Theorem Consume_resumes_inside_surrogate_pair :
  let source := [0xD83D; 0xDE00]%Z in
  ∃ w1 w2 w,
    Consume CP_UTF8 false source (span.of_size 2) (world_new [])
    = Ok ([0xDE00%Z], span.mk [0xF0; 0x9F]%Z 0) w1 ∧
    Consume CP_UTF8 false [0xDE00%Z] (span.of_size 8) w1
    = Ok ([], span.mk [0x98; 0x80; 0xEF; 0xBF; 0xBD]%Z 3) w2 ∧
    Consume CP_UTF8 false source (span.of_size 8) (world_new [])
    = Ok ([], span.mk [0xF0; 0x9F; 0x98; 0x80]%Z 4) w ∧
    utf16_iterator source = [source].
Proof.
  do 3 eexists. split_and!; [evaluate|evaluate|evaluate|done].
Qed.
End utf8_examples.


(** ** The conversion caches *)

Section cache_facts.
Context `{!Trivial Span, !Trivial INPUT_RECORD, !Trivial wchar_t}.

Lemma length_elements {A} (owner : list A) v :
  view_inside owner v → length (view.elements owner v) = view.size v.
Proof.
  unfold view_inside, view.elements. rewrite length_take, length_drop. lia.
Qed.

Lemma bytes_transfer_spec {A} elementSize (bytes : A → list char) target source :
  0 < elementSize →
  let r := bytes_transfer elementSize bytes target source in
  let n := length source - length r.2 in
  r.2 = drop n source ∧
  span.stored r.1 = span.stored target ++ concat (bytes <$> take n source) ∧
  span.size r.1 = span.size target - n * elementSize ∧
  n * elementSize ≤ span.size target ∧
  (r.2 = [] ∨ span.size r.1 < elementSize).
Proof.
  intros He. unfold bytes_transfer. simpl.
  set (k := min (length source) (span.size target / elementSize)).
  assert (k * elementSize ≤ span.size target) as Hk.
  { transitivity (span.size target / elementSize * elementSize); [apply Nat.mul_le_mono_r; lia|].
    rewrite Nat.mul_comm. apply Nat.Div0.mul_div_le. }
  rewrite length_drop. replace (length source - (length source - k)) with k by lia.
  split_and!; try done.
  destruct (decide (length source ≤ span.size target / elementSize)) as [Hl|Hl].
  - left. apply drop_ge. lia.
  - right. replace k with (span.size target / elementSize) by lia.
    pose proof (Nat.div_mod_eq (span.size target) elementSize).
    pose proof (Nat.mod_upper_bound (span.size target) elementSize). lia.
Qed.

Lemma concat_singletons {A} (l : list A) : concat ((λ c, [c]) <$> l) = l.
Proof. induction l; [done|]. simpl. by f_equal. Qed.

Lemma elements_substr {A} (owner : list A) v n :
  view_inside owner v → n ≤ view.size v →
  view.elements owner (view.substr n v) = drop n (view.elements owner v) ∧
  view_inside owner (view.substr n v).
Proof.
  unfold view_inside, view.elements, view.substr. simpl. intros Hv Hn. split; [|lia].
  rewrite <-drop_drop, take_drop_commute. do 2 f_equal. lia.
Qed.

Lemma elements_empty {A} (owner : list A) v :
  view.empty v = true → view.elements owner v = [].
Proof.
  unfold view.empty, view.elements. intros ->%Nat.eqb_eq. done.
Qed.

Lemma bytes_transfer_chars target (source : list char) :
  let n := min (length source) (span.size target) in
  bytes_transfer 1 (λ c, [c]) target source
  = (span.mk (span.stored target ++ take n source) (span.size target - n), drop n source).
Proof.
  unfold bytes_transfer. by rewrite Nat.div_1_r, Nat.mul_1_r, concat_singletons.
Qed.

(** [ConsumeCached] for narrow text in mode [StringA]: the target takes the
    pending bytes that fit, the cache keeps the rest. *)
Lemma ConsumeCached_narrow target w :
  _readingMode (this w) = StringA → cacheA_inside w →
  let n := min (length (pendingA w)) (span.size target) in
  ∃ w', ConsumeCached false target w
        = Ok (span.mk (span.stored target ++ take n (pendingA w)) (span.size target - n)) w' ∧
        pendingA w' = drop n (pendingA w) ∧ cacheA_inside w' ∧
        _readingMode (this w') = StringA ∧
        view.empty (_cachedTextReaderA (this w')) = (length (pendingA w) <=? span.size target) ∧
        calls w' = calls w ∧ new_outcomes w' = new_outcomes w.
Proof.
  intros Hm Hin n. unfold ConsumeCached. unfold mbind at 1, M_bind at 1.
  rewrite _switchReadingMode_same by done.
  unfold mbind at 1, M_bind at 1, get. cbv beta iota.
  destruct (view.empty (_cachedTextReaderA (this w))) eqn:E; cbv beta iota delta [negb].
  - pose proof (elements_empty (_cachedTextA (this w)) _ E) as Hp.
    unfold pendingA in *. subst n. rewrite Hp. simpl. rewrite app_nil_r, Nat.sub_0_r.
    destruct target. eexists. split_and!; done.
  - rewrite bytes_transfer_chars. fold (pendingA w). fold n. cbv beta iota.
    rewrite length_drop.
    replace (length (pendingA w) - (length (pendingA w) - n)) with n by lia.
    pose proof (length_elements _ _ Hin : length (pendingA w) = _) as Hlen.
    assert (n ≤ view.size (_cachedTextReaderA (this w))) as Hn by (unfold n; lia).
    destruct (elements_substr _ _ n Hin Hn) as [He Hi].
    assert (view.empty (view.substr n (_cachedTextReaderA (this w)))
            = (length (pendingA w) <=? span.size target)) as Hv.
    { rewrite Hlen. unfold view.empty. simpl.
      destruct (Nat.leb_spec (view.size (_cachedTextReaderA (this w))) (span.size target));
        [apply Nat.eqb_eq|apply Nat.eqb_neq]; unfold n; lia. }
    run. destruct (view.empty (view.substr n _)) eqn:E2; run.
    + eexists. split_and!; try done.
      * unfold pendingA. simpl. rewrite elements_empty by done.
        symmetry. apply drop_ge. symmetry in Hv.
        apply Nat.leb_le in Hv. unfold n, pendingA in *. lia.
      * unfold cacheA_inside, view_inside. simpl.
        unfold view.empty in E2. apply Nat.eqb_eq in E2. simpl in E2. lia.
      * simpl. by rewrite E2.
    + eexists. split_and!; try done. simpl. by rewrite E2.
Qed.

(** What [ConsumeCached] leaves of the cache it reads. *)
Lemma ConsumeCached_post (isUnicode : bool) target w :
  (if isUnicode then cacheW_inside w else cacheA_inside w) →
  ∃ target' w',
    ConsumeCached isUnicode target w = Ok target' w' ∧
    (view.empty (if isUnicode then _cachedTextReaderW (this w')
                 else _cachedTextReaderA (this w')) = true
     ∨ span.size target' < (if isUnicode then 2 else 1)).
Proof.
  intros Hin.
  destruct (decide (_readingMode (this w) = (if isUnicode then StringW else StringA)))
    as [Hm|Hm].
  - unfold ConsumeCached. unfold mbind at 1, M_bind at 1.
    rewrite _switchReadingMode_same by done.
    unfold mbind at 1, M_bind at 1, get. cbv beta iota.
    destruct isUnicode.
    + destruct (view.empty (_cachedTextReaderW (this w))) eqn:E; cbv beta iota delta [negb].
      { exists target, w. split; [done|]. by left. }
      set (source := view.elements _ _).
      pose proof (bytes_transfer_spec 2 wchar_bytes target source ltac:(lia))
        as (Hrest & _ & _ & _ & Hor).
      destruct (bytes_transfer 2 wchar_bytes target source) as [target' rest].
      simpl in Hrest, Hor. cbv beta iota.
      assert (view.empty (view.substr (length source - length rest)
                (_cachedTextReaderW (this w))) = (length rest =? 0)) as Hv.
      { unfold view.empty. simpl. f_equal.
        pose proof (length_elements _ _ Hin) as Hl. fold source in Hl.
        rewrite Hrest, length_drop in *. lia. }
      run. rewrite Hv.
      destruct (Nat.eqb_spec (length rest) 0) as [E0|E0]; run; do 2 eexists;
        (split; [done|]); simpl; rewrite ?Hv.
      * by left.
      * right. destruct Hor as [->|?]; [done|lia].
    + destruct (view.empty (_cachedTextReaderA (this w))) eqn:E; cbv beta iota delta [negb].
      { exists target, w. split; [done|]. by left. }
      set (source := view.elements _ _).
      pose proof (bytes_transfer_spec 1 (λ c, [c]) target source ltac:(lia))
        as (Hrest & _ & _ & _ & Hor).
      destruct (bytes_transfer 1 _ target source) as [target' rest].
      simpl in Hrest, Hor. cbv beta iota.
      assert (view.empty (view.substr (length source - length rest)
                (_cachedTextReaderA (this w))) = (length rest =? 0)) as Hv.
      { unfold view.empty. simpl. f_equal.
        pose proof (length_elements _ _ Hin) as Hl. fold source in Hl.
        rewrite Hrest, length_drop in *. lia. }
      run. rewrite Hv.
      destruct (Nat.eqb_spec (length rest) 0) as [E0|E0]; run; do 2 eexists;
        (split; [done|]); simpl; rewrite ?Hv.
      * by left.
      * right. destruct Hor as [->|?]; [done|lia].
  - rewrite ConsumeCached_after_switch by done. do 2 eexists. split; [done|].
    left. by destruct isUnicode.
Qed.

(** X3. What [ConsumeCached] leaves: when the reader view of the selected
    cache lies inside its string, the call returns normally and afterwards
    that view is empty or the target has room for less than one element of
    the cache (1 byte of narrow text, the 2 bytes of a code unit). *)
Theorem ConsumeCached_postcondition (isUnicode : bool) target w :
  (if isUnicode then cacheW_inside w else cacheA_inside w) →
  ∃ target' w',
    ConsumeCached isUnicode target w = Ok target' w' ∧
    (view.empty (if isUnicode then _cachedTextReaderW (this w')
                 else _cachedTextReaderA (this w')) = true
     ∨ span.size target' < (if isUnicode then 2 else 1)).
Proof. apply ConsumeCached_post. Qed.

Lemma no_assert_throw {S A} e : no_assert (throw e : M S A).
Proof. done. Qed.

Lemma no_assert_on_this f : no_assert (on_this f).
Proof. done. Qed.

Lemma Consume_slow_path_no_assert CP chars read target :
  no_assert (Consume_slow_path CP chars read target).
Proof.
  revert read target. induction chars as [|s chars IH]; intros read target; [done|].
  cbn [Consume_slow_path].
  destruct (WideCharToMultiByte CP s _ 8) as [bytes| |]; [|done|done].
  destruct (bytes_transfer 1 (λ c, [c]) target bytes) as [target' slice].
  destruct (span.empty target'); [|apply IH].
  apply no_assert_bind; [|done]. by destruct (negb _).
Qed.

Lemma Consume_narrow_no_assert_inside CP source target w :
  cacheA_inside w → Consume CP false source target w ≠ AssertFailed.
Proof.
  intros Hin.
  destruct (ConsumeCached_post false target w Hin) as (target' & w' & Hcc & Hor).
  unfold Consume. unfold mbind at 1, M_bind at 1. rewrite Hcc.
  destruct ((length source =? 0) || span.empty target') eqn:E; [done|].
  apply orb_false_iff in E as [_ E]. unfold span.empty in E. apply Nat.eqb_neq in E.
  destruct Hor as [Hv|?]; [|lia].
  unfold mbind at 1, M_bind at 1, get. unfold mbind at 1, M_bind at 1, assert.
  rewrite Hv.
  apply no_assert_bind; [unfold gsl_narrow_ULONG; by destruct (_ <? _)%Z|intros ?].
  apply no_assert_bind; [unfold gsl_narrow_ULONG; by destruct (_ <? _)%Z|intros ?].
  destruct (WideCharToMultiByte _ _ _ _).
  - apply no_assert_bind; [|done]. unfold bytes_advance. by destruct (_ <? _).
  - destruct (decide _); [done|].
    apply no_assert_bind; [apply Consume_slow_path_no_assert|by intros []].
  - done.
Qed.

(** X5. The assertion on the narrow copy path of [Consume] never fails: for
    every code page, source and target, from a world whose narrow reader view
    lies inside the cached string. *)
Theorem narrow_assertion_holds CP source target w :
  cacheA_inside w → Consume CP false source target w ≠ AssertFailed.
Proof. apply Consume_narrow_no_assert_inside. Qed.

(** *** Sizes as [int] *)

Lemma to_int_small n : (Z.of_nat n < 2 ^ 31)%Z → to_int n = Z.of_nat n.
Proof. intros Hn. unfold to_int. rewrite Z.mod_small; lia. Qed.


(** The conversion of a whole source of fewer than 2^31 code units. *)
Lemma WideCharToMultiByte_whole CP src cbMultiByte :
  src ≠ [] → (Z.of_nat (length src) < 2 ^ 31)%Z → (0 ≤ cbMultiByte)%Z →
  WideCharToMultiByte CP src (to_int (length src)) cbMultiByte
  = match CP src with
    | inl bytes =>
      if length bytes =? 0 then LastError ERROR_INVALID_PARAMETER
      else if (Z.of_nat (length bytes) <=? cbMultiByte)%Z then Bytes bytes
      else LastError ERROR_INSUFFICIENT_BUFFER
    | inr error => LastError error
    end.
Proof.
  intros Hs Hl Hcb. rewrite to_int_small by done. unfold WideCharToMultiByte, text_read.
  assert (0 < length src) by (destruct src; [done|simpl; lia]).
  destruct (Z.eqb_spec (Z.of_nat (length src)) 0); [lia|].
  destruct (Z.ltb_spec (Z.of_nat (length src)) (-1)); [lia|].
  destruct (Z.ltb_spec cbMultiByte 0); [lia|]. simpl.
  destruct (Z.eqb_spec (Z.of_nat (length src)) (-1)); [lia|].
  destruct (Z.leb_spec (Z.of_nat (length src)) (Z.of_nat (length src))); [|lia].
  by rewrite Nat2Z.id, firstn_all.
Qed.


(** *** Narrow text without surrogates *)

Section narrow.
Variable CP : list wchar_t → list char + Z.
(** The bytes of one code unit in the code page. *)
Variable enc : wchar_t → list char.

(** The code page converts text without surrogates code unit by code unit,
    each to between 1 and 8 bytes. *)
Hypothesis CP_conv : ∀ source, no_surrogates source → CP source = inl (conv enc source).
Hypothesis enc_length : ∀ c, 0 < length (enc c) ≤ 8.

Lemma conv_app s1 s2 : conv enc (s1 ++ s2) = conv enc s1 ++ conv enc s2.
Proof. unfold conv. by rewrite fmap_app, concat_app. Qed.

Lemma conv_cons c s : conv enc (c :: s) = enc c ++ conv enc s.
Proof. done. Qed.

Lemma conv_nonempty c s : 0 < length (conv enc (c :: s)).
Proof. rewrite conv_cons, length_app. pose proof (enc_length c). lia. Qed.

Lemma utf16_iterator_no_surrogates source :
  no_surrogates source → utf16_iterator source = (λ c, [c]) <$> source.
Proof.
  induction 1 as [|c source Hc _ IH]; [done|]. simpl. by rewrite Hc, IH.
Qed.

Lemma WideCharToMultiByte_char c :
  is_surrogate c = false →
  WideCharToMultiByte CP [c] (to_int (length [c])) 8 = Bytes (enc c).
Proof.
  intros Hc. rewrite WideCharToMultiByte_whole by (simpl; done || lia).
  rewrite CP_conv by (by constructor).
  unfold conv. simpl. rewrite app_nil_r. pose proof (enc_length c) as [H1 H2].
  destruct (Nat.eqb_spec (length (enc c)) 0); [lia|].
  destruct (Z.leb_spec (Z.of_nat (length (enc c))) 8); [done|lia].
Qed.

(** The slow path's loop, entered with room in the target and nothing
    cached: it stops after [k] characters, whose bytes are in the target or,
    the last of them, cached. *)
Lemma Consume_slow_path_spec source read target w :
  no_surrogates source → cacheA_inside w → pendingA w = [] → 0 < span.size target →
  ∃ k target' w',
    Consume_slow_path CP ((λ c, [c]) <$> source) read target w = Ok (read + k, target') w' ∧
    k ≤ length source ∧
    span.stored target' ++ pendingA w' = span.stored target ++ conv enc (take k source) ∧
    length (span.stored target') + span.size target'
    = length (span.stored target) + span.size target ∧
    (span.size target' = 0 ∨ (k = length source ∧ pendingA w' = [])) ∧
    cacheA_inside w' ∧ _readingMode (this w') = _readingMode (this w) ∧
    calls w' = calls w.
Proof.
  intros Hs. revert read target w.
  induction Hs as [|c source Hc Hs IH]; intros read target w Hin Hp Hroom.
  - exists 0, target, w. simpl. rewrite Hp, Nat.add_0_r, !app_nil_r.
    split_and!; try done. by right.
  - simpl fmap. cbn [Consume_slow_path]. rewrite WideCharToMultiByte_char by done.
    rewrite bytes_transfer_chars. cbv beta iota zeta.
    set (n := min (length (enc c)) (span.size target)).
    unfold span.empty. cbn [span.size].
    destruct (Nat.eqb_spec (span.size target - n) 0) as [E|E].
    + (* the target is full: break *)
      destruct (Nat.eqb_spec (length (drop n (enc c))) 0) as [E2|E2]; run.
      * exists 1. do 2 eexists. split; [done|]. simpl.
        apply length_zero_iff_nil in E2.
        rewrite take_0, Hp, !app_nil_r. unfold conv. simpl. rewrite app_nil_r.
        rewrite <-(take_drop n (enc c)) at 2. rewrite E2, app_nil_r.
        rewrite length_app, length_take. fold n.
        split_and!; try done; lia.
      * exists 1. do 2 eexists. split; [done|]. simpl.
        rewrite take_0. unfold conv. simpl. rewrite app_nil_r.
        unfold pendingA at 1. simpl. unfold view.elements. simpl.
        rewrite drop_0, firstn_all, <-app_assoc, take_drop.
        rewrite length_app, length_take. fold n.
        split_and!; try done; try lia.
        unfold cacheA_inside, view_inside. simpl. lia.
    + (* room is left: the whole character went in *)
      assert (n = length (enc c)) as Hn by (unfold n in *; lia).
      rewrite Hn, firstn_all.
      match goal with |- context [Consume_slow_path CP _ ?r ?t w] =>
        destruct (IH r t w) as (k & target' & w' & Heq & Hk & Hst & Hlen & Hpr & Hin' & Hm & Hc');
          [done|done|simpl; lia|] end.
      exists (S k), target', w'. simpl in *.
      replace (read + S k) with (read + 1 + k) by lia.
      split; [done|]. rewrite conv_cons, app_assoc, <-Hst.
      rewrite length_app in Hlen.
      split_and!; try done; try lia.
      destruct Hpr as [?|[-> ?]]; [by left|by right].
Qed.

(** One narrow [Consume] in mode [StringA]: [k] code units leave the source;
    their bytes and the bytes pending before are in the target or pending
    after; and the call fills the target unless it delivers everything. *)
Lemma Consume_narrow_spec source target w :
  _readingMode (this w) = StringA → cacheA_inside w → no_surrogates source →
  (Z.of_nat (length source) < 2 ^ 31)%Z → (Z.of_nat (span.size target) < 2 ^ 31)%Z →
  ∃ k target' w',
    Consume CP false source target w = Ok (drop k source, target') w' ∧
    span.stored target' ++ pendingA w'
    = span.stored target ++ pendingA w ++ conv enc (take k source) ∧
    length (span.stored target') + span.size target'
    = length (span.stored target) + span.size target ∧
    (span.size target' = 0 ∨ (pendingA w' = [] ∧ length source ≤ k)) ∧
    cacheA_inside w' ∧ _readingMode (this w') = StringA ∧ calls w' = calls w.
Proof.
  intros Hm Hin Hs Hls Hlt.
  destruct (ConsumeCached_narrow target w Hm Hin)
    as (w1 & Hcc & Hp1 & Hin1 & Hm1 & Hv1 & Hc1 & _).
  set (n := min (length (pendingA w)) (span.size target)) in *.
  set (target1 := span.mk (span.stored target ++ take n (pendingA w)) (span.size target - n))
    in *.
  assert (length (span.stored target1) + span.size target1
          = length (span.stored target) + span.size target) as Hlen1.
  { unfold target1. simpl. rewrite length_app, length_take. unfold n. lia. }
  unfold Consume. unfold mbind at 1, M_bind at 1. rewrite Hcc.
  destruct ((length source =? 0) || span.empty target1) eqn:E.
  - exists 0, target1, w1. rewrite drop_0, take_0. unfold conv at 1. simpl concat.
    rewrite app_nil_r. split; [done|]. split_and!; try done.
    + rewrite Hp1. unfold target1. simpl. by rewrite <-app_assoc, take_drop.
    + apply orb_true_iff in E as [E|E].
      * apply Nat.eqb_eq in E. destruct (decide (span.size target1 = 0)); [by left|right].
        split; [|lia]. rewrite Hp1. apply drop_ge. unfold target1, n in *. simpl in *. lia.
      * left. by apply Nat.eqb_eq in E.
  - apply orb_false_iff in E as [E1 E2]. apply Nat.eqb_neq in E1, E2.
    assert (n = length (pendingA w)) as Hn by (unfold target1, n in *; simpl in *; lia).
    assert (pendingA w1 = []) as Hp1'.
    { rewrite Hp1. apply drop_ge. lia. }
    assert (view.empty (_cachedTextReaderA (this w1)) = true) as Hv1'.
    { rewrite Hv1. apply Nat.leb_le. unfold n in Hn. lia. }
    unfold mbind at 1, M_bind at 1, get. unfold mbind at 1, M_bind at 1, assert.
    rewrite Hv1'.
    unfold mbind at 1, M_bind at 1, gsl_narrow_ULONG.
    destruct (Z.ltb_spec (Z.of_nat (length source)) (2 ^ 32)); [|lia].
    unfold mret at 1, M_ret at 1. unfold mbind at 1, M_bind at 1.
    destruct (Z.ltb_spec (Z.of_nat (span.size target1)) (2 ^ 32));
      [|unfold target1 in *; simpl in *; lia].
    unfold mret at 1, M_ret at 1.
    destruct source as [|c source]; [done|].
    rewrite (to_int_small (span.size target1)) by (unfold target1; simpl; lia).
    rewrite WideCharToMultiByte_whole by (done || lia). rewrite CP_conv by done.
    pose proof (conv_nonempty c source) as Hne.
    destruct (Nat.eqb_spec (length (conv enc (c :: source))) 0); [lia|].
    destruct (Z.leb_spec (Z.of_nat (length (conv enc (c :: source))))
                (Z.of_nat (span.size target1))) as [Hfit|Hfit].
    + unfold mbind at 1, M_bind at 1, bytes_advance.
      destruct (Nat.ltb_spec (span.size target1) (length (conv enc (c :: source)))); [lia|].
      unfold mret, M_ret.
      exists (length (c :: source)). do 2 eexists. rewrite drop_all. split; [done|].
      rewrite firstn_all, Hp1'. simpl span.stored. simpl span.size.
      rewrite length_app. unfold target1 in *. simpl in *. rewrite Hn, firstn_all.
      rewrite !app_nil_r, <-!app_assoc.
      split_and!; try done; try lia.
      * rewrite length_app. rewrite length_app in Hlen1. rewrite <-Hn. unfold n in *. lia.
      * right. split; [done|lia].
    + destruct (decide (ERROR_INSUFFICIENT_BUFFER ≠ ERROR_INSUFFICIENT_BUFFER)); [done|].
      rewrite utf16_iterator_no_surrogates by done.
      destruct (Consume_slow_path_spec (c :: source) 0 target1 w1 Hs Hin1 Hp1')
        as (k & target' & w' & Heq & Hk & Hst & Hlen & Hpr & Hin' & Hm' & Hc'); [lia|].
      unfold mbind at 1, M_bind at 1. rewrite Heq. unfold mret, M_ret.
      exists k, target', w'. split; [done|].
      split_and!; try done; try congruence; try lia.
      * rewrite Hst. unfold target1. simpl. rewrite Hn, firstn_all. by rewrite <-app_assoc.
      * destruct Hpr as [?|[-> ?]]; [by left|by right].
Qed.

Lemma Consume_calls_spec sizes source w :
  _readingMode (this w) = StringA → cacheA_inside w → no_surrogates source →
  (Z.of_nat (length source) < 2 ^ 31)%Z →
  Forall (λ size, (Z.of_nat size < 2 ^ 31)%Z) sizes →
  ∃ source' w',
    Consume_calls CP sizes source w
    = Ok (take (sum_list sizes) (pendingA w ++ conv enc source), source') w' ∧
    take (sum_list sizes) (pendingA w ++ conv enc source) ++ pendingA w' ++ conv enc source'
    = pendingA w ++ conv enc source.
Proof.
  intros Hm Hin Hs Hl Hsz. revert source w Hm Hin Hs Hl.
  induction Hsz as [|size sizes Hsize _ IH]; intros source w Hm Hin Hs Hl.
  - exists source, w. split; [done|]. by rewrite take_0.
  - destruct (Consume_narrow_spec source (span.of_size size) w Hm Hin Hs Hl Hsize)
      as (k & target' & w1 & Heq & Hst & Hlen & Hpr & Hin1 & Hm1 & _).
    simpl in Hst, Hlen.
    destruct (IH (drop k source) w1 Hm1 Hin1) as (source' & w' & Heq' & Hall).
    { by apply Forall_drop. }
    { rewrite length_drop. lia. }
    exists source', w'. cbn [Consume_calls]. unfold mbind at 1, M_bind at 1.
    rewrite Heq. unfold mbind at 1, M_bind at 1. rewrite Heq'. unfold mret, M_ret.
    assert (pendingA w ++ conv enc source
            = span.stored target' ++ pendingA w1 ++ conv enc (drop k source)) as Howed.
    { rewrite app_assoc, Hst, <-(take_drop k source) at 1.
      by rewrite conv_app, !app_assoc. }
    assert (take (sum_list (size :: sizes)) (pendingA w ++ conv enc source)
            = span.stored target'
              ++ take (sum_list sizes) (pendingA w1 ++ conv enc (drop k source))) as Htake.
    { rewrite Howed. simpl sum_list. destruct Hpr as [Hz|[Hp Hk]].
      - replace size with (length (span.stored target')) by lia.
        by rewrite take_app_add.
      - rewrite Hp, drop_ge by done. unfold conv at 1 2. simpl.
        rewrite app_nil_r, take_nil, app_nil_r. apply take_ge. lia. }
    rewrite Htake. split; [done|]. by rewrite <-app_assoc, Hall.
Qed.

(** X4. Transcoding split and resume, for text without surrogates. The code
    page converts such text code unit by code unit, each to 1 to 8 bytes.
    From a world in mode [StringA] with nothing cached, successive narrow
    [Consume] calls on a source of fewer than 2^31 code units, with targets
    of any sizes below 2^31 bytes (the sizes that are themselves as an
    [int], the type [WideCharToMultiByte] takes them in), all return normally
    and deliver, call after call, the first bytes of the one-shot conversion
    of the source, as many as the targets hold in all; these bytes, the bytes
    left in the cache and the conversion of the source left make up the
    conversion of the source: no byte is lost and none is delivered twice. *)
Theorem Consume_narrow_lossless sizes source w :
  _readingMode (this w) = StringA → cacheA_inside w → pendingA w = [] →
  no_surrogates source → (Z.of_nat (length source) < 2 ^ 31)%Z →
  Forall (λ size, (Z.of_nat size < 2 ^ 31)%Z) sizes →
  ∃ source' w',
    Consume_calls CP sizes source w = Ok (take (sum_list sizes) (conv enc source), source') w' ∧
    take (sum_list sizes) (conv enc source) ++ pendingA w' ++ conv enc source' = conv enc source ∧
    CP source = inl (conv enc source).
Proof.
  intros Hm Hin Hp Hs Hl Hsz.
  destruct (Consume_calls_spec sizes source w Hm Hin Hs Hl Hsz) as (source' & w' & Heq & Hall).
  rewrite Hp in *. exists source', w'. split_and!; [done|done|by apply CP_conv].
Qed.
End narrow.
End cache_facts.

Lemma utf8_no_surrogates source :
  no_surrogates source → CP_UTF8 source = inl (conv utf8_code_point source).
Proof.
  unfold CP_UTF8. intros Hs. f_equal.
  induction Hs as [|c source Hc _ IH]; [done|]. simpl. rewrite Hc, IH. done.
Qed.

Lemma utf8_code_point_length c : 0 < length (utf8_code_point c) ≤ 8.
Proof. unfold utf8_code_point. repeat destruct (_ <? _)%Z; simpl; lia. Qed.

(** ** The span ring *)

Import ring_buffer_facts.

Section span_facts.
Context `{!Trivial Span, !Trivial INPUT_RECORD, !Trivial wchar_t}.
Implicit Types (r : ring_buffer Span) (b : InputBuffer) (kinds : list SpanType).

Lemma adjacent_distinct_drop kinds n :
  adjacent_distinct kinds → adjacent_distinct (drop n kinds).
Proof.
  revert kinds. induction n as [|n IH]; intros kinds H; [by rewrite drop_0|].
  destruct kinds as [|a kinds]; [done|]. simpl. apply IH.
  destruct kinds; [done|]. by destruct H.
Qed.

Lemma adjacent_distinct_snoc kinds type :
  adjacent_distinct kinds → last kinds ≠ Some type →
  adjacent_distinct (kinds ++ [type]).
Proof.
  induction kinds as [|a kinds IH]; intros H Hl; [done|].
  destruct kinds as [|c kinds].
  - split; [|done]. simpl in Hl. congruence.
  - destruct H as [Hac H]. split; [done|]. apply IH; [done|].
    by rewrite last_cons_cons in Hl.
Qed.

(** Storing a span of the same kind over the [i]-th span. *)
Lemma store_same_kind r i v :
  ring_buffer.wf r → i < ring_buffer._size r →
  let p := ring_buffer.wrap (ring_buffer._capacity r) (ring_buffer._reader r + i) in
  Span.type v = Span.type (ring_buffer.deref r p) →
  ring_buffer.wf (ring_buffer.store p v r) ∧
  ring_buffer.contents (ring_buffer.store p v r) = <[i := v]> (ring_buffer.contents r) ∧
  ring_buffer.contents r !! i = Some (ring_buffer.deref r p) ∧
  Span.type <$> ring_buffer.contents (ring_buffer.store p v r)
  = Span.type <$> ring_buffer.contents r.
Proof.
  intros Hwf Hi p Hv. destruct (store_spec r i v Hwf Hi) as (Hd & Hwf' & Hc).
  fold p in Hd, Hwf', Hc. split_and!; try done.
  rewrite Hc, list_fmap_insert, Hv. apply list_insert_id.
  by rewrite list_lookup_fmap, Hd.
Qed.

Lemma sub_length_peek r p n :
  ring_buffer.wf r → ring_buffer.peek r = Some p →
  ring_buffer.wf (sub_length p n r) ∧ ring_buffer.peek (sub_length p n r) = Some p ∧
  Span.type <$> ring_buffer.contents (sub_length p n r)
  = Span.type <$> ring_buffer.contents r.
Proof.
  intros Hwf Hp. destruct (peek_Some r p Hwf Hp) as [Hs ->].
  unfold sub_length.
  match goal with |- context [ring_buffer.store _ ?v r] =>
    pose proof (store_same_kind r 0 v Hwf Hs eq_refl) as (? & _ & _ & ?) end.
  split_and!; done.
Qed.

Lemma insert_last {A} (l : list A) (x y : A) :
  last l = Some y → <[length l - 1 := x]> l = removelast l ++ [x].
Proof.
  intros [l' ->]%last_Some. rewrite removelast_last, length_app. simpl.
  replace (length l' + 1 - 1) with (length l' + 0) by lia.
  by rewrite insert_app_r.
Qed.

Lemma add_length_last_written r p n :
  ring_buffer.wf r → ring_buffer.last_written r = Some p →
  let s := ring_buffer.deref r p in
  last (ring_buffer.contents r) = Some s ∧
  ring_buffer.wf (add_length p n r) ∧
  ring_buffer.contents (add_length p n r)
  = removelast (ring_buffer.contents r) ++ [Span.mk (Span.type s) (Span.length s + n)].
Proof.
  intros Hwf Hp s. destruct (last_written_Some r p Hwf Hp) as [Hs Hpe].
  assert (ring_buffer._size r - 1 < ring_buffer._size r) as Hi by lia.
  unfold add_length. fold s.
  pose proof (store_same_kind r _ (Span.mk (Span.type s) (Span.length s + n)) Hwf Hi)
    as (Hwf' & Hc & Hl & _).
  { simpl. subst s. by rewrite Hpe. }
  rewrite <-Hpe in Hwf', Hc, Hl. fold s in Hl.
  assert (last (ring_buffer.contents r) = Some s) as Hlast.
  { rewrite last_lookup, length_contents by done.
    by replace (pred (ring_buffer._size r)) with (ring_buffer._size r - 1) by lia. }
  split_and!; try done.
  rewrite Hc. rewrite <-(length_contents r) by done. by eapply insert_last.
Qed.

Lemma write_then_add_length type n r h :
  ring_buffer.wf r →
  match ring_buffer.write (Span.mk type 0) r h with
  | Ok r1 h1 =>
    ∃ p, ring_buffer.last_written r1 = Some p ∧
         ring_buffer.wf (add_length p n r1) ∧
         ring_buffer.contents (add_length p n r1)
         = ring_buffer.contents r ++ [Span.mk type n]
  | Throw e h1 => True
  | _ => False
  end.
Proof.
  intros Hwf. pose proof (write_spec (Span.mk type 0) r h Hwf) as W.
  destruct (ring_buffer.write _ r h) as [r1 h1|e h1| |]; try done.
  destruct W as (Hwf1 & Hc1 & _).
  destruct (ring_buffer.last_written r1) as [p|] eqn:L.
  - exists p. split; [done|].
    destruct (add_length_last_written r1 p n Hwf1 L) as (Hlast & Hwf' & Hc).
    rewrite Hc1, last_snoc in Hlast. injection Hlast as Hd.
    split; [done|]. rewrite Hc, <-Hd, Hc1, removelast_last. done.
  - apply last_written_None in L. pose proof (length_contents r1 Hwf1) as Hl.
    rewrite Hc1, length_app, L in Hl. simpl in Hl. lia.
Qed.

Lemma _writeSpan_spans type n w :
  ring_buffer.wf (_spans (this w)) →
  match _writeSpan type n w with
  | Ok _ w' =>
    ring_buffer.wf (_spans (this w')) ∧
    spans_of (this w') = merge_span type n (spans_of (this w)) ∧
    _records (this w') = _records (this w) ∧ _text (this w') = _text (this w)
  | Throw e w' => this w' = this w
  | _ => False
  end.
Proof.
  intros Hwf. unfold _writeSpan, WakeUpReadersWaitingForData, on_ring, merge_span, spans_of.
  run.
  destruct (ring_buffer.last_written (_spans (this w))) as [p|] eqn:L; simpl.
  - destruct (add_length_last_written _ p n Hwf L) as (Hlast & Hwf' & Hc).
    rewrite Hlast.
    destruct (decide (Span.type (ring_buffer.deref (_spans (this w)) p) = type)) as [E|E].
    + rewrite bool_decide_true by done. simpl.
      destruct w as [b h c]; simpl in *. rewrite <-E. split_and!; try done.
      all: by destruct (if bool_decide _ then _ else _).
    + rewrite bool_decide_false by done. simpl.
      pose proof (write_then_add_length type n _ (new_outcomes w) Hwf) as W.
      destruct (ring_buffer.write _ _ _) as [r1 h1|e h1| |]; simpl; try done.
      destruct W as (p' & -> & Hwf1 & Hc1). by simpl.
  - assert (last (ring_buffer.contents (_spans (this w))) = None) as ->.
    { apply last_None, length_zero_iff_nil. rewrite length_contents by done.
      by apply last_written_None. }
    pose proof (write_then_add_length type n _ (new_outcomes w) Hwf) as W.
    destruct (ring_buffer.write _ _ _) as [r1 h1|e h1| |]; simpl; try done.
    destruct W as (p' & -> & Hwf1 & Hc1). simpl. split_and!; try done.
    rewrite Hc1. replace (ring_buffer.contents (_spans (this w))) with (@nil Span); [done|].
    symmetry. apply length_zero_iff_nil. rewrite length_contents by done.
    by apply last_written_None.
Qed.

Lemma merge_span_kinds type n (spans : list Span) :
  adjacent_distinct (Span.type <$> spans) →
  adjacent_distinct (Span.type <$> merge_span type n spans).
Proof.
  intros H. unfold merge_span. destruct (last spans) as [s|] eqn:L.
  - apply last_Some in L as [l' ->]. case_decide as E.
    + rewrite removelast_last. by rewrite !fmap_snoc, <-E in *.
    + rewrite (fmap_snoc _ (l' ++ [s])). apply adjacent_distinct_snoc; [done|].
      rewrite fmap_last, last_snoc. simpl. congruence.
  - by apply last_None in L as ->.
Qed.

Lemma spans_inv_new : spans_inv InputBuffer_new.
Proof. split; [apply wf_init|done]. Qed.

Lemma _writeSpan_inv type n w :
  spans_inv (this w) →
  match _writeSpan type n w with
  | Ok _ w' | Throw _ w' => spans_inv (this w')
  | _ => False
  end.
Proof.
  intros [Hwf Hk]. pose proof (_writeSpan_spans type n w Hwf) as S.
  destruct (_writeSpan type n w) as [[] w'|e w'| |]; try done.
  - destruct S as (Hwf' & Hc & _). split; [done|].
    unfold kinds_of. rewrite Hc. by apply merge_span_kinds.
  - by rewrite S.
Qed.

Lemma on_ring_records_inv f w :
  spans_inv (this w) →
  match on_ring _records set_records f w with
  | Ok _ w' | Throw _ w' => spans_inv (this w')
  | _ => True
  end.
Proof. intros H. unfold on_ring. by destruct (f _ _). Qed.

Lemma on_ring_text_inv f w :
  spans_inv (this w) →
  match on_ring _text set_text f w with
  | Ok _ w' | Throw _ w' => spans_inv (this w')
  | _ => True
  end.
Proof. intros H. unfold on_ring. by destruct (f _ _). Qed.

Lemma Write_inv records w :
  spans_inv (this w) →
  match Write records w with
  | Ok _ w' | Throw _ w' => spans_inv (this w')
  | _ => True
  end.
Proof.
  intros H. unfold Write. destruct (negb _); [|done].
  unfold mbind, M_bind. pose proof (on_ring_records_inv (ring_buffer.write_n records) w H) as R.
  destruct (on_ring _ _ _ w) as [[] w1|e w1| |]; try done.
  pose proof (_writeSpan_inv Record_ (length records) w1 R) as S.
  by destruct (_writeSpan _ _ w1).
Qed.

Lemma emit_inv c w : spans_inv (this w) → ∀ w', emit c w = Ok tt w' → spans_inv (this w').
Proof. intros H w' [= <-]. done. Qed.

Lemma Write_text_inv text w :
  spans_inv (this w) →
  match Write_text text w with
  | Ok _ w' | Throw _ w' => spans_inv (this w')
  | _ => True
  end.
Proof.
  intros H. unfold Write_text, CATCH_LOG, Write_text_try. destruct (negb _); [|done].
  unfold mbind, M_bind. pose proof (on_ring_text_inv (ring_buffer.write_n text) w H) as R.
  destruct (on_ring _ _ _ w) as [[] w1|e w1| |]; try done.
  pose proof (_writeSpan_inv Text (length text) w1 R) as S.
  by destruct (_writeSpan _ _ w1).
Qed.

Lemma Flush_inv w w' : Flush w = Ok tt w' → spans_inv (this w) → spans_inv (this w').
Proof.
  unfold Flush. run. intros [= <-] [Hwf _]. simpl.
  destruct (wf_clear _ Hwf) as [Hwf' Hc]. split; [done|].
  unfold kinds_of, spans_of. simpl. by rewrite ?Hc.
Qed.

Lemma advance_if_done_inv span b : spans_inv b → spans_inv (advance_if_done span b).
Proof.
  intros [Hwf Hk]. unfold advance_if_done. destruct (_ =? _); [|done].
  destruct (advance_spec 1 _ Hwf) as [Hwf' Hc]. split; [done|].
  unfold kinds_of, spans_of in *. simpl. rewrite Hc, fmap_drop.
  by apply adjacent_distinct_drop.
Qed.

(** The loops over one span leave the span ring's kinds and head alone. *)
Lemma Read_text_Record_spans turns span remaining out b :
  ring_buffer.wf (_spans b) → ring_buffer.peek (_spans b) = Some span →
  let b' := (Read_text_Record turns span remaining out b).2 in
  ring_buffer.wf (_spans b') ∧ ring_buffer.peek (_spans b') = Some span ∧
  kinds_of b' = kinds_of b.
Proof.
  revert remaining out b. induction turns as [|turns IH]; intros remaining out b Hwf Hp;
    [done|]. simpl.
  destruct (_ && _); [|done].
  destruct (ring_buffer.peek (_records b)) as [p|]; [|done].
  destruct (sub_length_peek (_spans b) span 1 Hwf Hp) as (Hwf' & Hp' & Hk).
  destruct (_ && _); simpl.
  all: match goal with |- context [Read_text_Record _ _ ?rem ?o ?b1] =>
    destruct (IH rem o b1) as (? & ? & Hk1); [done..|] end.
  all: split_and!; try done.
  all: by rewrite Hk1.
Qed.

Lemma Read_records_Text_spans turns span remaining data b :
  ring_buffer.wf (_spans b) → ring_buffer.peek (_spans b) = Some span →
  let b' := (Read_records_Text turns span remaining data b).2 in
  ring_buffer.wf (_spans b') ∧ ring_buffer.peek (_spans b') = Some span ∧
  kinds_of b' = kinds_of b.
Proof.
  revert remaining data b. induction turns as [|turns IH]; intros remaining data b Hwf Hp;
    [done|]. simpl.
  destruct (_ && _); [|done].
  destruct (ring_buffer.peek (_text b)) as [p|]; [|done].
  destruct (sub_length_peek (_spans b) span 1 Hwf Hp) as (Hwf' & Hp' & Hk).
  match goal with |- context [Read_records_Text turns span ?rem ?o ?b1] =>
    destruct (IH rem o b1) as (? & ? & Hk1); [done..|] end.
  split_and!; try done. by rewrite Hk1.
Qed.

Lemma Read_text_loop_inv fuel remaining out b remaining' out' b' :
  spans_inv b →
  Read_text_loop fuel remaining out b = Some (remaining', out', b') → spans_inv b'.
Proof.
  revert remaining out b. induction fuel as [|fuel IH]; intros remaining out b Hinv; [done|].
  simpl. destruct (remaining =? 0); [by intros [= _ _ <-]|].
  destruct (ring_buffer.peek (_spans b)) as [span|] eqn:Hp; [|by intros [= _ _ <-]].
  destruct Hinv as [Hwf Hk].
  destruct (Span.type _).
  - pose proof (Read_text_Record_spans (span_length b span) span remaining out b Hwf Hp)
      as (Hwf1 & Hp1 & Hk1).
    destruct (Read_text_Record _ _ _ _ _) as [[rem1 out1] b1]. simpl in *.
    apply IH, advance_if_done_inv. split; [done|]. by rewrite Hk1.
  - destruct (ring_buffer.read_n _ _) as [data text].
    apply IH, advance_if_done_inv.
    destruct (sub_length_peek (_spans b) span (min remaining (span_length b span)) Hwf Hp)
      as (Hwf' & Hp' & Hk').
    split; [done|]. unfold kinds_of, spans_of. simpl. by rewrite Hk'.
Qed.

Lemma Read_records_loop_inv fuel remaining data b remaining' data' b' :
  spans_inv b →
  Read_records_loop fuel remaining data b = Some (remaining', data', b') → spans_inv b'.
Proof.
  revert remaining data b. induction fuel as [|fuel IH]; intros remaining data b Hinv; [done|].
  simpl. destruct (remaining =? 0); [by intros [= _ _ <-]|].
  destruct (ring_buffer.peek (_spans b)) as [span|] eqn:Hp; [|by intros [= _ _ <-]].
  destruct Hinv as [Hwf Hk].
  destruct (Span.type _).
  - destruct (ring_buffer.read_n _ _) as [read records].
    apply IH, advance_if_done_inv.
    destruct (sub_length_peek (_spans b) span (min remaining (span_length b span)) Hwf Hp)
      as (Hwf' & Hp' & Hk').
    split; [done|]. unfold kinds_of, spans_of. simpl. by rewrite Hk'.
  - pose proof (Read_records_Text_spans (span_length b span) span remaining data b Hwf Hp)
      as (Hwf1 & Hp1 & Hk1).
    destruct (Read_records_Text _ _ _ _ _) as [[rem1 data1] b1]. simpl in *.
    apply IH, advance_if_done_inv. split; [done|]. by rewrite Hk1.
Qed.

Lemma reachable_spans_inv w : reachable w → spans_inv (this w).
Proof.
  induction 1 as [h|records w w' _ IH H|records e w w' _ IH H|text w w' _ IH H
                 |fuel wide peek capacity w n out b _ IH H
                 |fuel wide peek capacity w n data b _ IH H|w w' _ IH H].
  - apply spans_inv_new.
  - pose proof (Write_inv records w IH) as W. by rewrite H in W.
  - pose proof (Write_inv records w IH) as W. by rewrite H in W.
  - pose proof (Write_text_inv text w IH) as W. by rewrite H in W.
  - simpl. unfold Read_text in H. destruct (negb wide); [by injection H as _ _ <-|].
    destruct (Read_text_loop _ _ _ _) as [[[rem1 out1] b1]|] eqn:L; [|done].
    simpl in H. injection H as _ _ <-. by eapply Read_text_loop_inv.
  - simpl. unfold Read_records in H. destruct (negb wide); [by injection H as _ _ <-|].
    destruct (Read_records_loop _ _ _ _) as [[[rem1 out1] b1]|] eqn:L; [|done].
    simpl in H. injection H as _ _ <-. by eapply Read_records_loop_inv.
  - by eapply Flush_inv.
Qed.
Lemma Write_spans records w w' :
  ring_buffer.wf (_spans (this w)) → records ≠ [] → Write records w = Ok tt w' →
  spans_of (this w') = merge_span Record_ (length records) (spans_of (this w)).
Proof.
  intros Hwf Hne. unfold Write. destruct records as [|r records]; [done|].
  change (negb (length (r :: records) =? 0)) with true. cbv iota.
  unfold mbind, M_bind. unfold on_ring at 1.
  destruct (ring_buffer.write_n (r :: records) _ _) as [r1 h1|e h1| |]; try done.
  match goal with |- _writeSpan ?t ?n ?w1 = _ → _ =>
    pose proof (_writeSpan_spans t n w1 Hwf) as S; intros H; rewrite H in S end.
  by destruct S as (_ & -> & _).
Qed.

Lemma Write_text_try_spans text w w' :
  ring_buffer.wf (_spans (this w)) → text ≠ [] → Write_text_try text w = Ok tt w' →
  spans_of (this w') = merge_span Text (length text) (spans_of (this w)).
Proof.
  intros Hwf Hne. unfold Write_text_try. destruct text as [|c text]; [done|].
  change (negb (length (c :: text) =? 0)) with true. cbv iota.
  unfold mbind, M_bind. unfold on_ring at 1.
  destruct (ring_buffer.write_n (c :: text) _ _) as [r1 h1|e h1| |]; try done.
  match goal with |- _writeSpan ?t ?n ?w1 = _ → _ =>
    pose proof (_writeSpan_spans t n w1 Hwf) as S; intros H; rewrite H in S end.
  by destruct S as (_ & -> & _).
Qed.

(** C7. Span merge invariant. In every world that calls of [Write], [Read]
    and [Flush] lead to from a new buffer, no two neighbours among the spans
    not yet read are of the same kind. A write of records that returns
    normally, and a write of text whose [try] block does, change the spans
    by [merge_span]: the run is added to the length of the span written last
    when that span is of the run's kind, and is a new span behind it
    otherwise. So "ab" and then "cd" written to a new buffer leave the one
    span Text:4, and "ab", a record and "cd" leave Text:2, Record:1, Text:2. *)
Theorem span_merge_invariant :
  (∀ w, reachable w →
     adjacent_distinct (kinds_of (this w)) ∧
     (∀ records w', records ≠ [] → Write records w = Ok tt w' →
        spans_of (this w') = merge_span Record_ (length records) (spans_of (this w))) ∧
     (∀ text w', text ≠ [] → Write_text_try text w = Ok tt w' →
        Write_text text w = Ok tt w' ∧
        spans_of (this w') = merge_span Text (length text) (spans_of (this w)))) ∧
  (∃ w, (_ ← Write_text [0x61; 0x62]%Z; Write_text [0x63; 0x64]%Z) (world_new [])
        = Ok tt w ∧
        spans_of (this w) = [Span.mk Text 4]) ∧
  (∀ R, ∃ w, (_ ← Write_text [0x61; 0x62]%Z; _ ← Write [R]; Write_text [0x63; 0x64]%Z)
               (world_new []) = Ok tt w ∧
             spans_of (this w) = [Span.mk Text 2; Span.mk Record_ 1; Span.mk Text 2]).
Proof.
  split_and!.
  - intros w Hw. destruct (reachable_spans_inv w Hw) as [Hwf Hk]. split_and!.
    + done.
    + intros records w' Hne H. by eapply Write_spans.
    + intros text w' Hne H. split.
      * unfold Write_text, CATCH_LOG. by rewrite H.
      * by eapply Write_text_try_spans.
  - eexists. split; [evaluate|done].
  - intros R. eexists. split; [evaluate|done].
Qed.

End span_facts.

(** ** The span ring as an index into the content rings *)

Section index_facts.
Context `{!Trivial Span, !Trivial INPUT_RECORD, !Trivial wchar_t}.
Implicit Types (r : ring_buffer Span) (b : InputBuffer) (spans : list Span).

Lemma span_total_nil type : span_total type [] = 0.
Proof. done. Qed.

Lemma span_total_cons type s spans :
  span_total type (s :: spans)
  = (if decide (Span.type s = type) then Span.length s else 0) + span_total type spans.
Proof.
  unfold span_total. rewrite filter_cons. by case_decide.
Qed.

Lemma span_total_app type spans1 spans2 :
  span_total type (spans1 ++ spans2) = span_total type spans1 + span_total type spans2.
Proof.
  unfold span_total. by rewrite filter_app, fmap_app, sum_list_with_app.
Qed.

Lemma span_total_merge t type n spans :
  span_total t (merge_span type n spans)
  = span_total t spans + (if decide (type = t) then n else 0).
Proof.
  unfold merge_span. destruct (last spans) as [s|] eqn:L.
  - apply last_Some in L as [l' ->]. case_decide as E.
    + rewrite removelast_last, !span_total_app, !span_total_cons, !span_total_nil. simpl.
      rewrite E. repeat case_decide; lia.
    + rewrite !span_total_app, !span_total_cons, !span_total_nil. simpl.
      repeat case_decide; lia.
  - apply last_None in L as ->. rewrite span_total_cons. simpl.
    repeat case_decide; rewrite ?span_total_nil; lia.
Qed.

(** The size a ring has after a write that returns. *)
Lemma write_n_size {T} `{!Trivial T} (data : list T) (q q' : ring_buffer T) h h' :
  ring_buffer.write_n data q h = Ok q' h' →
  ring_buffer._size q' = ring_buffer._size q + length data.
Proof.
  unfold ring_buffer.write_n, mbind, M_bind. intros H.
  match type of H with (match ?g with _ => _ end) = _ =>
    destruct g as [q1 h1| | |] end; try done.
  match type of H with (match ?g with _ => _ end) = _ =>
    destruct g as [[m wr] h2| | |] end; try done.
  by injection H as <- _.
Qed.

(** What a span of length [n] less at the head of the span ring does. *)
Lemma sub_length_head r p n :
  ring_buffer.wf r → ring_buffer.peek r = Some p →
  let s := ring_buffer.deref r p in
  ∃ rest, ring_buffer.contents r = s :: rest ∧
    ring_buffer.contents (sub_length p n r)
    = Span.mk (Span.type s) (Span.length s - n) :: rest ∧
    ring_buffer.deref (sub_length p n r) p = Span.mk (Span.type s) (Span.length s - n) ∧
    ring_buffer.wf (sub_length p n r) ∧ ring_buffer.peek (sub_length p n r) = Some p ∧
    ring_buffer._size (sub_length p n r) = ring_buffer._size r.
Proof.
  intros Hwf Hp s. destruct (peek_Some r p Hwf Hp) as [Hs Hpe].
  pose proof (store_spec r 0 (Span.mk (Span.type s) (Span.length s - n)) Hwf Hs)
    as (Hd & Hwf' & Hc).
  rewrite <-Hpe in Hd, Hwf', Hc. fold s in Hd.
  destruct (ring_buffer.contents r) as [|s' rest] eqn:Hcr; [done|].
  injection Hd as ->. exists rest. unfold sub_length. fold s.
  split_and!; try done.
  unfold ring_buffer.deref, ring_buffer.store. simpl.
  rewrite list_lookup_insert_eq; [done|].
  destruct Hwf as (Hm & _ & Hsz & Hr & _). rewrite Hpe.
  unfold ring_buffer.wrap. rewrite Nat.add_0_r.
  destruct (Nat.ltb_spec (ring_buffer._reader r) (ring_buffer._capacity r)); lia.
Qed.

Lemma advance_1_size {T} (q : ring_buffer T) :
  0 < ring_buffer._size q →
  ring_buffer._size (ring_buffer.advance 1 q) = ring_buffer._size q - 1.
Proof. unfold ring_buffer.advance. simpl. lia. Qed.

Lemma peek_is_Some {T} (q : ring_buffer T) :
  0 < ring_buffer._size q → ∃ p, ring_buffer.peek q = Some p.
Proof.
  unfold ring_buffer.peek. destruct (Nat.eqb_spec (ring_buffer._size q) 0); [lia|eauto].
Qed.

(** The character view's loop over a Record span at the head of an indexed
    buffer ends with the caller's buffer full or the span used up; it stores
    as many code units as it takes from [remaining]. *)
Lemma Read_text_Record_indexed turns span remaining out b :
  indexed b → ring_buffer.peek (_spans b) = Some span →
  Span.type (ring_buffer.deref (_spans b) span) = Record_ →
  turns = span_length b span →
  let '(remaining', out', b') := Read_text_Record turns span remaining out b in
  indexed b' ∧ ring_buffer.peek (_spans b') = Some span ∧
  ring_buffer._size (_spans b') = ring_buffer._size (_spans b) ∧
  (remaining' = 0 ∨ span_length b' span = 0) ∧
  remaining' + length out' = remaining + length out.
Proof.
  revert remaining out b.
  induction turns as [|turns IH]; intros remaining out b [Hwf [HR HT]] Hp Hty Hturns.
  - simpl. split_and!; try done. by right.
  - cbn [Read_text_Record]. rewrite <-Hturns.
    destruct (Nat.ltb_spec 0 remaining) as [Hrem|Hrem]; simpl andb;
      [|split_and!; try done; left; lia].
    destruct (sub_length_head (_spans b) span 1 Hwf Hp)
      as (rest & Hc & Hc' & Hd' & Hwf' & Hp' & Hsz').
    unfold spans_of in HR, HT. rewrite Hc, span_total_cons in HR, HT.
    rewrite Hty in HR, HT. rewrite decide_True in HR by done.
    rewrite decide_False in HT by done.
    unfold span_length in Hturns. rewrite <-Hturns in HR.
    unfold ring_buffer.size in HR, HT.
    destruct (peek_is_Some (_records b)) as [p ->]; [lia|].
    assert (∀ rem o,
      rem + length o = remaining + length out →
      let '(remaining', out', b') :=
        Read_text_Record turns span rem o
          (set_spans (sub_length span 1 (_spans (set_records
             (ring_buffer.advance 1 (_records b)) b)))
             (set_records (ring_buffer.advance 1 (_records b)) b)) in
      indexed b' ∧ ring_buffer.peek (_spans b') = Some span ∧
      ring_buffer._size (_spans b') = ring_buffer._size (_spans b) ∧
      (remaining' = 0 ∨ span_length b' span = 0) ∧
      remaining' + length out' = remaining + length out) as Hstep.
    { intros rem o Hro.
      match goal with |- context [Read_text_Record turns span rem o ?b1] =>
        specialize (IH rem o b1) end.
      destruct (Read_text_Record _ _ _ _ _) as [[rem' out'] b'].
      destruct IH as (? & ? & Hs & ? & Hl).
      - split; [done|]. unfold lossless_index, spans_of, ring_buffer.size. simpl.
        rewrite Hc', span_total_cons, span_total_cons. simpl. rewrite Hty.
        rewrite decide_True by done. rewrite decide_False by done.
        rewrite <-Hturns. lia.
      - done.
      - simpl. by rewrite Hd'.
      - unfold span_length. simpl. rewrite Hd'. simpl. rewrite <-Hturns. lia.
      - split_and!; try done; simpl in *; lia. }
    destruct (_ && _).
    + apply Hstep. rewrite length_app. simpl. lia.
    + by apply Hstep.
Qed.

Lemma advance_if_done_indexed span b :
  indexed b → ring_buffer.peek (_spans b) = Some span →
  indexed (advance_if_done span b) ∧
  (span_length b span = 0 →
   ring_buffer._size (_spans (advance_if_done span b)) < ring_buffer._size (_spans b)) ∧
  (span_length b span ≠ 0 → advance_if_done span b = b).
Proof.
  intros [Hwf [HR HT]] Hp. unfold advance_if_done.
  destruct (Nat.eqb_spec (span_length b span) 0) as [E|E]; [|done].
  destruct (sub_length_head (_spans b) span 0 Hwf Hp) as (rest & Hc & _).
  destruct (advance_spec 1 (_spans b) Hwf) as [Hwf' Hc'].
  destruct (peek_Some _ _ Hwf Hp) as [Hsz _].
  split_and!; [|intros _; simpl; lia|done].
  split; [done|]. unfold lossless_index, spans_of in *. simpl.
  rewrite Hc', Hc. simpl. rewrite Hc, !span_total_cons in HR, HT.
  unfold span_length in E. rewrite E in HR, HT.
  rewrite drop_0. split; [rewrite <-HR|rewrite <-HT];
    (match goal with |- context [decide ?P] => destruct (decide P) end); reflexivity.
Qed.

Lemma read_n_size {T} `{!Trivial T} n (q : ring_buffer T) :
  ring_buffer._size (ring_buffer.read_n n q).2
  = ring_buffer._size q - min (ring_buffer._size q) n.
Proof. unfold ring_buffer.read_n. by destruct (_ <? _). Qed.

(** On an indexed buffer the character view's loop ends within one turn per
    span and one more, and leaves the buffer indexed. *)
Lemma Read_text_loop_indexed fuel remaining out b :
  indexed b → ring_buffer._size (_spans b) < fuel →
  ∃ remaining' out' b',
    Read_text_loop fuel remaining out b = Some (remaining', out', b') ∧ indexed b'.
Proof.
  revert remaining out b.
  induction fuel as [|fuel IH]; intros remaining out b Hb Hfuel; [lia|].
  cbn [Read_text_loop].
  destruct (Nat.eqb_spec remaining 0) as [E|E]; [by eauto|].
  destruct (ring_buffer.peek (_spans b)) as [span|] eqn:Hp; [|by eauto].
  destruct Hb as [Hwf [HR HT]].
  destruct (peek_Some _ _ Hwf Hp) as [Hsz _].
  destruct (Span.type (ring_buffer.deref (_spans b) span)) eqn:Hty.
  - pose proof (Read_text_Record_indexed (span_length b span) span remaining out b
                  (conj Hwf (conj HR HT)) Hp Hty eq_refl) as L.
    destruct (Read_text_Record _ _ _ _ _) as [[rem1 out1] b1].
    destruct L as (Hb1 & Hp1 & Hs1 & Hor & _).
    destruct (advance_if_done_indexed span b1 Hb1 Hp1) as (Hb2 & Hlt & Hsame).
    destruct (decide (span_length b1 span = 0)) as [Hz|Hnz].
    + apply IH; [done|]. specialize (Hlt Hz). lia.
    + rewrite Hsame by done. destruct Hor as [->|?]; [|done].
      destruct fuel; [lia|]. simpl. eauto.
  - destruct (sub_length_head (_spans b) span (min remaining (span_length b span)) Hwf Hp)
      as (rest & Hc & Hc' & Hd' & Hwf' & Hp' & Hsz').
    destruct (ring_buffer.read_n _ (_text b)) as [data text] eqn:Hrd.
    pose proof (read_n_size (min remaining (span_length b span)) (_text b)) as Hts.
    rewrite Hrd in Hts. simpl in Hts.
    set (b1 := set_spans _ _).
    assert (indexed b1) as Hb1.
    { split; [done|]. unfold lossless_index, spans_of, ring_buffer.size in *.
      subst b1. simpl. rewrite Hc'. rewrite Hc in HR, HT.
      rewrite !span_total_cons in *. simpl. rewrite Hty in *.
      rewrite decide_False in * by done. rewrite decide_True in * by done.
      unfold span_length in *. split; [done|]. rewrite Hts. lia. }
    assert (ring_buffer.peek (_spans b1) = Some span) as Hp1 by done.
    destruct (advance_if_done_indexed span b1 Hb1 Hp1) as (Hb2 & Hlt & Hsame).
    destruct (decide (span_length b1 span = 0)) as [Hz|Hnz].
    + apply IH; [done|]. specialize (Hlt Hz). subst b1. simpl in *. lia.
    + rewrite Hsame by done.
      assert (remaining - min remaining (span_length b span) = 0) as ->.
      { unfold span_length in Hnz. subst b1. simpl in Hnz. rewrite Hd' in Hnz.
        simpl in Hnz. unfold span_length in *. lia. }
      destruct fuel; [lia|]. simpl. eauto.
Qed.

Lemma Write_indexed records w w' :
  indexed (this w) → Write records w = Ok tt w' → indexed (this w').
Proof.
  intros (Hwf & HR & HT). unfold Write. destruct records as [|r records].
  { simpl. by intros [= <-]. }
  change (negb (length (r :: records) =? 0)) with true. cbv iota.
  unfold mbind, M_bind. unfold on_ring at 1.
  destruct (ring_buffer.write_n (r :: records) _ _) as [r1 h1|e h1| |] eqn:W; try done.
  apply write_n_size in W.
  match goal with |- _writeSpan ?t ?n ?w1 = _ → _ =>
    pose proof (_writeSpan_spans t n w1 Hwf) as S; intros H; rewrite H in S end.
  destruct S as (Hwf' & Hc & Hr & Ht). split; [done|].
  unfold lossless_index, ring_buffer.size in *. rewrite Hc, Hr, Ht, !span_total_merge.
  unfold spans_of in *. simpl in *. rewrite HR, HT.
  repeat case_decide; try done; lia.
Qed.

Lemma Write_text_try_indexed text w w' :
  indexed (this w) → Write_text_try text w = Ok tt w' → indexed (this w').
Proof.
  intros (Hwf & HR & HT). unfold Write_text_try. destruct text as [|c text].
  { simpl. by intros [= <-]. }
  change (negb (length (c :: text) =? 0)) with true. cbv iota.
  unfold mbind, M_bind. unfold on_ring at 1.
  destruct (ring_buffer.write_n (c :: text) _ _) as [r1 h1|e h1| |] eqn:W; try done.
  apply write_n_size in W.
  match goal with |- _writeSpan ?t ?n ?w1 = _ → _ =>
    pose proof (_writeSpan_spans t n w1 Hwf) as S; intros H; rewrite H in S end.
  destruct S as (Hwf' & Hc & Hr & Ht). split; [done|].
  unfold lossless_index, ring_buffer.size in *. rewrite Hc, Hr, Ht, !span_total_merge.
  unfold spans_of in *. simpl in *. rewrite HR, HT.
  repeat case_decide; try done; lia.
Qed.

Lemma Flush_indexed w w' :
  ring_buffer.wf (_spans (this w)) → Flush w = Ok tt w' → indexed (this w').
Proof.
  intros Hwf. unfold Flush, on_this, emit, modify, mbind, M_bind. intros [= <-]. simpl.
  destruct (wf_clear _ Hwf) as [Hwf' Hc]. split; [done|].
  unfold lossless_index, spans_of. simpl. by rewrite Hc.
Qed.

Lemma indexed_new : indexed InputBuffer_new.
Proof. split; [apply wf_init|done]. Qed.

Lemma Read_text_indexed fuel wide peek capacity b :
  indexed b → ring_buffer.size (_spans b) < fuel →
  ∃ n out b', Read_text fuel wide peek capacity b = Some (n, out, b') ∧
    n ≤ capacity ∧ indexed b'.
Proof.
  intros Hb Hfuel. unfold Read_text. destruct wide; simpl.
  - destruct (Read_text_loop_indexed fuel capacity [] b Hb Hfuel)
      as (remaining & out & b' & -> & Hb').
    simpl. exists (capacity - remaining), out, b'. split_and!; [done|lia|done].
  - exists 0, [], b. split_and!; [done|lia|done].
Qed.

(** X6. Lossless index, the calls that keep it. From a buffer whose span ring
    is a lossless index into the two content rings (the lengths of the
    Record spans sum to the size of the record ring, those of the Text spans
    to the size of the text ring), a write of records that returns normally,
    a write of text whose [try] block returns normally, and [Flush] lead to
    a buffer whose span ring is one again. A new buffer is one. *)
Theorem lossless_index_preserved w :
  indexed (this w) →
  (∀ records w', Write records w = Ok tt w' → indexed (this w')) ∧
  (∀ text w', Write_text_try text w = Ok tt w' →
     Write_text text w = Ok tt w' ∧ indexed (this w')) ∧
  (∀ w', Flush w = Ok tt w' → indexed (this w')) ∧
  indexed InputBuffer_new.
Proof.
  intros Hw. split_and!.
  - intros records w'. by apply Write_indexed.
  - intros text w' H. split.
    + unfold Write_text, CATCH_LOG. by rewrite H.
    + by eapply Write_text_try_indexed.
  - intros w'. apply Flush_indexed, Hw.
  - apply indexed_new.
Qed.

(** X7. The character view returns. On a buffer whose span ring is a
    lossless index, [Read] into a buffer of characters ends after at most
    one turn of its outer loop per span and one more, returns a count that
    is at most [capacity], and leaves the span ring a lossless index. *)
Theorem Read_text_returns fuel wide peek capacity b :
  indexed b → ring_buffer.size (_spans b) < fuel →
  ∃ n out b', Read_text fuel wide peek capacity b = Some (n, out, b') ∧
    n ≤ capacity ∧ indexed b'.
Proof. apply Read_text_indexed. Qed.

(** X8. A write that fails half way. From a buffer whose span ring is a
    lossless index, a write of records that throws, and a write of text
    whose [try] block throws (the call then logs and returns, C9), leave the
    buffer as it was when the allocation that failed was the content
    ring's; when it was the span ring's, the content ring has taken the
    input and no span accounts for it: the span ring is no lossless index
    any more. The latter happens: a new buffer whose first allocation
    succeeds and whose second fails takes the text "a" with no span. *)
Theorem Write_text_caught_exception_loses_index :
  (∀ w, indexed (this w) →
     (∀ records e w', Write records w = Throw e w' →
        this w' = this w ∨
        (_spans (this w') = _spans (this w) ∧
         ring_buffer._size (_records (this w'))
         = ring_buffer._size (_records (this w)) + length records ∧
         ¬ lossless_index (this w'))) ∧
     (∀ text e w', Write_text_try text w = Throw e w' →
        this w' = this w ∨
        (_spans (this w') = _spans (this w) ∧
         ring_buffer._size (_text (this w'))
         = ring_buffer._size (_text (this w)) + length text ∧
         ¬ lossless_index (this w')))) ∧
  (∃ w', Write_text [0x61%Z] (world_new [true; false]) = Ok tt w' ∧
     calls w' = [LOG_CAUGHT_EXCEPTION bad_alloc] ∧
     ring_buffer.size (_text (this w')) = 1 ∧ spans_of (this w') = [] ∧
     ¬ lossless_index (this w')).
Proof.
  split.
  - intros w (Hwf & HR & HT). split.
    + intros records e w'. unfold Write. destruct records as [|r records]; [done|].
      change (negb (length (r :: records) =? 0)) with true. cbv iota.
      unfold mbind, M_bind. unfold on_ring at 1.
      destruct (ring_buffer.write_n (r :: records) _ _) as [r1 h1|e1 h1| |] eqn:W; try done.
      * apply write_n_size in W.
        match goal with |- _writeSpan ?t ?n ?w1 = _ → _ =>
          pose proof (_writeSpan_spans t n w1 Hwf) as S; intros H; rewrite H in S end.
        right. rewrite S. simpl. split_and!; try done.
        unfold lossless_index, spans_of, ring_buffer.size in *. simpl.
        intros [HR' _]. simpl in *. lia.
      * intros [= _ <-]. by left.
    + intros text e w'. unfold Write_text_try. destruct text as [|c text]; [done|].
      change (negb (length (c :: text) =? 0)) with true. cbv iota.
      unfold mbind, M_bind. unfold on_ring at 1.
      destruct (ring_buffer.write_n (c :: text) _ _) as [r1 h1|e1 h1| |] eqn:W; try done.
      * apply write_n_size in W.
        match goal with |- _writeSpan ?t ?n ?w1 = _ → _ =>
          pose proof (_writeSpan_spans t n w1 Hwf) as S; intros H; rewrite H in S end.
        right. rewrite S. simpl. split_and!; try done.
        unfold lossless_index, spans_of, ring_buffer.size in *. simpl.
        intros [_ HT']. simpl in *. lia.
      * intros [= _ <-]. by left.
  - eexists. split; [evaluate|]. split_and!; try done.
    unfold lossless_index. vm_compute. intros [_ ?]. discriminate.
Qed.

End index_facts.

(** ** The rings as one queue of input *)

Import ring_buffer_laws.

Section queue_facts.
Context `{!Trivial Span, !Trivial INPUT_RECORD, !Trivial wchar_t}.
Implicit Types (b : InputBuffer) (spans : list Span) (l : list item).

Lemma items_zero s spans records text :
  Span.length s = 0 → items (s :: spans) records text = items spans records text.
Proof. intros E. simpl. rewrite E. by destruct (Span.type s). Qed.

Lemma items_Record s spans records text k :
  Span.type s = Record_ → k ≤ Span.length s →
  items (s :: spans) records text
  = (Record_item <$> take k records)
    ++ items (Span.mk Record_ (Span.length s - k) :: spans) (drop k records) text.
Proof.
  intros E Hk. simpl. rewrite E, app_assoc, <-fmap_app, take_take_drop, drop_drop.
  by replace (k + (Span.length s - k)) with (Span.length s) by lia.
Qed.

Lemma items_Text s spans records text k :
  Span.type s = Text → k ≤ Span.length s →
  items (s :: spans) records text
  = (Text_item <$> take k text)
    ++ items (Span.mk Text (Span.length s - k) :: spans) records (drop k text).
Proof.
  intros E Hk. simpl. rewrite E, app_assoc, <-fmap_app, take_take_drop, drop_drop.
  by replace (k + (Span.length s - k)) with (Span.length s) by lia.
Qed.

Lemma take_chars_0 l : take_chars 0 l = [].
Proof. by destruct l. Qed.

Lemma chars_of_app l1 l2 : chars_of (l1 ++ l2) = chars_of l1 ++ chars_of l2.
Proof. unfold chars_of. by rewrite fmap_app, concat_app. Qed.

Lemma chars_of_text (data : list wchar_t) : chars_of (Text_item <$> data) = data.
Proof.
  induction data as [|c data IH]; [done|].
  change (chars_of (Text_item <$> c :: data)) with (c :: chars_of (Text_item <$> data)).
  by rewrite IH.
Qed.

Lemma item_chars_length i : length (item_chars i) ≤ 1.
Proof. destruct i as [r|c]; simpl; [|lia]. destruct (_ && _); simpl; lia. Qed.

Lemma take_chars_text (data : list wchar_t) n l :
  length data ≤ n →
  take_chars n ((Text_item <$> data) ++ l)
  = (Text_item <$> data) ++ take_chars (n - length data) l.
Proof.
  revert n. induction data as [|c data IH]; intros n Hn; simpl in *.
  - by rewrite Nat.sub_0_r.
  - destruct (Nat.eqb_spec n 0); [lia|]. rewrite IH by lia.
    by replace (n - 1 - length data) with (n - S (length data)) by lia.
Qed.

Lemma take_chars_length n l : length (chars_of (take_chars n l)) ≤ n.
Proof.
  revert n. induction l as [|i l IH]; intros n; simpl; [lia|].
  destruct (Nat.eqb_spec n 0); simpl; [lia|].
  change (chars_of (i :: ?k)) with (item_chars i ++ chars_of k).
  rewrite length_app. pose proof (item_chars_length i).
  specialize (IH (n - length (item_chars i))). lia.
Qed.

Lemma take_chars_all n l : length (chars_of (take_chars n l)) < n → take_chars n l = l.
Proof.
  revert n. induction l as [|i l IH]; intros n; simpl; [done|].
  destruct (Nat.eqb_spec n 0); simpl; [lia|].
  change (chars_of (i :: ?k)) with (item_chars i ++ chars_of k).
  rewrite length_app. intros H. f_equal. apply IH. lia.
Qed.

Lemma take_chars_prefix n l : ∃ rest, l = take_chars n l ++ rest.
Proof.
  revert n. induction l as [|i l IH]; intros n; simpl; [by exists []|].
  destruct (n =? 0); [by eexists|].
  destruct (IH (n - length (item_chars i))) as [rest Hr]. exists rest.
  simpl. by rewrite <-Hr.
Qed.

Lemma fmap_Record_item_inj (d1 d2 : list INPUT_RECORD) :
  Record_item <$> d1 = Record_item <$> d2 → d1 = d2.
Proof.
  revert d2. induction d1 as [|x d1 IH]; intros [|y d2]; simpl; try done.
  intros [= -> ?]. f_equal. by apply IH.
Qed.

Lemma consistent_new : consistent InputBuffer_new.
Proof. split_and!; try apply wf_init. done. Qed.

Lemma pending_new : pending InputBuffer_new = [].
Proof. done. Qed.

(** The first [can] records of the span at the head of the span ring
    leave the record ring. *)
Lemma records_step can span b :
  consistent b → ring_buffer.peek (_spans b) = Some span →
  Span.type (ring_buffer.deref (_spans b) span) = Record_ →
  can ≤ span_length b span →
  let b1 := set_spans (sub_length span can (_spans b))
              (set_records (ring_buffer.advance can (_records b)) b) in
  pending b = (Record_item <$> take can (ring_buffer.contents (_records b))) ++ pending b1 ∧
  can ≤ length (ring_buffer.contents (_records b)) ∧
  consistent b1 ∧ ring_buffer.peek (_spans b1) = Some span ∧
  Span.type (ring_buffer.deref (_spans b1) span) = Record_ ∧
  span_length b1 span = span_length b span - can ∧
  ring_buffer._size (_spans b1) = ring_buffer._size (_spans b).
Proof.
  intros (Hs & Hr & Ht & HR & HT) Hp Hty Hcan b1.
  destruct (sub_length_head (_spans b) span can Hs Hp)
    as (rest & Hc & Hc' & Hd' & Hwf' & Hp' & Hsz').
  destruct (advance_spec can (_records b) Hr) as [Hr' Hrc].
  unfold lossless_index, spans_of, ring_buffer.size, span_length in *.
  rewrite Hc, !span_total_cons, Hty in HR, HT.
  rewrite decide_True in HR by done. rewrite decide_False in HT by done.
  pose proof (length_contents _ Hr) as Hlen.
  split_and!; try done.
  - unfold pending, spans_of. simpl. rewrite Hc', Hrc, Hc, Hty.
    by apply items_Record.
  - lia.
  - split_and!; try done. unfold lossless_index, spans_of, ring_buffer.size.
    simpl. rewrite Hc', !span_total_cons, Hty. simpl.
    repeat case_decide; try done; lia.
  - simpl. by rewrite Hd', Hty.
  - simpl. by rewrite Hd'.
Qed.

(** The first [can] code units of the span at the head of the span ring
    leave the text ring. *)
Lemma text_step can span b :
  consistent b → ring_buffer.peek (_spans b) = Some span →
  Span.type (ring_buffer.deref (_spans b) span) = Text →
  can ≤ span_length b span →
  let b1 := set_spans (sub_length span can (_spans b))
              (set_text (ring_buffer.advance can (_text b)) b) in
  pending b = (Text_item <$> take can (ring_buffer.contents (_text b))) ++ pending b1 ∧
  can ≤ length (ring_buffer.contents (_text b)) ∧
  consistent b1 ∧ ring_buffer.peek (_spans b1) = Some span ∧
  Span.type (ring_buffer.deref (_spans b1) span) = Text ∧
  span_length b1 span = span_length b span - can ∧
  ring_buffer._size (_spans b1) = ring_buffer._size (_spans b).
Proof.
  intros (Hs & Hr & Ht & HR & HT) Hp Hty Hcan b1.
  destruct (sub_length_head (_spans b) span can Hs Hp)
    as (rest & Hc & Hc' & Hd' & Hwf' & Hp' & Hsz').
  destruct (advance_spec can (_text b) Ht) as [Ht' Htc].
  unfold lossless_index, spans_of, ring_buffer.size, span_length in *.
  rewrite Hc, !span_total_cons, Hty in HR, HT.
  rewrite decide_False in HR by done. rewrite decide_True in HT by done.
  pose proof (length_contents _ Ht) as Hlen.
  split_and!; try done.
  - unfold pending, spans_of. simpl. rewrite Hc', Htc, Hc, Hty.
    by apply items_Text.
  - lia.
  - split_and!; try done. unfold lossless_index, spans_of, ring_buffer.size.
    simpl. rewrite Hc', !span_total_cons, Hty. simpl.
    repeat case_decide; try done; lia.
  - simpl. by rewrite Hd', Hty.
  - simpl. by rewrite Hd'.
Qed.

Lemma advance_if_done_pending span b :
  consistent b → ring_buffer.peek (_spans b) = Some span →
  consistent (advance_if_done span b) ∧
  pending (advance_if_done span b) = pending b ∧
  (span_length b span = 0 →
   ring_buffer._size (_spans (advance_if_done span b)) < ring_buffer._size (_spans b)) ∧
  (span_length b span ≠ 0 → advance_if_done span b = b).
Proof.
  intros (Hs & Hr & Ht & Hi) Hp.
  destruct (advance_if_done_indexed span b (conj Hs Hi) Hp) as ([Hs' Hi'] & Hlt & Hsame).
  assert (_records (advance_if_done span b) = _records b ∧
          _text (advance_if_done span b) = _text b) as [Er Et].
  { unfold advance_if_done. by destruct (_ =? _). }
  split_and!; try done.
  { unfold consistent. by rewrite Er, Et. }
  unfold pending. rewrite Er, Et. unfold advance_if_done, spans_of.
  destruct (Nat.eqb_spec (span_length b span) 0) as [E|E]; [|done]. simpl.
  destruct (sub_length_head (_spans b) span 0 Hs Hp) as (rest & Hc & _).
  rewrite (proj2 (advance_spec 1 _ Hs)), Hc. simpl drop. rewrite drop_0.
  symmetry. by apply items_zero.
Qed.

Lemma pending_no_span b :
  ring_buffer.wf (_spans b) → ring_buffer.peek (_spans b) = None → pending b = [].
Proof.
  intros Hs Hp. unfold pending, spans_of.
  apply peek_None in Hp. by rewrite (proj2 (contents_nil _ Hs) Hp).
Qed.

(** The character view's loop over a Record span takes records from the
    front of the queue, while there is room for a code unit and the span has
    records. *)
Lemma Read_text_Record_pending turns span remaining out b :
  consistent b → ring_buffer.peek (_spans b) = Some span →
  Span.type (ring_buffer.deref (_spans b) span) = Record_ →
  turns = span_length b span →
  ∃ prefix remaining' b',
    Read_text_Record turns span remaining out b = (remaining', out ++ chars_of prefix, b') ∧
    pending b = prefix ++ pending b' ∧
    remaining' + length (chars_of prefix) = remaining ∧
    (∀ l, take_chars remaining (prefix ++ l) = prefix ++ take_chars remaining' l) ∧
    consistent b' ∧ ring_buffer.peek (_spans b') = Some span ∧
    ring_buffer._size (_spans b') = ring_buffer._size (_spans b) ∧
    (remaining' = 0 ∨ span_length b' span = 0).
Proof.
  revert remaining out b.
  induction turns as [|turns IH]; intros remaining out b Hb Hp Hty Hturns.
  { exists [], remaining, b. simpl. rewrite app_nil_r. split_and!; try done; lia. }
  cbn [Read_text_Record]. rewrite <-Hturns.
  destruct (Nat.ltb_spec 0 remaining) as [Hrem|Hrem]; simpl.
  2: { exists [], remaining, b. simpl. rewrite app_nil_r.
       split_and!; try done; lia. }
  destruct (records_step 1 span b Hb Hp Hty ltac:(lia))
    as (Hpend & Hlen & Hb1 & Hp1 & Hty1 & Hsl1 & Hsz1).
  destruct Hb as (Hs & Hr & Ht & Hi).
  destruct (peek_is_Some_size (_records b)) as [p Hpr].
  { rewrite <-(length_contents _ Hr). lia. }
  rewrite Hpr. pose proof (peek_head _ p Hr Hpr) as Hhead.
  set (r := ring_buffer.deref (_records b) p) in *.
  assert (take 1 (ring_buffer.contents (_records b)) = [r]) as Htake.
  { destruct (ring_buffer.contents (_records b)); [done|]. by injection Hhead as ->. }
  rewrite Htake in Hpend.
  set (b1 := set_spans _ _) in *.
  set (key := (EventType r =? KEY_EVENT)%Z && bKeyDown (KeyEvent r)
              && negb (UnicodeChar (KeyEvent r) =? 0)%Z).
  assert (item_chars (Record_item r)
          = if key then [UnicodeChar (KeyEvent r)] else []) as Hchars by done.
  set (remaining1 := remaining - length (item_chars (Record_item r))).
  destruct (IH remaining1 (out ++ item_chars (Record_item r)) b1 Hb1 Hp1 Hty1)
    as (prefix & remaining' & b' & Hrun & Hpend' & Hcount & Htake' & Hb' & Hp' & Hsz' & Hor).
  { rewrite Hsl1. lia. }
  exists (Record_item r :: prefix), remaining', b'.
  assert (length (item_chars (Record_item r)) ≤ 1) as Hle by apply item_chars_length.
  split_and!; try done.
  - change (chars_of (Record_item r :: prefix))
      with (item_chars (Record_item r) ++ chars_of prefix).
    rewrite app_assoc, <-Hrun. subst remaining1. rewrite Hchars.
    destruct key; simpl; [done|]. by rewrite app_nil_r, Nat.sub_0_r.
  - rewrite Hpend, Hpend'. done.
  - change (chars_of (Record_item r :: prefix))
      with (item_chars (Record_item r) ++ chars_of prefix).
    rewrite length_app. subst remaining1. lia.
  - intros l. cbn [app take_chars]. destruct (Nat.eqb_spec remaining 0); [lia|].
    by rewrite Htake'.
Qed.

(** The character view's loop takes from the front of the queue, item
    after item, while there is room for a code unit. *)
Lemma Read_text_loop_pending fuel remaining out b :
  consistent b → ring_buffer._size (_spans b) < fuel →
  let taken := take_chars remaining (pending b) in
  ∃ b', Read_text_loop fuel remaining out b
        = Some (remaining - length (chars_of taken), out ++ chars_of taken, b') ∧
        pending b = taken ++ pending b' ∧ consistent b'.
Proof.
  revert remaining out b.
  induction fuel as [|fuel IH]; intros remaining out b Hb Hfuel; [lia|].
  intros taken. subst taken. cbn [Read_text_loop].
  destruct (Nat.eqb_spec remaining 0) as [E|E].
  { subst remaining. rewrite take_chars_0. exists b. unfold chars_of. simpl.
    by rewrite app_nil_r. }
  destruct (ring_buffer.peek (_spans b)) as [span|] eqn:Hp.
  2: { assert (pending b = []) as Hpn by (apply pending_no_span; [apply Hb|done]).
       exists b. rewrite Hpn. simpl. unfold chars_of. simpl.
       by rewrite app_nil_r, Nat.sub_0_r. }
  assert (0 < ring_buffer._size (_spans b)) as Hsz.
  { destruct Hb as (Hs & _). by destruct (peek_Some _ _ Hs Hp). }
  match goal with |- ∃ b', ?lhs = _ ∧ _ =>
  assert (∃ prefix remaining1 b1,
            lhs
            = Read_text_loop fuel remaining1 (out ++ chars_of prefix)
                (advance_if_done span b1) ∧
            pending b = prefix ++ pending b1 ∧
            remaining1 + length (chars_of prefix) = remaining ∧
            (∀ l, take_chars remaining (prefix ++ l) = prefix ++ take_chars remaining1 l) ∧
            consistent b1 ∧ ring_buffer.peek (_spans b1) = Some span ∧
            ring_buffer._size (_spans b1) = ring_buffer._size (_spans b) ∧
            (remaining1 = 0 ∨ span_length b1 span = 0)) as Hstep end.
  { destruct (Span.type (ring_buffer.deref (_spans b) span)) eqn:Hty.
    - destruct (Read_text_Record_pending (span_length b span) span remaining out b
                  Hb Hp Hty eq_refl)
        as (prefix & remaining1 & b1 & -> & H).
      by exists prefix, remaining1, b1.
    - set (can := min remaining (span_length b span)). cbv zeta.
      destruct (text_step can span b Hb Hp Hty ltac:(lia))
        as (Hpend & Hlen & Hb1 & Hp1 & Hty1 & Hsl1 & Hsz1).
      destruct Hb as (Hs & Hr & Ht & Hi).
      destruct (read_n_spec can (_text b) Ht) as (Hd & _ & _).
      pose proof (read_n_advance can (_text b)) as Ha.
      destruct (ring_buffer.read_n can (_text b)) as [data text]. simpl in Hd, Ha.
      subst data text.
      exists (Text_item <$> take can (ring_buffer.contents (_text b))), (remaining - can),
        (set_spans (sub_length span can (_spans b))
           (set_text (ring_buffer.advance can (_text b)) b)).
      rewrite chars_of_text.
      assert (length (take can (ring_buffer.contents (_text b))) = can) as Hl
        by (rewrite length_take; lia).
      split_and!; try done; rewrite ?Hl, ?Hsl1; try lia.
      intros l. rewrite take_chars_text by lia. by rewrite Hl. }
  destruct Hstep as (prefix & remaining1 & b1 & -> & Hpend & Hcount & Htake & Hb1 & Hp1
                     & Hsz1 & Hor).
  destruct (advance_if_done_pending span b1 Hb1 Hp1) as (Hb2 & Hpend2 & Hlt & Hsame).
  rewrite <-Hpend2 in Hpend.
  assert (∃ b', Read_text_loop fuel remaining1 (out ++ chars_of prefix)
                  (advance_if_done span b1)
                = Some (remaining1
                        - length (chars_of (take_chars remaining1
                                              (pending (advance_if_done span b1)))),
                        (out ++ chars_of prefix)
                        ++ chars_of (take_chars remaining1
                                       (pending (advance_if_done span b1))), b') ∧
                pending (advance_if_done span b1)
                = take_chars remaining1 (pending (advance_if_done span b1)) ++ pending b' ∧
                consistent b') as (b' & -> & Hpend' & Hb').
  { destruct (decide (span_length b1 span = 0)) as [Hz|Hnz].
    - apply IH; [done|]. specialize (Hlt Hz). lia.
    - destruct Hor as [->|?]; [|done]. rewrite take_chars_0.
      destruct fuel; [lia|]. exists (advance_if_done span b1). simpl.
      by rewrite app_nil_r. }
  exists b'. rewrite Hpend, Htake, chars_of_app, length_app, <-app_assoc.
  split_and!; [|by rewrite <-app_assoc, <-Hpend'|done].
  do 2 f_equal. f_equal. lia.
Qed.

(** The record view's loop takes records from the front of the queue, as
    long as the [remaining] first items of the queue are records. *)
Lemma Read_records_loop_pending fuel remaining data0 b (d : list INPUT_RECORD) :
  consistent b → ring_buffer._size (_spans b) < fuel →
  take remaining (pending b) = Record_item <$> d →
  ∃ b', Read_records_loop fuel remaining data0 b
        = Some (remaining - length d, data0 ++ d, b') ∧
        pending b = (Record_item <$> d) ++ pending b' ∧ consistent b'.
Proof.
  revert remaining data0 b d.
  induction fuel as [|fuel IH]; intros remaining data0 b d Hb Hfuel Hd; [lia|].
  cbn [Read_records_loop].
  destruct (Nat.eqb_spec remaining 0) as [E|E].
  { subst remaining. simpl in Hd. symmetry in Hd. apply fmap_nil_inv in Hd as ->.
    exists b. simpl. by rewrite app_nil_r. }
  destruct (ring_buffer.peek (_spans b)) as [span|] eqn:Hp.
  2: { assert (pending b = []) as Hpn by (apply pending_no_span; [apply Hb|done]).
       rewrite Hpn, take_nil in Hd. symmetry in Hd. apply fmap_nil_inv in Hd as ->.
       exists b. rewrite Hpn. simpl. by rewrite app_nil_r, Nat.sub_0_r. }
  assert (0 < ring_buffer._size (_spans b)) as Hsz.
  { destruct Hb as (Hs & _). by destruct (peek_Some _ _ Hs Hp). }
  match goal with |- ∃ b', ?lhs = _ ∧ _ =>
  assert (∃ (prefix : list INPUT_RECORD) b1,
            lhs
            = Read_records_loop fuel (remaining - length prefix) (data0 ++ prefix)
                (advance_if_done span b1) ∧
            pending b = (Record_item <$> prefix) ++ pending b1 ∧
            length prefix ≤ remaining ∧
            consistent b1 ∧ ring_buffer.peek (_spans b1) = Some span ∧
            ring_buffer._size (_spans b1) = ring_buffer._size (_spans b) ∧
            (remaining - length prefix = 0 ∨ span_length b1 span = 0)) as Hstep end.
  { destruct (Span.type (ring_buffer.deref (_spans b) span)) eqn:Hty.
    - set (can := min remaining (span_length b span)). cbv zeta.
      destruct (records_step can span b Hb Hp Hty ltac:(lia))
        as (Hpend & Hlen & Hb1 & Hp1 & Hty1 & Hsl1 & Hsz1).
      destruct Hb as (Hs & Hr & Ht & Hi).
      destruct (read_n_spec can (_records b) Hr) as (Hrd & _ & _).
      pose proof (read_n_advance can (_records b)) as Ha.
      destruct (ring_buffer.read_n can (_records b)) as [read records]. simpl in Hrd, Ha.
      subst read records.
      assert (length (take can (ring_buffer.contents (_records b))) = can) as Hl
        by (rewrite length_take; lia).
      exists (take can (ring_buffer.contents (_records b))),
        (set_spans (sub_length span can (_spans b))
           (set_records (ring_buffer.advance can (_records b)) b)).
      rewrite Hl. split_and!; try done; [lia|]. rewrite Hsl1. lia.
    - destruct (Nat.eq_dec (span_length b span) 0) as [Hz|Hnz].
      + rewrite Hz. simpl. exists [], b. rewrite app_nil_r, Nat.sub_0_r. simpl.
        split_and!; try done; [lia|by right].
      + exfalso.
        destruct (text_step 1 span b Hb Hp Hty ltac:(lia)) as (Hpend & Hlen & _).
        rewrite Hpend in Hd.
        destruct (ring_buffer.contents (_text b)) as [|c text]; [simpl in Hlen; lia|].
        destruct remaining; [done|]. simpl in Hd. by destruct d. }
  destruct Hstep as (prefix & b1 & -> & Hpend & Hle & Hb1 & Hp1 & Hsz1 & Hor).
  destruct (advance_if_done_pending span b1 Hb1 Hp1) as (Hb2 & Hpend2 & Hlt & Hsame).
  rewrite <-Hpend2 in Hpend.
  rewrite Hpend, take_app_ge, length_fmap in Hd by (rewrite length_fmap; lia).
  assert (prefix = take (length prefix) d ∧
          take (remaining - length prefix) (pending (advance_if_done span b1))
          = Record_item <$> drop (length prefix) d) as [Hpre Hrest].
  { split.
    - apply fmap_Record_item_inj. rewrite fmap_take, <-Hd.
      by rewrite take_app_length' by (by rewrite length_fmap).
    - rewrite fmap_drop, <-Hd. by rewrite drop_app_length' by (by rewrite length_fmap). }
  assert (d = prefix ++ drop (length prefix) d) as Hsplit.
  { rewrite Hpre at 1. by rewrite take_drop. }
  assert (∃ b', Read_records_loop fuel (remaining - length prefix) (data0 ++ prefix)
                  (advance_if_done span b1)
                = Some (remaining - length prefix - length (drop (length prefix) d),
                        (data0 ++ prefix) ++ drop (length prefix) d, b') ∧
                pending (advance_if_done span b1)
                = (Record_item <$> drop (length prefix) d) ++ pending b' ∧
                consistent b') as (b' & -> & Hpend' & Hb').
  { destruct (decide (span_length b1 span = 0)) as [Hz|Hnz].
    - apply IH; [done| |done]. specialize (Hlt Hz). lia.
    - destruct Hor as [Hr0|?]; [|done]. rewrite Hr0 in *. simpl in Hrest.
      symmetry in Hrest. apply fmap_nil_inv in Hrest. rewrite Hrest.
      destruct fuel; [lia|]. exists (advance_if_done span b1). simpl.
      by rewrite app_nil_r. }
  exists b'. split_and!; [|by rewrite Hpend, Hpend', app_assoc, <-fmap_app, <-Hsplit|done].
  rewrite <-app_assoc, <-Hsplit. do 2 f_equal. f_equal.
  rewrite Hsplit at 2. rewrite length_app. lia.
Qed.

Lemma items_snoc spans s records text :
  items (spans ++ [s]) records text
  = items spans records text
    ++ items [s] (drop (span_total Record_ spans) records)
         (drop (span_total Text spans) text).
Proof.
  revert records text. induction spans as [|a spans IH]; intros records text; [done|].
  rewrite !span_total_cons. cbn [app items].
  destruct (Span.type a); rewrite IH, <-app_assoc, drop_drop.
  - by rewrite decide_True, decide_False by done.
  - by rewrite decide_False, decide_True by done.
Qed.

Lemma items_extend spans records text (er : list INPUT_RECORD) (et : list wchar_t) :
  span_total Record_ spans ≤ length records → span_total Text spans ≤ length text →
  items spans (records ++ er) (text ++ et) = items spans records text.
Proof.
  revert records text. induction spans as [|a spans IH]; intros records text; [done|].
  rewrite !span_total_cons. cbn [items]. intros HR HT.
  destruct (Span.type a).
  - rewrite decide_True in HR by done. rewrite decide_False in HT by done.
    rewrite take_app_le, drop_app_le by lia. rewrite IH; [done| |done].
    rewrite length_drop. lia.
  - rewrite decide_False in HR by done. rewrite decide_True in HT by done.
    rewrite take_app_le, drop_app_le by lia. rewrite IH; [done|done|].
    rewrite length_drop. lia.
Qed.

Lemma items_merge_Record spans records text (new : list INPUT_RECORD) :
  span_total Record_ spans = length records → span_total Text spans ≤ length text →
  items (merge_span Record_ (length new) spans) (records ++ new) text
  = items spans records text ++ (Record_item <$> new).
Proof.
  intros HR HT. unfold merge_span. destruct (last spans) as [s|] eqn:L.
  - apply last_Some in L as [l' ->].
    rewrite span_total_app, span_total_cons, span_total_nil in HR, HT.
    assert (items l' (records ++ new) text = items l' records text) as Hext.
    { pose proof (items_extend l' records text new []) as Hext.
      rewrite app_nil_r in Hext. apply Hext; repeat case_decide; lia. }
    destruct s as [t n]. simpl in *. destruct t; simpl.
    + try rewrite decide_True in HR by done.
      rewrite removelast_last, !items_snoc, Hext, <-app_assoc. f_equal. simpl.
      rewrite !app_nil_r, drop_app_le by lia. rewrite <-fmap_app. f_equal.
      by rewrite !take_ge by (rewrite ?length_app, ?length_drop; lia).
    + try rewrite decide_False in HR by done. try rewrite decide_True in HT by done.
      assert (items (l' ++ [Span.mk Text n]) (records ++ new) text
              = items (l' ++ [Span.mk Text n]) records text) as Hext'.
      { pose proof (items_extend (l' ++ [Span.mk Text n]) records text new []) as Hext'.
        rewrite app_nil_r in Hext'. apply Hext'.
        all: rewrite span_total_app, span_total_cons, span_total_nil; simpl.
        all: repeat case_decide; try done; lia. }
      rewrite (items_snoc (l' ++ [Span.mk Text n])), Hext'.
      f_equal. simpl. rewrite app_nil_r, span_total_app, span_total_cons, span_total_nil.
      simpl. try rewrite decide_False by done.
      replace (span_total Record_ l' + 0) with (length records) by lia.
      by rewrite drop_app_length, firstn_all.
  - apply last_None in L as ->. simpl in *.
    destruct records; [|done]. simpl. by rewrite app_nil_r, firstn_all.
Qed.

Lemma items_merge_Text spans records text (new : list wchar_t) :
  span_total Record_ spans ≤ length records → span_total Text spans = length text →
  items (merge_span Text (length new) spans) records (text ++ new)
  = items spans records text ++ (Text_item <$> new).
Proof.
  intros HR HT. unfold merge_span. destruct (last spans) as [s|] eqn:L.
  - apply last_Some in L as [l' ->].
    rewrite span_total_app, span_total_cons, span_total_nil in HR, HT.
    assert (items l' records (text ++ new) = items l' records text) as Hext.
    { pose proof (items_extend l' records text [] new) as Hext.
      rewrite app_nil_r in Hext. apply Hext; repeat case_decide; lia. }
    destruct s as [t n]. simpl in *. destruct t; simpl.
    + try rewrite decide_True in HR by done. try rewrite decide_False in HT by done.
      assert (items (l' ++ [Span.mk Record_ n]) records (text ++ new)
              = items (l' ++ [Span.mk Record_ n]) records text) as Hext'.
      { pose proof (items_extend (l' ++ [Span.mk Record_ n]) records text [] new) as Hext'.
        rewrite app_nil_r in Hext'. apply Hext'.
        all: rewrite span_total_app, span_total_cons, span_total_nil; simpl.
        all: repeat case_decide; try done; lia. }
      rewrite (items_snoc (l' ++ [Span.mk Record_ n])), Hext'.
      f_equal. simpl. rewrite app_nil_r, span_total_app, span_total_cons, span_total_nil.
      simpl. try rewrite decide_False by done.
      replace (span_total Text l' + 0) with (length text) by lia.
      by rewrite drop_app_length, firstn_all.
    + try rewrite decide_True in HT by done.
      rewrite removelast_last, !items_snoc, Hext, <-app_assoc. f_equal. simpl.
      rewrite !app_nil_r, drop_app_le by lia. rewrite <-fmap_app. f_equal.
      by rewrite !take_ge by (rewrite ?length_app, ?length_drop; lia).
  - apply last_None in L as ->. simpl in *.
    destruct text; [|done]. simpl. by rewrite app_nil_r, firstn_all.
Qed.

Lemma length_merge_span type n spans :
  length (merge_span type n spans) ≤ length spans + 1.
Proof.
  unfold merge_span. destruct (last spans) as [s|] eqn:L.
  - apply last_Some in L as [l' ->]. case_decide.
    + rewrite removelast_last, !length_app. simpl. lia.
    + rewrite !length_app. simpl. lia.
  - simpl. lia.
Qed.

Lemma not_elem_of_tail (h : heap) : false ∉ h → false ∉ tail h.
Proof. destruct h as [|x h]; [done|]. simpl. intros H Hin. apply H. by right. Qed.

(** When no allocation fails, [_writeSpan] returns. *)
Lemma _writeSpan_returns type n w :
  ring_buffer.wf (_spans (this w)) → false ∉ new_outcomes w →
  ∃ w', _writeSpan type n w = Ok tt w' ∧ (false ∉ new_outcomes w').
Proof.
  intros Hwf Hh. unfold _writeSpan, WakeUpReadersWaitingForData, on_ring.
  run.
  assert (∀ r h, ring_buffer.wf r → false ∉ h →
            ∃ r1 h1 p, ring_buffer.write (Span.mk type 0) r h = Ok r1 h1 ∧ (false ∉ h1) ∧
                       ring_buffer.last_written r1 = Some p) as Hwrite.
  { intros r h Hr Hf. pose proof (write_spec (Span.mk type 0) r h Hr) as W.
    pose proof (write_then_add_length type n r h Hr) as W'.
    destruct (ring_buffer.write _ r h) as [r1 h1|e h1| |]; try done.
    - destruct W as (_ & _ & Hh1). destruct W' as (p & Hp & _).
      exists r1, h1, p. split_and!; try done. subst h1.
      destruct (_ <? _); [by apply not_elem_of_tail|done].
    - destruct W as (_ & -> & _). exfalso. apply Hf. by left. }
  destruct (Hwrite _ _ Hwf Hh) as (r1 & h1 & p1 & Hw & Hh1 & Hp1).
  destruct (ring_buffer.last_written (_spans (this w))) as [p|] eqn:L; simpl.
  - destruct (bool_decide (Span.type _ = type)); simpl.
    + eauto.
    + rewrite Hw. simpl. rewrite Hp1. simpl. eauto.
  - rewrite Hw. simpl. rewrite Hp1. simpl. eauto.
Qed.

Lemma bulk_write_safe_1 {T} (q : ring_buffer T) :
  ring_buffer.wf q → bulk_write_safe 1 q.
Proof. intros (_ & _ & Hs & _). unfold bulk_write_safe. lia. Qed.

Lemma bulk_write_safe_new {T} n (q : ring_buffer T) :
  ring_buffer._capacity q = 0 → bulk_write_safe n q.
Proof. intros E. unfold bulk_write_safe. lia. Qed.

(** A write of records that returns puts them at the back of the queue. *)
Lemma Write_pending records w w' :
  consistent (this w) → bulk_write_safe (length records) (_records (this w)) →
  Write records w = Ok tt w' →
  consistent (this w') ∧
  pending (this w') = pending (this w) ++ (Record_item <$> records) ∧
  ring_buffer._size (_spans (this w')) ≤ ring_buffer._size (_spans (this w)) + 1.
Proof.
  intros (Hs & Hr & Ht & HR & HT) Hsafe. unfold Write. destruct records as [|r records].
  { simpl. intros [= <-]. rewrite app_nil_r. split_and!; try done. lia. }
  change (negb (length (r :: records) =? 0)) with true. cbv iota.
  unfold mbind, M_bind. unfold on_ring at 1.
  pose proof (write_n_spec (r :: records) _ (new_outcomes w) Hr Hsafe) as W.
  destruct (ring_buffer.write_n (r :: records) _ _) as [r1 h1|e h1| |]; try done.
  destruct W as (Hr1 & Hc1 & _).
  match goal with |- _writeSpan ?t ?n ?w1 = _ → _ =>
    pose proof (_writeSpan_spans t n w1 Hs) as S; intros H; rewrite H in S end.
  destruct S as (Hs' & Hc & Er & Et). simpl in Er, Et, Hc.
  unfold lossless_index, spans_of, ring_buffer.size in *.
  change (_spans (set_records r1 (this w))) with (_spans (this w)) in *.
  rewrite <-(length_contents _ Hr) in HR. rewrite <-(length_contents _ Ht) in HT.
  split_and!.
  - unfold consistent, lossless_index, spans_of, ring_buffer.size.
    rewrite Er, Et, Hc, !span_total_merge, HR, HT. simpl.
    rewrite <-(length_contents _ Hr1), Hc1, length_app, <-(length_contents _ Ht).
    split_and!; try done; repeat case_decide; try done; lia.
  - unfold pending, spans_of. rewrite Hc, Er, Et, Hc1.
    apply (items_merge_Record _ _ _ (r :: records)); [done|lia].
  - rewrite <-(length_contents _ Hs'), <-(length_contents _ Hs), Hc.
    apply length_merge_span.
Qed.

(** A write of text whose [try] block returns puts the text at the back of
    the queue. *)
Lemma Write_text_try_pending text w w' :
  consistent (this w) → bulk_write_safe (length text) (_text (this w)) →
  Write_text_try text w = Ok tt w' →
  consistent (this w') ∧
  pending (this w') = pending (this w) ++ (Text_item <$> text) ∧
  ring_buffer._size (_spans (this w')) ≤ ring_buffer._size (_spans (this w)) + 1.
Proof.
  intros (Hs & Hr & Ht & HR & HT) Hsafe. unfold Write_text_try. destruct text as [|c text].
  { simpl. intros [= <-]. rewrite app_nil_r. split_and!; try done. lia. }
  change (negb (length (c :: text) =? 0)) with true. cbv iota.
  unfold mbind, M_bind. unfold on_ring at 1.
  pose proof (write_n_spec (c :: text) _ (new_outcomes w) Ht Hsafe) as W.
  destruct (ring_buffer.write_n (c :: text) _ _) as [r1 h1|e h1| |]; try done.
  destruct W as (Hr1 & Hc1 & _).
  match goal with |- _writeSpan ?t ?n ?w1 = _ → _ =>
    pose proof (_writeSpan_spans t n w1 Hs) as S; intros H; rewrite H in S end.
  destruct S as (Hs' & Hc & Er & Et). simpl in Er, Et, Hc.
  unfold lossless_index, spans_of, ring_buffer.size in *.
  change (_spans (set_text r1 (this w))) with (_spans (this w)) in *.
  rewrite <-(length_contents _ Hr) in HR. rewrite <-(length_contents _ Ht) in HT.
  split_and!.
  - unfold consistent, lossless_index, spans_of, ring_buffer.size.
    rewrite Er, Et, Hc, !span_total_merge, HR, HT. simpl.
    rewrite <-(length_contents _ Hr1), Hc1, length_app, <-(length_contents _ Hr).
    split_and!; try done; repeat case_decide; try done; lia.
  - unfold pending, spans_of. rewrite Hc, Er, Et, Hc1.
    apply (items_merge_Text _ _ _ (c :: text)); [lia|done].
  - rewrite <-(length_contents _ Hs'), <-(length_contents _ Hs), Hc.
    apply length_merge_span.
Qed.

(** When no allocation fails, the writes return. *)
Lemma Write_returns records w :
  consistent (this w) → bulk_write_safe (length records) (_records (this w)) →
  false ∉ new_outcomes w →
  ∃ w', Write records w = Ok tt w' ∧ (false ∉ new_outcomes w').
Proof.
  intros (Hs & Hr & Ht & HR & HT) Hsafe Hh. unfold Write.
  destruct (negb _); [|by eexists].
  unfold mbind, M_bind. unfold on_ring at 1.
  pose proof (write_n_spec records _ (new_outcomes w) Hr Hsafe) as W.
  destruct (ring_buffer.write_n records _ _) as [r1 h1|e h1| |]; try done.
  - destruct W as (_ & _ & ->). apply _writeSpan_returns; simpl; [done|].
    destruct (_ <? _); [by apply not_elem_of_tail|done].
  - destruct W as (_ & Hf & _). exfalso. apply Hh. rewrite Hf. by left.
Qed.

Lemma Write_text_try_returns text w :
  consistent (this w) → bulk_write_safe (length text) (_text (this w)) →
  false ∉ new_outcomes w →
  ∃ w', Write_text_try text w = Ok tt w' ∧ (false ∉ new_outcomes w').
Proof.
  intros (Hs & Hr & Ht & HR & HT) Hsafe Hh. unfold Write_text_try.
  destruct (negb _); [|by eexists].
  unfold mbind, M_bind. unfold on_ring at 1.
  pose proof (write_n_spec text _ (new_outcomes w) Ht Hsafe) as W.
  destruct (ring_buffer.write_n text _ _) as [r1 h1|e h1| |]; try done.
  - destruct W as (_ & _ & ->). apply _writeSpan_returns; simpl; [done|].
    destruct (_ <? _); [by apply not_elem_of_tail|done].
  - destruct W as (_ & Hf & _). exfalso. apply Hh. rewrite Hf. by left.
Qed.

(** X30. A write of text lets no exception out. Whenever the [try] block
    of [Write(text)] leaves by an exception, raised while the text ring is
    extended or while the span is written, the exception is logged and the
    call returns normally. When the text ring has to grow and
    [::operator new] fails, the call returns normally and the buffer is as
    it was before the call: the text is lost. With a span ring and a text
    ring that satisfy their class invariant, the call returns normally
    whatever the allocations do, when the text ring has room for the text or
    holds elements up to the end of its allocation. In every world the call
    returns normally unless its [try] block runs into undefined
    behaviour. *)
Theorem Write_text_never_throws (text : list wchar_t) (w : world) :
  (∀ e w1, Write_text_try text w = Throw e w1 →
     Write_text text w =
       Ok tt {| this := this w1; new_outcomes := new_outcomes w1;
                calls := calls w1 ++ [LOG_CAUGHT_EXCEPTION e] |}) ∧
  (∀ h, text ≠ [] →
     ring_buffer._capacity (_text (this w)) < ring_buffer._size (_text (this w)) + length text →
     new_outcomes w = false :: h →
     Write_text text w =
       Ok tt {| this := this w; new_outcomes := h;
                calls := calls w ++ [LOG_CAUGHT_EXCEPTION bad_alloc] |}) ∧
  (ring_buffer.wf (_spans (this w)) → ring_buffer.wf (_text (this w)) →
   bulk_write_safe (length text) (_text (this w)) →
   ∃ w', Write_text text w = Ok tt w') ∧
  ((∃ w', Write_text text w = Ok tt w') ∨ Write_text_try text w = Undefined).
Proof.
  split_and!.
  - intros e w1 H. unfold Write_text, CATCH_LOG. by rewrite H.
  - intros h Hne Hcap Hh. unfold Write_text, CATCH_LOG, Write_text_try.
    destruct text as [|c text]; [done|]. simpl negb. cbv iota.
    unfold on_ring, ring_buffer.write_n. run.
    apply Nat.ltb_lt in Hcap. simpl in Hcap. rewrite Hcap.
    unfold ring_buffer._grow, ring_buffer._allocate, operator_new. run.
    rewrite Hh. done.
  - intros Hs Ht Hsafe. unfold Write_text, CATCH_LOG, Write_text_try.
    destruct (negb _); [|by eexists].
    unfold mbind, M_bind. unfold on_ring at 1.
    pose proof (write_n_spec text _ (new_outcomes w) Ht Hsafe) as W.
    destruct (ring_buffer.write_n text _ _) as [r1 h1|e h1| |]; try done.
    + match goal with |- context [_writeSpan ?t ?n ?w1] =>
        pose proof (_writeSpan_spans t n w1 Hs) as S; destruct (_writeSpan t n w1) as [[] w2|e w2| |]
      end; try done; by eexists.
    + by eexists.
  - unfold Write_text, CATCH_LOG.
    pose proof (Write_text_try_no_assert text) as NA.
    specialize (NA w).
    destruct (Write_text_try text w) as [[] w1|e w1| |]; try done; eauto.
Qed.

Lemma Write_each_pending records w :
  consistent (this w) → false ∉ new_outcomes w →
  ∃ w', Write_each records w = Ok tt w' ∧ (false ∉ new_outcomes w') ∧
    consistent (this w') ∧
    pending (this w') = pending (this w) ++ (Record_item <$> records) ∧
    ring_buffer._size (_spans (this w')) ≤ ring_buffer._size (_spans (this w)) + length records.
Proof.
  revert w. induction records as [|r records IH]; intros w Hb Hh.
  { exists w. rewrite app_nil_r. split_and!; try done. simpl. lia. }
  cbn [Write_each]. unfold mbind, M_bind, Write_record.
  assert (bulk_write_safe (length [r]) (_records (this w))) as Hsafe
    by (apply bulk_write_safe_1, Hb).
  destruct (Write_returns [r] w Hb Hsafe Hh) as (w1 & Hw & Hh1). rewrite Hw.
  destruct (Write_pending [r] w w1 Hb Hsafe Hw) as (Hb1 & Hp1 & Hz1).
  destruct (IH w1 Hb1 Hh1) as (w' & -> & Hh' & Hb' & Hp' & Hz').
  exists w'. split_and!; try done.
  - by rewrite Hp', Hp1, <-app_assoc.
  - simpl. lia.
Qed.

(** X15. The character view takes from the front of the queue. On a buffer
    whose rings satisfy their class invariant and whose span ring is a
    lossless index, [Read] into a buffer of [capacity] code units returns;
    it takes the input in the order written, item after item while there is
    room for a code unit; it stores the character of every record taken that
    is a key going down with a character, and every code unit of text taken,
    and returns their count; what it did not take stays, in order. A count
    below [capacity] means that nothing is left. With [wide] false it returns
    0 and leaves the buffer as it was. *)
Theorem Read_text_takes_from_the_front fuel peek capacity b :
  consistent b → ring_buffer.size (_spans b) < fuel →
  let taken := take_chars capacity (pending b) in
  ∃ b', Read_text fuel true peek capacity b
        = Some (length (chars_of taken), chars_of taken, b') ∧
    pending b = taken ++ pending b' ∧ consistent b' ∧
    length (chars_of taken) ≤ capacity ∧
    (length (chars_of taken) < capacity → pending b' = []) ∧
    Read_text fuel false peek capacity b = Some (0, [], b).
Proof.
  intros Hb Hfuel taken.
  destruct (Read_text_loop_pending fuel capacity [] b Hb Hfuel) as (b' & Hrun & Hpend & Hb').
  fold taken in Hrun, Hpend.
  pose proof (take_chars_length capacity (pending b)) as Hle. fold taken in Hle.
  exists b'. unfold Read_text. simpl. rewrite Hrun. simpl.
  split_and!; try done.
  - do 3 f_equal. lia.
  - intros Hlt. apply take_chars_all in Hlt. fold taken in Hlt.
    rewrite Hlt in Hpend at 1. rewrite <-(app_nil_r (pending b)) in Hpend at 1.
    by apply app_inv_head in Hpend.
Qed.

(** X16. The record view takes records from the front of the queue. On a
    buffer whose rings satisfy their class invariant and whose span ring is
    a lossless index, and whose first [capacity] items (or all of them, when
    they are fewer) are the records [data], [Read] into a buffer of
    [capacity] records returns; it stores [data], in the order written,
    returns their number and leaves the rest of the queue. *)
Theorem Read_records_takes_records fuel peek capacity b data :
  consistent b → ring_buffer.size (_spans b) < fuel →
  take capacity (pending b) = Record_item <$> data →
  ∃ b', Read_records fuel true peek capacity b = Some (length data, data, b') ∧
    pending b = (Record_item <$> data) ++ pending b' ∧ consistent b'.
Proof.
  intros Hb Hfuel Hd.
  destruct (Read_records_loop_pending fuel capacity [] b data Hb Hfuel Hd)
    as (b' & Hrun & Hpend & Hb').
  exists b'. unfold Read_records. simpl. rewrite Hrun. simpl.
  split_and!; try done. do 3 f_equal.
  assert (length data ≤ capacity); [|lia].
  rewrite <-(length_fmap Record_item), <-Hd, length_take. lia.
Qed.

(** X17. Writes put their input at the back of the queue. From a buffer
    whose rings satisfy their class invariant and whose span ring is a
    lossless index, a write of records that returns normally leaves such a
    buffer, with the records behind the input that was there, in order; so
    does a write of text whose [try] block returns normally, with the code
    units of the text. For a write of several elements this holds when the
    content ring needs no growth for them or holds elements up to the end of
    its allocation; for a write of one record it holds always. *)
Theorem writes_append w :
  consistent (this w) →
  (∀ records w', bulk_write_safe (length records) (_records (this w)) →
     Write records w = Ok tt w' →
     consistent (this w') ∧
     pending (this w') = pending (this w) ++ (Record_item <$> records)) ∧
  (∀ record w', Write_record record w = Ok tt w' →
     consistent (this w') ∧ pending (this w') = pending (this w) ++ [Record_item record]) ∧
  (∀ text w', bulk_write_safe (length text) (_text (this w)) →
     Write_text_try text w = Ok tt w' →
     Write_text text w = Ok tt w' ∧ consistent (this w') ∧
     pending (this w') = pending (this w) ++ (Text_item <$> text)).
Proof.
  intros Hb. split_and!.
  - intros records w' Hsafe H.
    by destruct (Write_pending records w w' Hb Hsafe H) as (? & ? & _).
  - intros record w' H.
    assert (bulk_write_safe (length [record]) (_records (this w))) as Hsafe
      by (apply bulk_write_safe_1, Hb).
    by destruct (Write_pending [record] w w' Hb Hsafe H) as (? & ? & _).
  - intros text w' Hsafe H.
    destruct (Write_text_try_pending text w w' Hb Hsafe H) as (? & ? & _).
    split_and!; try done. unfold Write_text, CATCH_LOG. by rewrite H.
Qed.

(** X18. Round trip of text. On a buffer that holds no input, text written
    by one call of [Write] is what the character view reads next, code unit
    for code unit, and the buffer holds no input after; given that no
    allocation fails and that the text ring needs no growth for the text or
    was never allocated. *)
Theorem text_round_trip text w fuel peek :
  consistent (this w) → pending (this w) = [] →
  bulk_write_safe (length text) (_text (this w)) → false ∉ new_outcomes w →
  ring_buffer.size (_spans (this w)) + 1 < fuel →
  ∃ w' b', Write_text text w = Ok tt w' ∧
    Read_text fuel true peek (length text) (this w') = Some (length text, text, b') ∧
    pending b' = [] ∧ consistent b'.
Proof.
  intros Hb Hempty Hsafe Hh Hfuel.
  destruct (Write_text_try_returns text w Hb Hsafe Hh) as (w' & Hw & _).
  destruct (Write_text_try_pending text w w' Hb Hsafe Hw) as (Hb' & Hp' & Hz').
  rewrite Hempty in Hp'. simpl in Hp'.
  destruct (Read_text_loop_pending fuel (length text) [] (this w') Hb') as (b' & Hrun & Hpend & Hb'').
  { unfold ring_buffer.size in Hfuel. lia. }
  assert (take_chars (length text) (pending (this w')) = Text_item <$> text) as Htake.
  { rewrite Hp', <-(app_nil_r (Text_item <$> text)), take_chars_text by done.
    by rewrite Nat.sub_diag. }
  rewrite Htake, chars_of_text in Hrun. rewrite Htake in Hpend.
  exists w', b'. split_and!; try done.
  - unfold Write_text, CATCH_LOG. by rewrite Hw.
  - unfold Read_text. simpl. rewrite Hrun. simpl. do 3 f_equal. lia.
  - rewrite Hp', <-(app_nil_r (Text_item <$> text)) in Hpend at 1.
    by apply app_inv_head in Hpend.
Qed.

(** X19. Round trip of records. On a buffer that holds no input, records
    written one call of [Write] each are what the record view reads next, in
    the order written, and the buffer holds no input after; given that no
    allocation fails. *)
Theorem records_round_trip records w fuel peek :
  consistent (this w) → pending (this w) = [] → false ∉ new_outcomes w →
  ring_buffer.size (_spans (this w)) + length records < fuel →
  ∃ w' b', Write_each records w = Ok tt w' ∧
    Read_records fuel true peek (length records) (this w')
    = Some (length records, records, b') ∧
    pending b' = [] ∧ consistent b'.
Proof.
  intros Hb Hempty Hh Hfuel.
  destruct (Write_each_pending records w Hb Hh) as (w' & Hw & _ & Hb' & Hp' & Hz').
  rewrite Hempty in Hp'. simpl in Hp'.
  destruct (Read_records_loop_pending fuel (length records) [] (this w') records Hb')
    as (b' & Hrun & Hpend & Hb'').
  { unfold ring_buffer.size in Hfuel. lia. }
  { by rewrite Hp', <-(length_fmap Record_item), firstn_all. }
  exists w', b'. split_and!; try done.
  - unfold Read_records. simpl. rewrite Hrun. simpl. do 3 f_equal. lia.
  - rewrite Hp', <-(app_nil_r (Record_item <$> records)) in Hpend at 1.
    by apply app_inv_head in Hpend.
Qed.

(** X20. [Flush] empties the buffer. On a buffer whose rings satisfy their
    class invariant it returns, makes the one call that resets the
    readiness event, allocates and frees nothing, and leaves no input: both
    views then read nothing. *)
Theorem Flush_empties w :
  ring_buffer.wf (_spans (this w)) → ring_buffer.wf (_records (this w)) →
  ring_buffer.wf (_text (this w)) →
  ∃ w', Flush w = Ok tt w' ∧ consistent (this w') ∧ pending (this w') = [] ∧
    calls w' = calls w ++ [ResetEvent] ∧ new_outcomes w' = new_outcomes w ∧
    ring_buffer._capacity (_spans (this w')) = ring_buffer._capacity (_spans (this w)) ∧
    ring_buffer._capacity (_records (this w')) = ring_buffer._capacity (_records (this w)) ∧
    ring_buffer._capacity (_text (this w')) = ring_buffer._capacity (_text (this w)) ∧
    ∀ fuel peek capacity,
      Read_text (S fuel) true peek capacity (this w') = Some (0, [], this w') ∧
      Read_records (S fuel) true peek capacity (this w') = Some (0, [], this w').
Proof.
  intros Hs Hr Ht. eexists. split; [reflexivity|]. simpl.
  destruct (wf_clear _ Hs) as [Hs' Hcs]. destruct (wf_clear _ Hr) as [Hr' Hcr].
  destruct (wf_clear _ Ht) as [Ht' Hct].
  split_and!; try done.
  intros fuel peek capacity. unfold Read_text, Read_records. simpl.
  destruct (capacity =? 0) eqn:E; simpl.
  - apply Nat.eqb_eq in E as ->. done.
  - by rewrite Nat.sub_diag.
Qed.

End queue_facts.

(** ** What the calls leave alone *)

Section frames.
Context `{!Trivial Span, !Trivial INPUT_RECORD, !Trivial wchar_t}.

Section combinators.
Variable R : world → world → Prop.
Hypothesis R_refl : ∀ w, R w w.
Hypothesis R_trans : ∀ w1 w2 w3, R w1 w2 → R w2 w3 → R w1 w3.

Lemma preserves_ret {A} (a : A) : preserves R (mret a).
Proof. intros w. apply R_refl. Qed.

Lemma preserves_throw {A} e : preserves R (throw e : M world A).
Proof. intros w. apply R_refl. Qed.

Lemma preserves_get : preserves R get.
Proof. intros w. apply R_refl. Qed.

Lemma preserves_assert c : preserves R (assert c).
Proof. intros w. unfold assert. destruct c; [apply R_refl|done]. Qed.

Lemma preserves_defined {A} (o : option A) : preserves R (defined o).
Proof. intros w. destruct o; [apply R_refl|done]. Qed.

Lemma preserves_bind {A B} (m : M world A) (f : A → M world B) :
  preserves R m → (∀ a, preserves R (f a)) → preserves R (m ≫= f).
Proof.
  intros Hm Hf w. unfold mbind, M_bind. specialize (Hm w).
  destruct (m w) as [a w1|e w1| |]; try done.
  specialize (Hf a w1). destruct (f a w1); try done; by eapply R_trans.
Qed.

Lemma preserves_modify (f : world → world) :
  (∀ w, R w (f w)) → preserves R (modify f).
Proof. intros Hf w. apply Hf. Qed.

Lemma preserves_on_ring {T} (member : InputBuffer → ring_buffer T) assign f :
  (∀ w r h, R w {| this := assign r (this w); new_outcomes := h; calls := calls w |}) →
  (∀ w h, R w {| this := this w; new_outcomes := h; calls := calls w |}) →
  preserves R (on_ring member assign f).
Proof.
  intros H1 H2 w. unfold on_ring. destruct (f _ _); try done; auto.
Qed.

Lemma preserves_CATCH_LOG (body : M world unit) :
  (∀ c w, R w {| this := this w; new_outcomes := new_outcomes w; calls := calls w ++ [c] |}) →
  preserves R body → preserves R (CATCH_LOG body).
Proof.
  intros He Hb w. unfold CATCH_LOG. specialize (Hb w).
  destruct (body w) as [a w1|e w1| |]; try done.
  eapply R_trans; [done|]. apply He.
Qed.

End combinators.

(** *** The functions of the rings *)

Lemma ring_frame_refl w : ring_frame w w.
Proof. by unfold ring_frame, same_caches. Qed.

Lemma ring_frame_trans w1 w2 w3 : ring_frame w1 w2 → ring_frame w2 w3 → ring_frame w1 w3.
Proof.
  unfold ring_frame, same_caches. intros (?&?&?&?&?&?) (?&?&?&?&?&?).
  split_and!; congruence.
Qed.

Lemma _writeSpan_ring_frame type n : preserves ring_frame (_writeSpan type n).
Proof.
  unfold _writeSpan, WakeUpReadersWaitingForData, on_this, emit.
  pose proof ring_frame_refl. pose proof ring_frame_trans.
  apply preserves_bind; [done|by apply preserves_get|intros w0].
  apply preserves_bind; [done| |].
  { destruct (match ring_buffer.last_written _ with Some _ => _ | None => _ end);
      [|by apply preserves_ret].
    apply preserves_bind; [done|by apply preserves_on_ring|intros _].
    apply preserves_bind; [done|by apply preserves_get|intros ?].
    by apply preserves_ret. }
  intros lastSpan. apply preserves_bind; [done|by apply preserves_defined|intros p].
  apply preserves_bind; [done|by apply preserves_modify|intros _].
  apply preserves_bind; [done| |intros _; by apply preserves_modify].
  destruct (negb _); [by apply preserves_modify|by apply preserves_ret].
Qed.

Lemma ring_entry_frame A (m : M world A) : ring_entry A m → preserves ring_frame m.
Proof.
  pose proof ring_frame_refl. pose proof ring_frame_trans.
  assert (∀ records, preserves ring_frame (Write records)) as HWrite.
  { intros records. unfold Write. destruct (negb _); [|by apply preserves_ret].
    apply preserves_bind; [done|by apply preserves_on_ring|intros _].
    apply _writeSpan_ring_frame. }
  destruct 1 as [record|records|text| |].
  - apply HWrite.
  - apply HWrite.
  - unfold Write_text. apply preserves_CATCH_LOG; [done|done|].
    unfold Write_text_try. destruct (negb _); [|by apply preserves_ret].
    apply preserves_bind; [done|by apply preserves_on_ring|intros _].
    apply _writeSpan_ring_frame.
  - unfold Flush, on_this, emit.
    repeat (apply preserves_bind; [done|by apply preserves_modify|intros _]).
    by apply preserves_modify.
  - by apply preserves_modify.
Qed.

Lemma same_caches_refl b : same_caches b b.
Proof. by unfold same_caches. Qed.

Lemma same_caches_trans b1 b2 b3 : same_caches b1 b2 → same_caches b2 b3 → same_caches b1 b3.
Proof.
  unfold same_caches. intros (?&?&?&?&?&?) (?&?&?&?&?&?). split_and!; congruence.
Qed.

Lemma advance_if_done_same_caches span b : same_caches b (advance_if_done span b).
Proof. unfold advance_if_done. by destruct (_ =? _). Qed.

Lemma Read_text_Record_same_caches turns span remaining out b :
  same_caches b (Read_text_Record turns span remaining out b).2.
Proof.
  revert remaining out b. induction turns as [|turns IH]; intros remaining out b;
    [apply same_caches_refl|].
  simpl. destruct (_ && _); [|apply same_caches_refl].
  destruct (ring_buffer.peek (_records b)) as [p|]; [|apply same_caches_refl].
  destruct (_ && _); (eapply same_caches_trans; [|apply IH]); done.
Qed.

Lemma Read_records_Text_same_caches turns span remaining data b :
  same_caches b (Read_records_Text turns span remaining data b).2.
Proof.
  revert remaining data b. induction turns as [|turns IH]; intros remaining data b;
    [apply same_caches_refl|].
  simpl. destruct (_ && _); [|apply same_caches_refl].
  destruct (ring_buffer.peek (_text b)) as [p|]; [|apply same_caches_refl].
  eapply same_caches_trans; [|apply IH]. done.
Qed.

Lemma Read_text_loop_same_caches fuel remaining out b remaining' out' b' :
  Read_text_loop fuel remaining out b = Some (remaining', out', b') → same_caches b b'.
Proof.
  revert remaining out b. induction fuel as [|fuel IH]; intros remaining out b; [done|].
  simpl. destruct (remaining =? 0); [intros [= _ _ <-]; apply same_caches_refl|].
  destruct (ring_buffer.peek (_spans b)) as [span|];
    [|intros [= _ _ <-]; apply same_caches_refl].
  destruct (Span.type _).
  - pose proof (Read_text_Record_same_caches (span_length b span) span remaining out b) as S.
    destruct (Read_text_Record _ _ _ _ _) as [[rem1 out1] b1]. simpl in S.
    intros H%IH. eapply same_caches_trans; [done|].
    eapply same_caches_trans; [apply advance_if_done_same_caches|done].
  - destruct (ring_buffer.read_n _ _) as [data text].
    intros H%IH. eapply same_caches_trans; [|done].
    eapply same_caches_trans; [|apply advance_if_done_same_caches]. done.
Qed.

Lemma Read_records_loop_same_caches fuel remaining data b remaining' data' b' :
  Read_records_loop fuel remaining data b = Some (remaining', data', b') → same_caches b b'.
Proof.
  revert remaining data b. induction fuel as [|fuel IH]; intros remaining data b; [done|].
  simpl. destruct (remaining =? 0); [intros [= _ _ <-]; apply same_caches_refl|].
  destruct (ring_buffer.peek (_spans b)) as [span|];
    [|intros [= _ _ <-]; apply same_caches_refl].
  destruct (Span.type _).
  - destruct (ring_buffer.read_n _ _) as [read records].
    intros H%IH. eapply same_caches_trans; [|done].
    eapply same_caches_trans; [|apply advance_if_done_same_caches]. done.
  - pose proof (Read_records_Text_same_caches (span_length b span) span remaining data b) as S.
    destruct (Read_records_Text _ _ _ _ _) as [[rem1 data1] b1]. simpl in S.
    intros H%IH. eapply same_caches_trans; [done|].
    eapply same_caches_trans; [apply advance_if_done_same_caches|done].
Qed.

Lemma Read_text_same_caches fuel wide peek capacity b n out b' :
  Read_text fuel wide peek capacity b = Some (n, out, b') → same_caches b b'.
Proof.
  unfold Read_text. destruct (negb wide); [intros [= _ _ <-]; apply same_caches_refl|].
  destruct (Read_text_loop _ _ _ _) as [[[rem1 out1] b1]|] eqn:L; [|done].
  simpl. intros [= _ _ <-]. by eapply Read_text_loop_same_caches.
Qed.

Lemma Read_records_same_caches fuel wide peek capacity b n data b' :
  Read_records fuel wide peek capacity b = Some (n, data, b') → same_caches b b'.
Proof.
  unfold Read_records. destruct (negb wide); [intros [= _ _ <-]; apply same_caches_refl|].
  destruct (Read_records_loop _ _ _ _) as [[[rem1 data1] b1]|] eqn:L; [|done].
  simpl. intros [= _ _ <-]. by eapply Read_records_loop_same_caches.
Qed.

(** *** The functions of the reading mode and the caches *)

Lemma cache_frame_refl w : cache_frame w w.
Proof. by unfold cache_frame, same_rings. Qed.

Lemma cache_frame_trans w1 w2 w3 : cache_frame w1 w2 → cache_frame w2 w3 → cache_frame w1 w3.
Proof.
  unfold cache_frame, same_rings. intros ((?&?&?)&?&?&?&?) ((?&?&?)&?&?&?&?).
  split_and!; try congruence. auto.
Qed.

Lemma view_suffix_nil {A} v : view.size v = 0 → view_suffix (@nil A) v.
Proof. intros E. by left. Qed.

Lemma view_suffix_of_string {A} (owner : list A) : view_suffix owner (view.of_string owner).
Proof. by right. Qed.

Lemma view_suffix_inside {A} (owner : list A) v : view_suffix owner v → view_inside owner v.
Proof. unfold view_suffix, view_inside. intros [[-> ->]|H]; simpl; lia. Qed.

Lemma view_suffix_elements {A} (owner : list A) v :
  view_suffix owner v → view.elements owner v = drop (view.data v) owner.
Proof.
  unfold view_suffix, view.elements. intros [[-> ->]|H].
  - by rewrite drop_nil.
  - apply take_ge. rewrite length_drop. lia.
Qed.

Lemma view_suffix_substr {A} (owner : list A) v n :
  view_suffix owner v → n ≤ view.size v →
  view_suffix owner (view.substr n v) ∧
  (view.empty (view.substr n v) = true → view_suffix (@nil A) (view.substr n v)).
Proof.
  unfold view_suffix, view.substr, view.empty. simpl. intros [[-> E]|H] Hn; split.
  - left. split; [done|lia].
  - intros _. left. split; [done|lia].
  - right. lia.
  - intros E%Nat.eqb_eq. by left.
Qed.

Lemma _switchReadingMode_cache_frame mode : preserves cache_frame (_switchReadingMode mode).
Proof.
  intros w. unfold _switchReadingMode, _switchReadingModeSlowPath. run.
  destruct (decide _); [|apply cache_frame_refl].
  unfold cache_frame, same_rings, caches_suffix. simpl. split_and!; try done.
  intros _. split; by left.
Qed.

Lemma bytes_transfer_length {A} elementSize (bytes : A → list char) target source :
  length source - length (bytes_transfer elementSize bytes target source).2 ≤ length source.
Proof. lia. Qed.

Lemma ConsumeCached_cache_frame isUnicode target :
  preserves cache_frame (ConsumeCached isUnicode target).
Proof.
  pose proof cache_frame_refl. pose proof cache_frame_trans.
  unfold ConsumeCached.
  apply preserves_bind; [done|apply _switchReadingMode_cache_frame|intros _].
  intros w. unfold mbind at 1, M_bind at 1, get. cbv beta iota.
  destruct isUnicode.
  - destruct (negb _) eqn:E; [|apply cache_frame_refl].
    set (source := view.elements _ _).
    destruct (bytes_transfer 2 wchar_bytes target source) as [target' rest] eqn:B.
    assert (length source - length rest ≤ length source) as Hn by lia.
    run.
    assert (caches_suffix (this w) →
            length source - length rest ≤ view.size (_cachedTextReaderW (this w))) as Hle.
    { intros Hc. subst source.
      rewrite <-(length_elements (_cachedTextW (this w)) (_cachedTextReaderW (this w)))
        by (apply view_suffix_inside, Hc). lia. }
    destruct (view.empty (view.substr _ _)) eqn:E2; unfold modify; simpl.
    + unfold cache_frame, same_rings. simpl. split_and!; try done.
      intros Hc. destruct (view_suffix_substr _ _ _ (proj2 Hc) (Hle Hc)) as [S1 S2].
      split; simpl; [apply Hc|by apply S2].
    + unfold cache_frame, same_rings. simpl. split_and!; try done.
      intros Hc. destruct (view_suffix_substr _ _ _ (proj2 Hc) (Hle Hc)) as [S1 S2].
      split; simpl; [apply Hc|done].
  - destruct (negb _) eqn:E; [|apply cache_frame_refl].
    set (source := view.elements _ _).
    destruct (bytes_transfer 1 (λ c, [c]) target source) as [target' rest] eqn:B.
    assert (length source - length rest ≤ length source) as Hn by lia.
    run.
    assert (caches_suffix (this w) →
            length source - length rest ≤ view.size (_cachedTextReaderA (this w))) as Hle.
    { intros Hc. subst source.
      rewrite <-(length_elements (_cachedTextA (this w)) (_cachedTextReaderA (this w)))
        by (apply view_suffix_inside, Hc). lia. }
    destruct (view.empty (view.substr _ _)) eqn:E2; unfold modify; simpl.
    + unfold cache_frame, same_rings. simpl. split_and!; try done.
      intros Hc. destruct (view_suffix_substr _ _ _ (proj1 Hc) (Hle Hc)) as [S1 S2].
      split; simpl; [by apply S2|apply Hc].
    + unfold cache_frame, same_rings. simpl. split_and!; try done.
      intros Hc. destruct (view_suffix_substr _ _ _ (proj1 Hc) (Hle Hc)) as [S1 S2].
      split; simpl; [done|apply Hc].
Qed.

Lemma Consume_slow_path_cache_frame CP chars read target :
  preserves cache_frame (Consume_slow_path CP chars read target).
Proof.
  pose proof cache_frame_refl. pose proof cache_frame_trans.
  revert read target. induction chars as [|s chars IH]; intros read target;
    [by apply preserves_ret|].
  cbn [Consume_slow_path]. destruct (WideCharToMultiByte CP s _ 8) as [bytes| |];
    [|by apply preserves_throw|by intros ?].
  destruct (bytes_transfer 1 (λ c, [c]) target bytes) as [target' slice].
  destruct (span.empty target'); [|apply IH].
  apply preserves_bind; [done| |intros _; by apply preserves_ret].
  destruct (negb _); [|by apply preserves_ret].
  apply preserves_modify. intros w. unfold cache_frame, same_rings. simpl.
  split_and!; try done. intros [_ HW]. split; [apply view_suffix_of_string|done].
Qed.

Lemma Consume_cache_frame CP isUnicode source target :
  preserves cache_frame (Consume CP isUnicode source target).
Proof.
  pose proof cache_frame_refl. pose proof cache_frame_trans.
  unfold Consume.
  apply preserves_bind; [done|apply ConsumeCached_cache_frame|intros target1].
  destruct (_ || _); [by apply preserves_ret|].
  destruct isUnicode.
  - apply preserves_bind; [done|by apply preserves_get|intros w0].
    apply preserves_bind; [done|by apply preserves_assert|intros _].
    destruct (bytes_transfer _ _ _ _). by apply preserves_ret.
  - apply preserves_bind; [done|by apply preserves_get|intros w0].
    apply preserves_bind; [done|by apply preserves_assert|intros _].
    apply preserves_bind; [done| |intros wideLength].
    { unfold gsl_narrow_ULONG. destruct (_ <? _)%Z;
        [by apply preserves_ret|by apply preserves_throw]. }
    apply preserves_bind; [done| |intros narrowLength].
    { unfold gsl_narrow_ULONG. destruct (_ <? _)%Z;
        [by apply preserves_ret|by apply preserves_throw]. }
    destruct (WideCharToMultiByte _ _ _ _).
    + apply preserves_bind; [done| |intros ?; by apply preserves_ret].
      unfold bytes_advance. destruct (_ <? _);
        [by apply preserves_throw|by apply preserves_ret].
    + destruct (decide _); [by apply preserves_throw|].
      apply preserves_bind; [done|apply Consume_slow_path_cache_frame|].
      intros [read target2]. by apply preserves_ret.
    + by intros ?.
Qed.

(** What [append] gives: the longer string, or [std::bad_alloc] for a
    source that is not empty when the next outcome of the heap is [false]. *)
Lemma append_spec (text source : list wchar_t) h :
  match append text source h with
  | Ok text' h' =>
    text' = text ++ source ∧ (h' = h ∨ h' = tail h) ∧
    (source = [] ∨ head h ≠ Some false)
  | Throw e h' => e = bad_alloc ∧ source ≠ [] ∧ h = false :: h'
  | Undefined | AssertFailed => False
  end.
Proof.
  unfold append. destruct source as [|c source]; simpl.
  - rewrite app_nil_r. split_and!; [done|by left|by left].
  - unfold mbind, M_bind, operator_new. destruct h as [|[] h]; simpl.
    + split_and!; [done|by left|by right].
    + split_and!; [done|by right|by right].
    + done.
Qed.

Lemma Cache_append_frame source : preserves append_frame (Cache source).
Proof.
  intros w. unfold Cache.
  pose proof (append_spec (_cachedTextW (this w)) source (new_outcomes w)) as A.
  destruct (append _ _ _) as [text h|e h| |]; [| |done|done].
  - destruct A as (-> & Hh & _). unfold append_frame, same_rings. simpl.
    split_and!; try done. intros [HA HW]. split; [done|]. simpl.
    unfold view_suffix, view.substr, view.of_string. simpl. right.
    rewrite length_app. destruct HW as [[-> _]|HW]; simpl; [lia|].
    destruct (Nat.eqb_spec (length (_cachedTextW (this w))) 0); lia.
  - destruct A as (_ & _ & Hh). unfold append_frame, same_rings. simpl.
    split_and!; try done. right. by rewrite Hh.
Qed.

Lemma cache_entry_frame CP A (m : M world A) :
  cache_entry CP A m → preserves cache_frame m.
Proof.
  pose proof cache_frame_refl. pose proof cache_frame_trans.
  destruct 1.
  - apply Consume_cache_frame.
  - apply ConsumeCached_cache_frame.
  - by apply preserves_ret.
  - unfold PeekCached.
    apply preserves_bind; [done|apply _switchReadingMode_cache_frame|intros _].
    apply preserves_bind; [done|by apply preserves_get|intros ?].
    by apply preserves_ret.
  - unfold Cache_events.
    apply preserves_bind; [done|apply _switchReadingMode_cache_frame|intros _].
    destruct (_ <? _); by apply preserves_ret.
Qed.

(** *** What holds after any calls *)

Lemma same_caches_suffix b b' : same_caches b b' → caches_suffix b → caches_suffix b'.
Proof. unfold same_caches, caches_suffix. intros (_ & -> & -> & -> & -> & _). done. Qed.

Lemma same_rings_spans_inv b b' : same_rings b b' → spans_inv b → spans_inv b'.
Proof.
  unfold same_rings, spans_inv, kinds_of, spans_of. intros (-> & _ & _). done.
Qed.

Lemma ring_entry_spans_inv A (m : M world A) w :
  ring_entry A m → spans_inv (this w) →
  match m w with
  | Ok _ w' | Throw _ w' => spans_inv (this w')
  | _ => True
  end.
Proof.
  intros Hm Hinv. destruct Hm as [record|records|text| |].
  - apply Write_inv, Hinv.
  - apply Write_inv, Hinv.
  - apply Write_text_inv, Hinv.
  - destruct (Flush w) as [[] w'|e w'| |] eqn:F; try done.
    by eapply Flush_inv.
  - done.
Qed.

Lemma reachable_by_calls_inv w :
  reachable_by_calls w →
  caches_suffix (this w) ∧ _cachedInputEvents (this w) = [] ∧ spans_inv (this w).
Proof.
  induction 1 as [h|A m a w w' _ IH Hm H|A m e w w' _ IH Hm H
                 |CP A m a w w' _ IH Hm H|CP A m e w w' _ IH Hm H
                 |source w w' _ IH H|source e w w' _ IH H
                 |fuel wide peek capacity w n out b _ IH H
                 |fuel wide peek capacity w n data b _ IH H].
  - split_and!; [split; by left|done|apply spans_inv_new].
  - destruct IH as (Hc & He & Hs).
    pose proof (ring_entry_frame A m Hm w) as F. rewrite H in F.
    pose proof (ring_entry_spans_inv A m w Hm Hs) as S. rewrite H in S.
    split_and!; [by eapply same_caches_suffix| |done].
    destruct F as (_ & _ & _ & _ & _ & ->). done.
  - destruct IH as (Hc & He & Hs).
    pose proof (ring_entry_frame A m Hm w) as F. rewrite H in F.
    pose proof (ring_entry_spans_inv A m w Hm Hs) as S. rewrite H in S.
    split_and!; [by eapply same_caches_suffix| |done].
    destruct F as (_ & _ & _ & _ & _ & ->). done.
  - destruct IH as (Hc & He & Hs).
    pose proof (cache_entry_frame CP A m Hm w) as F. rewrite H in F.
    destruct F as (Hr & -> & _ & _ & Hsuf). split_and!; [auto|done|].
    by eapply same_rings_spans_inv.
  - destruct IH as (Hc & He & Hs).
    pose proof (cache_entry_frame CP A m Hm w) as F. rewrite H in F.
    destruct F as (Hr & -> & _ & _ & Hsuf). split_and!; [auto|done|].
    by eapply same_rings_spans_inv.
  - destruct IH as (Hc & He & Hs).
    pose proof (Cache_append_frame source w) as F. rewrite H in F.
    destruct F as (Hr & -> & _ & _ & Hsuf). split_and!; [auto|done|].
    by eapply same_rings_spans_inv.
  - destruct IH as (Hc & He & Hs).
    pose proof (Cache_append_frame source w) as F. rewrite H in F.
    destruct F as (Hr & -> & _ & _ & Hsuf). split_and!; [auto|done|].
    by eapply same_rings_spans_inv.
  - destruct IH as (Hc & He & Hs). simpl.
    pose proof (Read_text_same_caches _ _ _ _ _ _ _ _ H) as F.
    split_and!; [by eapply same_caches_suffix|by destruct F as (_ & _ & _ & _ & _ & ->)|].
    unfold Read_text in H. destruct (negb wide); [by injection H as _ _ <-|].
    destruct (Read_text_loop _ _ _ _) as [[[rem1 out1] b1]|] eqn:L; [|done].
    simpl in H. injection H as _ _ <-. by eapply Read_text_loop_inv.
  - destruct IH as (Hc & He & Hs). simpl.
    pose proof (Read_records_same_caches _ _ _ _ _ _ _ _ H) as F.
    split_and!; [by eapply same_caches_suffix|by destruct F as (_ & _ & _ & _ & _ & ->)|].
    unfold Read_records in H. destruct (negb wide); [by injection H as _ _ <-|].
    destruct (Read_records_loop _ _ _ _) as [[[rem1 data1] b1]|] eqn:L; [|done].
    simpl in H. injection H as _ _ <-. by eapply Read_records_loop_inv.
Qed.

Lemma ConsumeCached_returns isUnicode target w :
  ∃ target' w', ConsumeCached isUnicode target w = Ok target' w'.
Proof.
  unfold ConsumeCached, _switchReadingMode, _switchReadingModeSlowPath. run.
  destruct (decide _); simpl; destruct isUnicode; simpl; eauto.
  - destruct (negb _); [|eauto].
    destruct (view.empty (view.substr _ _)); unfold modify; simpl; eauto.
  - destruct (negb _); [|eauto].
    destruct (view.empty (view.substr _ _)); unfold modify; simpl; eauto.
Qed.

Lemma Consume_narrow_no_assert CP source target w :
  caches_suffix (this w) → Consume CP false source target w ≠ AssertFailed.
Proof.
  intros [HA _]. by apply Consume_narrow_no_assert_inside, view_suffix_inside.
Qed.



(** X22. The reader views stay inside the cached strings. In every world
    that calls of the member functions lead to from a new buffer, in any
    order, whatever the code pages and the allocations, either reader view
    shows its cached string from some element on to the end. So there
    [ConsumeCached] returns, for any target, and a narrow [Consume] never
    stops at its assertion. *)
Theorem reader_views_stay_inside w :
  reachable_by_calls w →
  caches_suffix (this w) ∧ cacheA_inside w ∧ cacheW_inside w ∧
  (∀ isUnicode target, ∃ target' w', ConsumeCached isUnicode target w = Ok target' w') ∧
  (∀ CP source target, Consume CP false source target w ≠ AssertFailed).
Proof.
  intros (Hc & _ & _)%reachable_by_calls_inv. split_and!; try done.
  - apply view_suffix_inside, Hc.
  - apply view_suffix_inside, Hc.
  - intros. apply ConsumeCached_returns.
  - intros. by apply Consume_narrow_no_assert.
Qed.

(** X23. The span merge invariant (C7) after any calls. In every world that
    calls of the member functions lead to from a new buffer, the functions
    of the reading mode and the caches among them, the span ring satisfies
    its class invariant and no two neighbours among the spans not yet read
    are of the same kind. *)
Theorem spans_differ_after_any_calls w :
  reachable_by_calls w →
  ring_buffer.wf (_spans (this w)) ∧ adjacent_distinct (kinds_of (this w)).
Proof. by intros (_ & _ & Hs)%reachable_by_calls_inv. Qed.


End frames.

(** ** The conversion caches, front to back *)

Section cache_laws.
Context `{!Trivial Span, !Trivial INPUT_RECORD, !Trivial wchar_t}.

Lemma bytes_transfer_wide target (source : list wchar_t) :
  let n := min (length source) (span.size target / 2) in
  bytes_transfer 2 wchar_bytes target source
  = (span.mk (span.stored target ++ concat (wchar_bytes <$> take n source))
             (span.size target - n * 2), drop n source).
Proof. done. Qed.

Lemma pendingW_suffix w :
  caches_suffix (this w) → pendingW w = drop (view.data (_cachedTextReaderW (this w)))
                                          (_cachedTextW (this w)).
Proof. intros [_ HW]. by apply view_suffix_elements. Qed.

(** [ConsumeCached] for wide text in mode [StringW]: the target takes the
    pending code units that fit, the cache keeps the rest. *)
Lemma ConsumeCached_wide target w :
  _readingMode (this w) = StringW → caches_suffix (this w) →
  let n := min (length (pendingW w)) (span.size target / 2) in
  ∃ w', ConsumeCached true target w
        = Ok (span.mk (span.stored target ++ concat (wchar_bytes <$> take n (pendingW w)))
                      (span.size target - n * 2)) w' ∧
        pendingW w' = drop n (pendingW w) ∧
        view.empty (_cachedTextReaderW (this w'))
        = (length (pendingW w) <=? span.size target / 2) ∧
        cache_frame w w' ∧ _readingMode (this w') = StringW ∧
        pendingA w' = pendingA w.
Proof.
  intros Hm Hc n.
  cut (∃ w', ConsumeCached true target w
        = Ok (span.mk (span.stored target ++ concat (wchar_bytes <$> take n (pendingW w)))
                      (span.size target - n * 2)) w' ∧
        pendingW w' = drop n (pendingW w) ∧
        view.empty (_cachedTextReaderW (this w'))
        = (length (pendingW w) <=? span.size target / 2) ∧
        _readingMode (this w') = StringW ∧ pendingA w' = pendingA w).
  { intros (w' & Hrun & ? & ? & ? & ?). exists w'. split_and!; try done.
    pose proof (ConsumeCached_cache_frame true target w) as F. by rewrite Hrun in F. }
  unfold ConsumeCached. unfold mbind at 1, M_bind at 1.
  rewrite _switchReadingMode_same by done.
  unfold mbind at 1, M_bind at 1, get. cbv beta iota.
  pose proof (view_suffix_inside _ _ (proj2 Hc)) as Hin.
  destruct (view.empty (_cachedTextReaderW (this w))) eqn:E; cbv beta iota delta [negb].
  - pose proof (elements_empty (_cachedTextW (this w)) _ E) as Hp.
    unfold pendingW in *. subst n. rewrite Hp. cbn [length Nat.min take fmap list_fmap concat].
    rewrite app_nil_r, Nat.mul_0_l, Nat.sub_0_r.
    destruct target. eexists. split_and!; done.
  - rewrite bytes_transfer_wide. fold (pendingW w). fold n. cbv beta iota.
    rewrite length_drop.
    replace (length (pendingW w) - (length (pendingW w) - n)) with n by lia.
    pose proof (length_elements _ _ Hin : length (pendingW w) = _) as Hlen.
    assert (n ≤ view.size (_cachedTextReaderW (this w))) as Hn by (unfold n; lia).
    destruct (elements_substr _ _ n Hin Hn) as [He Hi].
    assert (view.empty (view.substr n (_cachedTextReaderW (this w)))
            = (length (pendingW w) <=? span.size target / 2)) as Hv.
    { rewrite Hlen. unfold view.empty. cbn [view.size view.substr].
      destruct (Nat.leb_spec (view.size (_cachedTextReaderW (this w))) (span.size target / 2));
        [apply Nat.eqb_eq|apply Nat.eqb_neq]; unfold n; lia. }
    unfold mbind, M_bind, mret, M_ret, on_this, modify.
    destruct (view.empty (view.substr n _)) eqn:E2; cbv beta iota.
    + eexists. split_and!; try done.
      * unfold pendingW. cbn [this _cachedTextW _cachedTextReaderW set_cachedW].
        rewrite elements_empty by done.
        symmetry. apply drop_ge. symmetry in Hv.
        apply Nat.leb_le in Hv. unfold n, pendingW in *. lia.
      * cbn [this _cachedTextW _cachedTextReaderW set_cachedW]. by rewrite E2.
    + eexists. split_and!; try done.
      cbn [this _cachedTextW _cachedTextReaderW set_cachedW]. by rewrite E2.
Qed.

(** X25. [ConsumeCached] delivers the front of the cache. In the reading
    mode of its direction, with a reader view that ends where its string
    ends, it returns; the target takes the first pending elements that fit
    whole, in order (bytes of narrow text, code units of wide text low byte
    first); the cache keeps the rest, and the cache of the other direction
    and the reading mode stay as they were. *)
Theorem ConsumeCached_delivers_front (isUnicode : bool) target w :
  _readingMode (this w) = (if isUnicode then StringW else StringA) →
  caches_suffix (this w) →
  ∃ target' w', ConsumeCached isUnicode target w = Ok target' w' ∧
    (if isUnicode then
       let n := min (length (pendingW w)) (span.size target / 2) in
       span.stored target'
       = span.stored target ++ concat (wchar_bytes <$> take n (pendingW w)) ∧
       span.size target' = span.size target - n * 2 ∧
       pendingW w' = drop n (pendingW w) ∧ pendingA w' = pendingA w
     else
       let n := min (length (pendingA w)) (span.size target) in
       span.stored target' = span.stored target ++ take n (pendingA w) ∧
       span.size target' = span.size target - n ∧
       pendingA w' = drop n (pendingA w) ∧ pendingW w' = pendingW w) ∧
    caches_suffix (this w') ∧ _readingMode (this w') = _readingMode (this w).
Proof.
  intros Hm Hc. destruct isUnicode.
  - destruct (ConsumeCached_wide target w Hm Hc) as (w' & -> & Hp & _ & F & Hm' & HA).
    do 2 eexists. split; [done|]. split_and!; try done; [|congruence].
    by apply F.
  - pose proof (ConsumeCached_cache_frame false target w) as F.
    destruct (ConsumeCached_narrow target w Hm (view_suffix_inside _ _ (proj1 Hc)))
      as (w' & Hrun & Hp & _ & Hm' & _). rewrite Hrun in *.
    do 2 eexists. split; [done|]. split_and!; try done; [| |congruence].
    + revert Hrun. unfold ConsumeCached. unfold mbind at 1, M_bind at 1.
      rewrite _switchReadingMode_same by done.
      unfold mbind at 1, M_bind at 1, get. cbv beta iota.
      destruct (negb _); [|by intros [= _ <-]].
      destruct (bytes_transfer _ _ _ _) as [t r]. run.
      destruct (view.empty (view.substr _ _)); unfold modify; simpl; by intros [= _ <-].
    + by apply F.
Qed.

Lemma Cache_spec source w :
  caches_suffix (this w) → source = [] ∨ head (new_outcomes w) ≠ Some false →
  ∃ w', Cache source w = Ok tt w' ∧ pendingW w' = pendingW w ++ source ∧
    pendingA w' = pendingA w ∧ caches_suffix (this w') ∧
    _readingMode (this w') = _readingMode (this w) ∧ append_frame w w'.
Proof.
  intros Hc Hor. pose proof (Cache_append_frame source w) as F. revert F.
  unfold Cache.
  pose proof (append_spec (_cachedTextW (this w)) source (new_outcomes w)) as A.
  destruct (append _ _ _) as [text h|e h| |]; [| |done|done].
  - destruct A as (-> & _ & _). intros F. eexists. split; [done|].
    split_and!; try done; [|by apply F].
    rewrite (pendingW_suffix w Hc).
    unfold pendingW, view.elements, view.substr, view.of_string. simpl.
    destruct Hc as [_ [[E Hz]|HW]].
    + rewrite E. simpl. rewrite drop_nil, Nat.sub_0_r. simpl. by rewrite firstn_all.
    + destruct (Nat.eqb_spec (length (_cachedTextW (this w))) 0) as [E0|E0].
      * apply length_zero_iff_nil in E0. rewrite E0 in *. simpl in *.
        assert (view.data (_cachedTextReaderW (this w)) = 0) as -> by lia.
        simpl. by rewrite Nat.sub_0_r, firstn_all.
      * rewrite take_ge by (rewrite length_drop, length_app; lia).
        rewrite drop_app_le by lia. done.
  - destruct A as (_ & Hs & Hh). rewrite Hh in Hor. by destruct Hor.
Qed.

Lemma Cache_throws source w h :
  source ≠ [] → new_outcomes w = false :: h →
  Cache source w = Throw bad_alloc {| this := this w; new_outcomes := h; calls := calls w |}.
Proof.
  intros Hs Hh. unfold Cache, append. rewrite Hh.
  destruct source as [|c source]; [done|]. done.
Qed.

(** X26. [Cache] of text appends, or fails and changes nothing. With a
    reader view that ends where its string ends, and memory for the append
    (the next outcome of the heap is not a failure, or [source] is empty and
    the append needs none), [Cache] returns and puts its code units behind
    those the wide cache still owes its reader; it leaves the reading mode
    and the narrow cache as they were. In reading mode [StringW] a
    [ConsumeCached] that follows delivers the code units owed before, then
    the code units cached, as many as fit whole. When the append of a source
    that is not empty gets no memory, [Cache] throws [std::bad_alloc] and
    leaves every member as it was: the code units of [source] are not
    cached. *)
Theorem Cache_appends source w :
  caches_suffix (this w) →
  (source = [] ∨ head (new_outcomes w) ≠ Some false →
   ∃ w', Cache source w = Ok tt w' ∧ pendingW w' = pendingW w ++ source ∧
     pendingA w' = pendingA w ∧ caches_suffix (this w') ∧
     _readingMode (this w') = _readingMode (this w) ∧
     (_readingMode (this w) = StringW →
      ∀ target,
        let n := min (length (pendingW w ++ source)) (span.size target / 2) in
        ∃ w'', ConsumeCached true target w'
               = Ok (span.mk (span.stored target
                              ++ concat (wchar_bytes <$> take n (pendingW w ++ source)))
                             (span.size target - n * 2)) w'' ∧
               pendingW w'' = drop n (pendingW w ++ source))) ∧
  (∀ h, source ≠ [] → new_outcomes w = false :: h →
     Cache source w
     = Throw bad_alloc {| this := this w; new_outcomes := h; calls := calls w |}).
Proof.
  intros Hc. split; [|intros h; apply Cache_throws].
  intros Hor.
  destruct (Cache_spec source w Hc Hor) as (w' & Hrun & HW & HA & Hc' & Hm & _).
  exists w'. split_and!; try done.
  intros HmW target n. rewrite <-Hm in HmW.
  destruct (ConsumeCached_wide target w' HmW Hc') as (w'' & Hcc & Hp & _).
  rewrite HW in Hcc, Hp. by exists w''.
Qed.

(** X27. A wide [Consume] into a target of an even number of bytes loses
    nothing. In reading mode [StringW], with a reader view that ends where
    its string ends, it returns whatever the code page is; the target takes
    the code units the cache owes, then those of [source], in order and low
    byte first, as many as fit; what is left of the cache and of [source]
    are the code units that did not fit, so the assertion that the cache is
    empty when [source] is copied never fails. *)
Theorem Consume_wide_lossless CP source target w :
  _readingMode (this w) = StringW → caches_suffix (this w) →
  span.size target mod 2 = 0 →
  let all := pendingW w ++ source in
  let k := min (length all) (span.size target / 2) in
  ∃ source' w',
    Consume CP true source target w
    = Ok (source', span.mk (span.stored target ++ concat (wchar_bytes <$> take k all))
                           (span.size target - k * 2)) w' ∧
    pendingW w' ++ source' = drop k all ∧
    source' = drop (k - length (pendingW w)) source ∧
    pendingW w' = drop k (pendingW w).
Proof.
  intros Hm Hc Heven all k.
  destruct (ConsumeCached_wide target w Hm Hc) as (w' & Hcc & Hp & Hv & _).
  set (n := min (length (pendingW w)) (span.size target / 2)) in *.
  pose proof (Nat.div_mod_eq (span.size target) 2) as Hdiv. rewrite Heven in Hdiv.
  assert (length all = length (pendingW w) + length source) as Hall
    by (unfold all; by rewrite length_app).
  unfold Consume. unfold mbind at 1, M_bind at 1. rewrite Hcc.
  destruct ((length source =? 0) || span.empty _) eqn:E.
  - assert (k = n ∧ n ≤ length (pendingW w) ∧ (source = [] ∨ k ≤ length (pendingW w)))
      as (Hk & Hn & Hor).
    { apply orb_true_iff in E as [E|E].
      - apply Nat.eqb_eq in E. split_and!; [unfold k, n; lia|unfold n; lia|].
        left. by apply length_zero_iff_nil.
      - unfold span.empty in E. apply Nat.eqb_eq in E. simpl in E.
        split_and!; [unfold k, n in *; lia|unfold n; lia|right; unfold k, n in *; lia]. }
    exists source, w'. rewrite Hk.
    assert (take n all = take n (pendingW w)) as -> by (unfold all; by rewrite take_app_le).
    replace (n - length (pendingW w)) with 0 by lia. rewrite drop_0.
    split_and!; try done. rewrite Hp. unfold all. by rewrite drop_app_le.
  - apply orb_false_iff in E as [Es Et]. apply Nat.eqb_neq in Es.
    unfold span.empty in Et. apply Nat.eqb_neq in Et. simpl in Et.
    assert (n = length (pendingW w)) as Hn by (unfold n in *; lia).
    assert (view.empty (_cachedTextReaderW (this w')) = true) as Hve.
    { rewrite Hv. apply Nat.leb_le. unfold n in *. lia. }
    unfold mbind at 1, M_bind at 1, get. unfold mbind at 1, M_bind at 1, assert.
    rewrite Hve. rewrite bytes_transfer_wide. cbn [span.stored span.size].
    set (m := min (length source) ((span.size target - n * 2) / 2)).
    assert ((span.size target - n * 2) / 2 = span.size target / 2 - n) as Hhalf.
    { replace (span.size target - n * 2) with ((span.size target / 2 - n) * 2) by lia.
      by rewrite Nat.div_mul. }
    assert (k = n + m) as Hk by (unfold k, m; lia).
    exists (drop m source), w'. unfold mret, M_ret.
    assert (take k all = pendingW w ++ take m source) as Htake.
    { unfold all. rewrite Hk, Hn. by rewrite take_app_add. }
    rewrite Htake, fmap_app, concat_app, app_assoc.
    rewrite Hn at 1. rewrite firstn_all.
    replace (span.size target - n * 2 - m * 2) with (span.size target - k * 2) by lia.
    replace (k - length (pendingW w)) with m by lia.
    split_and!; try done.
    + rewrite Hp, Hn, drop_all. unfold all. rewrite Hk, Hn. simpl.
      by rewrite drop_app_add.
    + rewrite Hp, Hn, drop_all. symmetry. apply drop_ge. lia.
Qed.


End cache_laws.

(** ** The partial byte sequence of a write *)

(** X29. The partial byte sequence is a slot of one record. After
    [StoreWritePartialByteSequence] the sequence is available and
    [FetchWritePartialByteSequence] returns the record stored last; the fetch
    makes the sequence unavailable but does not clear the record, which a
    second fetch returns again. *)
Theorem partial_byte_sequence_round_trip (event : INPUT_RECORD) (p : WritePartial) :
  let stored := StoreWritePartialByteSequence event p in
  let fetched := FetchWritePartialByteSequence stored in
  IsWritePartialByteSequenceAvailable stored = true ∧
  fetched.1 = event ∧
  IsWritePartialByteSequenceAvailable fetched.2 = false ∧
  (FetchWritePartialByteSequence fetched.2).1 = event ∧
  (∀ event', (FetchWritePartialByteSequence
                (StoreWritePartialByteSequence event' stored)).1 = event') ∧
  IsWritePartialByteSequenceAvailable (FetchWritePartialByteSequence p).2 = false.
Proof. done. Qed.

(** ** The properties at concrete inputs *)

(** Fresh memory that reads as zeros. *)
#[local] Instance zero_nat : Trivial nat := 0.
#[local] Instance zero_Span : Trivial Span := Span.mk Record_ 0.
#[local] Instance zero_wchar_t : Trivial wchar_t := 0%Z.
#[local] Instance zero_INPUT_RECORD : Trivial INPUT_RECORD :=
  {| EventType := 0;
     KeyEvent := {| bKeyDown := false; wRepeatCount := 0; wVirtualKeyCode := 0;
                    wVirtualScanCode := 0; UnicodeChar := 0%Z; dwControlKeyState := 0 |} |}.

(** The key 'r' going down. *)
Definition key_r : INPUT_RECORD := SynthesizeKeyEvent true 1 0x52 0x13 0x72%Z 0.

Lemma fifo_single_writes_witness :
  ∃ r' h',
    ring_buffer.run
      [ring_buffer.Write1 1; ring_buffer.Write1 2; ring_buffer.Read1;
       ring_buffer.Write1 3; ring_buffer.ReadN 5] ring_buffer.init [true]
    = Ok ([1; 2; 3], r') h'.
Proof.
  apply (ring_buffer_fifo.fifo_single_writes
           [ring_buffer.Write1 1; ring_buffer.Write1 2; ring_buffer.Read1;
            ring_buffer.Write1 3; ring_buffer.ReadN 5] [true]).
  - unfold ring_buffer.single_writes. repeat constructor.
  - intros [H|H]%elem_of_cons; [done|by apply elem_of_nil in H].
Defined.

Lemma write_n_sound_witness :
  ∃ r' h',
    ring_buffer.write_n [7; 8] ring_buffer.init [] = Ok r' h' ∧
    ring_buffer.wf r' ∧ ring_buffer.contents r' = [] ++ [7; 8].
Proof.
  apply (ring_buffer_fifo.write_n_sound [7; 8] ring_buffer.init []).
  - apply wf_init.
  - apply not_elem_of_nil.
  - right. simpl. lia.
Defined.

(** A write of the key 'r' to a new buffer signals and wakes; a write of
    the text "a" to a new buffer does the same; a write of the text "a"
    behind the key wakes and does not signal; a write of text that gets no
    memory does neither. *)
Lemma write_notifications_witness :
  calls (world_after (Write [key_r])) = [SetEvent; NotifyWaiters false] ∧
  (Write_text [0x61%Z] (world_new []) = Ok tt (world_after (Write_text [0x61%Z])) ∧
   calls (world_after (Write_text [0x61%Z])) = [SetEvent; NotifyWaiters false]) ∧
  (Write_text [0x61%Z] (world_after (Write [key_r]))
   = Ok tt (world_after (_ ← Write [key_r]; Write_text [0x61%Z])) ∧
   calls (world_after (_ ← Write [key_r]; Write_text [0x61%Z]))
   = [SetEvent; NotifyWaiters false; NotifyWaiters false]) ∧
  Write_text [0x61%Z] (world_new [false])
  = Ok tt {| this := InputBuffer_new; new_outcomes := [];
             calls := [LOG_CAUGHT_EXCEPTION bad_alloc] |}.
Proof.
  split; [|split; [|split]].
  - apply (proj1 (write_notifications (world_new []) (world_after (Write [key_r])))
             [key_r]).
    + done.
    + vm_compute. reflexivity.
  - apply (proj1 (proj2 (write_notifications (world_new [])
                           (world_after (Write_text [0x61%Z])))) [0x61%Z]).
    + done.
    + vm_compute. reflexivity.
  - apply (proj1 (proj2 (write_notifications (world_after (Write [key_r]))
                           (world_after (_ ← Write [key_r]; Write_text [0x61%Z]))))
             [0x61%Z]).
    + done.
    + vm_compute. reflexivity.
  - apply (proj1 (proj2 (proj2 (write_notifications (world_new [false]) (world_new []))))
             [0x61%Z] bad_alloc (world_new [])).
    + done.
    + vm_compute. reflexivity.
Defined.

Lemma Write_text_never_throws_witness :
  Write_text [0x61%Z] (world_new [false])
  = Ok tt {| this := InputBuffer_new; new_outcomes := [];
             calls := [LOG_CAUGHT_EXCEPTION bad_alloc] |}.
Proof.
  apply (proj1 (proj2 (Write_text_never_throws [0x61%Z] (world_new [false]))) []).
  - done.
  - simpl. lia.
  - reflexivity.
Defined.

(** A narrow [Consume] of the euro sign into a target of 1 byte, by the UTF-8
    code page: E2 is delivered, 82 AC is the cached remainder. *)
Definition world_with_remainder : world :=
  match Consume CP_UTF8 false [0x20AC%Z] (span.of_size 1) (world_new []) with
  | Ok _ w => w
  | _ => world_new []
  end.

Lemma mode_switch_discards_caches_witness :
  view.elements (_cachedTextA (this world_with_remainder))
                (_cachedTextReaderA (this world_with_remainder)) = [0x82; 0xAC]%Z ∧
  ∃ r w', PeekCached true 1 [] world_with_remainder = Ok r w' ∧ caches_empty (this w') ∧
    ∀ target, ∃ w'', ConsumeCached false target w' = Ok target w''.
Proof.
  split; [reflexivity|].
  apply (mode_switch_discards_caches CP_UTF8 world_with_remainder InputEventsW).
  - vm_compute. discriminate.
  - reflexivity.
Defined.

Lemma span_merge_invariant_witness :
  let w := world_after (_ ← Write_text [0x61; 0x62]%Z; _ ← Write [key_r];
                        Write_text [0x63; 0x64]%Z) in
  reachable w ∧ kinds_of (this w) = [Text; Record_; Text] ∧
  adjacent_distinct (kinds_of (this w)).
Proof.
  intros w.
  assert (reachable (world_after (Write_text [0x61; 0x62]%Z))) as H1.
  { apply (reachable_Write_text [0x61; 0x62]%Z (world_new [])); [apply reachable_new|].
    vm_compute. reflexivity. }
  assert (reachable (world_after (_ ← Write_text [0x61; 0x62]%Z; Write [key_r]))) as H2.
  { apply (reachable_Write [key_r] _ _ H1). vm_compute. reflexivity. }
  assert (reachable w) as H3.
  { apply (reachable_Write_text [0x63; 0x64]%Z _ _ H2). vm_compute. reflexivity. }
  split_and!; [exact H3|reflexivity|].
  exact (proj1 (proj1 span_merge_invariant w H3)).
Defined.

Lemma ConsumeCached_postcondition_witness :
  ∃ target' w',
    ConsumeCached false (span.of_size 1) world_with_remainder = Ok target' w' ∧
    (view.empty (_cachedTextReaderA (this w')) = true ∨ span.size target' < 1).
Proof.
  apply (ConsumeCached_postcondition false (span.of_size 1) world_with_remainder).
  unfold cacheA_inside, view_inside. vm_compute. lia.
Defined.

Lemma narrow_assertion_holds_witness :
  Consume CP_UTF8 false [0x61%Z] (span.of_size 4) world_with_remainder ≠ AssertFailed.
Proof.
  apply (narrow_assertion_holds CP_UTF8 [0x61%Z] (span.of_size 4) world_with_remainder).
  unfold cacheA_inside, view_inside. vm_compute. lia.
Defined.

(** "abécd" through two targets of 3 bytes: 61 62 C3, then A9 63 64. *)
Lemma Consume_narrow_lossless_witness :
  let source := [0x61; 0x62; 0xE9; 0x63; 0x64]%Z in
  ∃ source' w',
    Consume_calls CP_UTF8 [3; 3] source (world_new [])
    = Ok (take (sum_list [3; 3]) (conv utf8_code_point source), source') w' ∧
    take (sum_list [3; 3]) (conv utf8_code_point source)
    ++ pendingA w' ++ conv utf8_code_point source'
    = conv utf8_code_point source ∧
    CP_UTF8 source = inl (conv utf8_code_point source).
Proof.
  intros source.
  apply (Consume_narrow_lossless CP_UTF8 utf8_code_point utf8_no_surrogates
           utf8_code_point_length [3; 3] source (world_new [])).
  - reflexivity.
  - unfold cacheA_inside, view_inside. simpl. lia.
  - reflexivity.
  - unfold no_surrogates. repeat constructor.
  - simpl. lia.
  - repeat constructor; simpl; lia.
Defined.

Lemma lossless_index_preserved_witness :
  indexed (this (world_after (Write [key_r]))).
Proof.
  apply (proj1 (lossless_index_preserved (world_new []) indexed_new) [key_r]).
  vm_compute. reflexivity.
Defined.

(** "ab" written, then a read of one character. *)
Lemma Read_text_returns_witness :
  ∃ n out b',
    Read_text 2 true false 1 (this (world_after (Write_text [0x61; 0x62]%Z)))
    = Some (n, out, b') ∧ n ≤ 1 ∧ indexed b'.
Proof.
  apply (Read_text_returns 2 true false 1 (this (world_after (Write_text [0x61; 0x62]%Z)))).
  - apply (Write_text_try_indexed [0x61; 0x62]%Z (world_new [])); [apply indexed_new|].
    vm_compute. reflexivity.
  - vm_compute. lia.
Defined.

(** A ring of numbers after the writes of 1, 2 and 3 and one read. *)
Definition ring_2_3 : ring_buffer nat :=
  match ring_buffer.run [ring_buffer.Write1 1; ring_buffer.Write1 2; ring_buffer.Write1 3;
                         ring_buffer.Read1] ring_buffer.init [] with
  | Ok (_, r) _ => r
  | _ => ring_buffer.init
  end.

(** The class invariant of a ring that is given in full, by evaluation. *)
Ltac wf_by_evaluation :=
  unfold ring_buffer.wf; vm_compute; repeat split; try lia; left; lia.

(** [consistent] of a buffer that is given in full, by evaluation. *)
Ltac consistent_by_evaluation :=
  split; [wf_by_evaluation|split; [wf_by_evaluation|split;
    [wf_by_evaluation|split; vm_compute; reflexivity]]].

Lemma class_invariant_kept_witness :
  ring_buffer.wf (ring_buffer.clear ring_2_3) ∧
  ring_buffer.wf (ring_buffer.advance 5 ring_2_3).
Proof.
  assert (ring_buffer.wf ring_2_3) as H by wf_by_evaluation.
  pose proof (ring_buffer_laws.class_invariant_kept ring_2_3 H) as (Hc & _ & Hn & _).
  split; [exact Hc|apply Hn].
Defined.

Lemma write_allocates_only_when_full_witness :
  ∃ r', ring_buffer.write 7 ring_buffer.init [] = Ok r' [] ∧
        ring_buffer._capacity r' = 16 ∧ 0 < ring_buffer._capacity r' ∧
        ring_buffer.contents r' = [7].
Proof.
  exact (proj2 (ring_buffer_laws.write_allocates_only_when_full 7 ring_buffer.init []
                  wf_init) eq_refl).
Defined.

Lemma reads_take_from_the_front_witness :
  (ring_buffer.read_n 5 ring_2_3).1 = [2; 3] ∧
  ring_buffer.contents (ring_buffer.read ring_2_3).2 = [3].
Proof.
  assert (ring_buffer.wf ring_2_3) as H by wf_by_evaluation.
  pose proof (ring_buffer_laws.reads_take_from_the_front ring_2_3 5 H)
    as (H1 & _ & _ & _ & H2 & _).
  split; [exact H1|exact H2].
Defined.

Lemma read_is_peek_then_advance_witness :
  ring_buffer.read ring_2_3 = (Some 2, ring_buffer.advance 1 ring_2_3).
Proof.
  assert (ring_buffer.wf ring_2_3) as H by wf_by_evaluation.
  exact (proj1 (ring_buffer_laws.read_is_peek_then_advance ring_2_3 H)).
Defined.

Lemma cursors_point_at_both_ends_witness :
  ring_buffer.size ring_2_3 = 2 ∧
  ∀ p, ring_buffer.last_written ring_2_3 = Some p →
       Some 3 = Some (ring_buffer.deref ring_2_3 p).
Proof.
  assert (ring_buffer.wf ring_2_3) as H by wf_by_evaluation.
  pose proof (ring_buffer_laws.cursors_point_at_both_ends ring_2_3 H)
    as (H1 & _ & _ & _ & _ & H2).
  split; [exact H1|exact H2].
Defined.

Lemma bulk_round_trip_witness :
  ∃ r' h', ring_buffer.write_n [7; 8] ring_2_3 [] = Ok r' h' ∧
    ring_buffer.read_n (ring_buffer._size r') r'
    = ([2; 3; 7; 8], ring_buffer.advance (ring_buffer._size r') r') ∧
    ring_buffer.contents (ring_buffer.advance (ring_buffer._size r') r') = [] ∧
    ring_buffer._size r' = 4.
Proof.
  apply (ring_buffer_laws.bulk_round_trip [7; 8] ring_2_3 []).
  - wf_by_evaluation.
  - left. vm_compute. lia.
  - apply not_elem_of_nil.
Defined.

(** The key 'r' and the text "ab" written to a new buffer. *)
Definition world_r_ab : world :=
  world_after (_ ← Write [key_r]; Write_text [0x61; 0x62]%Z).

Lemma Read_text_takes_from_the_front_witness :
  ∃ b', Read_text 3 true false 2 (this world_r_ab) = Some (2, [0x72; 0x61]%Z, b') ∧
        pending (this world_r_ab) = [Record_item key_r; Text_item 0x61%Z] ++ pending b'.
Proof.
  assert (consistent (this world_r_ab)) as H by consistent_by_evaluation.
  assert (ring_buffer.size (_spans (this world_r_ab)) < 3) as Hf by (vm_compute; lia).
  destruct (Read_text_takes_from_the_front 3 false 2 (this world_r_ab) H Hf)
    as (b' & H1 & H2 & _).
  exists b'. split; [exact H1|exact H2].
Defined.

Lemma Read_records_takes_records_witness :
  ∃ b', Read_records 3 true false 1 (this world_r_ab) = Some (1, [key_r], b') ∧
        pending (this world_r_ab) = [Record_item key_r] ++ pending b' ∧ consistent b'.
Proof.
  apply (Read_records_takes_records 3 false 1 (this world_r_ab) [key_r]).
  - consistent_by_evaluation.
  - vm_compute. lia.
  - reflexivity.
Defined.

Lemma writes_append_witness :
  consistent (this (world_after (Write_record key_r))) ∧
  pending (this (world_after (Write_record key_r))) = [] ++ [Record_item key_r].
Proof.
  assert (consistent (this (world_new []))) as H by consistent_by_evaluation.
  apply (proj1 (proj2 (writes_append (world_new []) H)) key_r).
  vm_compute. reflexivity.
Defined.

Lemma text_round_trip_witness :
  ∃ w' b', Write_text [0x61; 0x62]%Z (world_new []) = Ok tt w' ∧
    Read_text 2 true false 2 (this w') = Some (2, [0x61; 0x62]%Z, b') ∧
    pending b' = [] ∧ consistent b'.
Proof.
  apply (text_round_trip [0x61; 0x62]%Z (world_new []) 2 false).
  - consistent_by_evaluation.
  - reflexivity.
  - right. vm_compute. lia.
  - apply not_elem_of_nil.
  - vm_compute. lia.
Defined.

Lemma records_round_trip_witness :
  ∃ w' b', Write_each [key_r; key_r] (world_new []) = Ok tt w' ∧
    Read_records 3 true false 2 (this w') = Some (2, [key_r; key_r], b') ∧
    pending b' = [] ∧ consistent b'.
Proof.
  apply (records_round_trip [key_r; key_r] (world_new []) 3 false).
  - consistent_by_evaluation.
  - reflexivity.
  - apply not_elem_of_nil.
  - vm_compute. lia.
Defined.

Lemma Flush_empties_witness :
  ∃ w', Flush world_r_ab = Ok tt w' ∧ consistent (this w') ∧ pending (this w') = [] ∧
    calls w' = calls world_r_ab ++ [ResetEvent].
Proof.
  destruct (Flush_empties world_r_ab) as (w' & H1 & H2 & H3 & H4 & _).
  - wf_by_evaluation.
  - wf_by_evaluation.
  - wf_by_evaluation.
  - exists w'. split_and!; [exact H1|exact H2|exact H3|exact H4].
Defined.

Lemma world_with_remainder_by_calls : reachable_by_calls world_with_remainder.
Proof.
  apply (by_calls_cache CP_UTF8 _ (Consume CP_UTF8 false [0x20AC%Z] (span.of_size 1))
           ([], span.mk [0xE2%Z] 0) (world_new [])).
  - apply by_calls_new.
  - apply entry_Consume.
  - vm_compute. reflexivity.
Defined.

Lemma reader_views_stay_inside_witness :
  cacheA_inside world_with_remainder ∧
  Consume CP_UTF8 false [0x61%Z] (span.of_size 1) world_with_remainder ≠ AssertFailed.
Proof.
  pose proof (reader_views_stay_inside world_with_remainder world_with_remainder_by_calls)
    as (_ & H1 & _ & _ & H2).
  split; [exact H1|apply H2].
Defined.

(** The text "a" and the key 'r' written to a new buffer, a narrow
    [Consume] that caches a remainder, a [Cache] of text, and the text "b"
    written: three spans. *)
Definition world_a_r_b : world :=
  world_after (_ ← Write_text [0x61%Z]; _ ← Write [key_r];
               _ ← Consume CP_UTF8 false [0x20AC%Z] (span.of_size 1);
               _ ← Cache [0x63%Z]; Write_text [0x62%Z]).

Lemma world_a_r_b_by_calls : reachable_by_calls world_a_r_b.
Proof.
  apply (by_calls_ring unit (Write_text [0x62%Z]) tt
           (world_after (_ ← Write_text [0x61%Z]; _ ← Write [key_r];
                         _ ← Consume CP_UTF8 false [0x20AC%Z] (span.of_size 1);
                         Cache [0x63%Z])));
    [|apply entry_Write_text|vm_compute; reflexivity].
  apply (by_calls_Cache [0x63%Z]
           (world_after (_ ← Write_text [0x61%Z]; _ ← Write [key_r];
                         _ ← Consume CP_UTF8 false [0x20AC%Z] (span.of_size 1);
                         mret tt)));
    [|vm_compute; reflexivity].
  apply (by_calls_cache CP_UTF8 _ (Consume CP_UTF8 false [0x20AC%Z] (span.of_size 1))
           ([], span.mk [0xE2%Z] 0)
           (world_after (_ ← Write_text [0x61%Z]; Write [key_r])));
    [|apply entry_Consume|vm_compute; reflexivity].
  apply (by_calls_ring unit (Write [key_r]) tt (world_after (Write_text [0x61%Z])));
    [|apply entry_Write|vm_compute; reflexivity].
  apply (by_calls_ring unit (Write_text [0x61%Z]) tt (world_new []));
    [apply by_calls_new|apply entry_Write_text|vm_compute; reflexivity].
Defined.

Lemma spans_differ_after_any_calls_witness :
  kinds_of (this world_a_r_b) = [Text; Record_; Text] ∧
  pendingA world_a_r_b = [0x82; 0xAC]%Z ∧
  ring_buffer.wf (_spans (this world_a_r_b)) ∧
  adjacent_distinct (kinds_of (this world_a_r_b)).
Proof.
  split; [reflexivity|]. split; [reflexivity|].
  exact (spans_differ_after_any_calls world_a_r_b world_a_r_b_by_calls).
Defined.

Lemma ConsumeCached_delivers_front_witness :
  ∃ target' w', ConsumeCached false (span.of_size 1) world_with_remainder = Ok target' w' ∧
    span.stored target' = [0x82%Z] ∧ pendingA w' = [0xAC%Z].
Proof.
  destruct (ConsumeCached_delivers_front false (span.of_size 1) world_with_remainder)
    as (target' & w' & H1 & (H2 & _ & H3 & _) & _).
  - reflexivity.
  - split; [right; reflexivity|left; split; reflexivity].
  - exists target', w'. split_and!; [exact H1|exact H2|exact H3].
Defined.

Lemma Cache_appends_witness :
  (∃ w', Cache [0x61; 0x62]%Z (world_new []) = Ok tt w' ∧ pendingW w' = [0x61; 0x62]%Z) ∧
  Cache [0x61; 0x62]%Z (world_new [false]) = Throw bad_alloc (world_new []).
Proof.
  split.
  - destruct (proj1 (Cache_appends [0x61; 0x62]%Z (world_new [])
                       (conj (or_introl (conj eq_refl eq_refl))
                             (or_introl (conj eq_refl eq_refl)))))
      as (w' & H1 & H2 & _).
    + right. simpl. discriminate.
    + exists w'. split; [exact H1|exact H2].
  - apply (proj2 (Cache_appends [0x61; 0x62]%Z (world_new [false])
                    (conj (or_introl (conj eq_refl eq_refl))
                          (or_introl (conj eq_refl eq_refl)))) []).
    + discriminate.
    + reflexivity.
Defined.

(** A new buffer switched to wide text, with "a" cached. *)
Definition world_wide_a : world :=
  world_after (_ ← ConsumeCached true (span.of_size 0); Cache [0x61%Z]).

Lemma Consume_wide_lossless_witness :
  ∃ source' w',
    Consume CP_UTF8 true [0x62%Z] (span.of_size 2) world_wide_a
    = Ok (source', span.mk [0x61; 0]%Z 0) w' ∧
    pendingW w' ++ source' = [0x62%Z].
Proof.
  destruct (Consume_wide_lossless CP_UTF8 [0x62%Z] (span.of_size 2) world_wide_a)
    as (source' & w' & H1 & H2 & _).
  - reflexivity.
  - split; [left; split; reflexivity|right; reflexivity].
  - reflexivity.
  - exists source', w'. split; [exact H1|exact H2].
Defined.


(** C9. A write of text that does not complete. [Write(text)] turns every
    exception of its [try] block into a log entry and a normal return, but
    it does not complete for every input: on a new buffer a write of 10 code
    units returns, and the write of 7 code units that follows makes the text
    ring grow while its elements do not reach the end of the allocation.
    [_grow] then copies 26 elements into the new allocation of 24, a
    [memcpy] past its end: undefined behaviour, in a call that neither
    throws nor is caught. *)
Theorem Write_text_does_not_complete :
  ∃ w, Write_text (replicate 10 0x61%Z) (world_new []) = Ok tt w ∧
       ring_buffer.wf (_text (this w)) ∧
       Write_text_try (replicate 7 0x62%Z) w = Undefined ∧
       Write_text (replicate 7 0x62%Z) w = Undefined.
Proof.
  eexists. split; [vm_compute; reflexivity|].
  split_and!; [wf_by_evaluation|vm_compute; reflexivity|vm_compute; reflexivity].
Qed.
